(** * SEO meta-tag injection: a shallow embedding of
      [server/middleware/seoMetaInjection.js] and of the dev-server plugin.

    The JavaScript source works on strings with [String.prototype.replace],
    [includes], [indexOf] and [slice], driven by regular-expression literals.
    The development below first models that fragment of the language
    (strings as sequences of UTF-16 code units, a backtracking matcher in
    continuation-passing style as in the ECMAScript specification, the
    [$]-patterns of replacement strings), then transcribes the functions of
    the source, and finally proves the properties of the injector. *)

From Stdlib Require Import String Ascii List NArith Arith Bool Lia.
Import ListNotations.

(** ** JavaScript strings *)

(** A JavaScript string is a finite sequence of 16-bit code units. *)
Definition code_unit := N.
Definition jsstring := list code_unit.

(** [js "abc"] is the JavaScript string literal ['abc'] (ASCII only). *)
Definition js (s : string) : jsstring :=
  map N_of_ascii (list_ascii_of_string s).

Definition dq : code_unit := 34%N.    (* the double quote *)
Definition apos : code_unit := 39%N.  (* the apostrophe   *)

(** [jsq] reads a literal in which every apostrophe stands for a double
    quote, so that [jsq "name='keywords'"] is the JavaScript literal
    [name='keywords'] with double quotes.  No literal of the source contains
    an apostrophe. *)
Definition jsq (s : string) : jsstring :=
  map (fun c => if N.eqb c apos then dq else c) (js s).

(** [s.startsWith(p)] *)
Fixpoint startsWith (p s : jsstring) : bool :=
  match p, s with
  | [], _ => true
  | _ :: _, [] => false
  | a :: p', b :: s' => N.eqb a b && startsWith p' s'
  end.

(** [s.indexOf(p)]: the least index at which [p] occurs, [None] for [-1]. *)
Fixpoint indexOf (p s : jsstring) : option nat :=
  if startsWith p s then Some 0
  else match s with
       | [] => None
       | _ :: s' => option_map S (indexOf p s')
       end.

(** [s.includes(p)] *)
Definition includes (s p : jsstring) : bool :=
  match indexOf p s with Some _ => true | None => false end.

(** [s.slice(0, i)] and [s.slice(i)] for [0 <= i <= s.length]. *)
Definition slice_to (i : nat) (s : jsstring) : jsstring := firstn i s.
Definition slice_from (i : nat) (s : jsstring) : jsstring := skipn i s.

(** ** Regular expressions *)

(** The fragment of the pattern language that the source uses: literal
    characters, (negated) character classes, [\s], the assertion [^],
    sequencing, the greedy quantifiers [*], [+] and [?], and capturing
    groups. *)
Inductive regex : Type :=
| REmpty
| RChar (c : code_unit)
| RClass (negated : bool) (cs : list code_unit)
| RSpace
| RBol
| RSeq (a b : regex)
| RStar (a : regex)
| RPlus (a : regex)
| ROpt (a : regex)
| RGroup (a : regex).

Declare Scope regex_scope.
Delimit Scope regex_scope with re.
Bind Scope regex_scope with regex.
Infix "<+>" := RSeq (at level 41, right associativity) : regex_scope.

(** A run of literal characters. *)
Fixpoint RLit (s : jsstring) : regex :=
  match s with
  | [] => REmpty
  | c :: s' => RSeq (RChar c) (RLit s')
  end.

(** [\s] matches WhiteSpace and LineTerminator code units. *)
Definition is_space (c : code_unit) : bool :=
  existsb (N.eqb c)
    [9; 10; 11; 12; 13; 32; 160; 5760; 8232; 8233; 8239; 8287; 12288; 65279]%N
  || (N.leb 8192 c && N.leb c 8202)%N.

(** Canonicalize (ignoreCase, non-unicode mode).  The patterns of the source
    are ASCII: a code unit of 128 or more never canonicalizes to an ASCII one,
    so it is enough to fold the ASCII letters. *)
Definition canonicalize (ic : bool) (c : code_unit) : code_unit :=
  if (ic && N.leb 97 c && N.leb c 122)%N then (c - 32)%N else c.

Definition char_matches (ic : bool) (pat c : code_unit) : bool :=
  N.eqb (canonicalize ic pat) (canonicalize ic c).

Definition class_matches (ic negated : bool) (cs : list code_unit)
    (c : code_unit) : bool :=
  xorb negated (existsb (fun a => char_matches ic a c) cs).

(** The state of a match: the index reached, the input that remains from
    there, and the captures made so far (in order of closing). *)
Record mstate : Type := MState {
  pos : nat;
  rest : jsstring;
  caps : list jsstring
}.

Definition continuation := mstate -> option mstate.
Definition matcher := mstate -> continuation -> option mstate.

Definition step_char (ok : code_unit -> bool) : matcher :=
  fun st k =>
    match rest st with
    | c :: s' => if ok c then k (MState (S (pos st)) s' (caps st)) else None
    | [] => None
    end.

(** RepeatMatcher for a greedy quantifier without upper bound: first try one
    more iteration of [m], an iteration that consumes nothing being refused,
    and fall back to the continuation when that fails.  Every iteration
    consumes a code unit, so the length of the input bounds their number. *)
Fixpoint repeat_matcher (m : matcher) (fuel : nat) : matcher :=
  fun st k =>
    match fuel with
    | O => k st
    | S fuel' =>
        match m st (fun st' => if Nat.eqb (pos st') (pos st) then None
                               else repeat_matcher m fuel' st' k)
        with
        | Some res => Some res
        | None => k st
        end
    end.

(** The matcher of a pattern, in continuation-passing style: [k] is the
    matcher of what follows, and a failure of [k] makes the pattern try its
    next alternative (backtracking). *)
Fixpoint rmatch (r : regex) (ic : bool) {struct r} : matcher :=
  fun st k =>
    match r with
    | REmpty => k st
    | RChar c => step_char (char_matches ic c) st k
    | RClass neg cs => step_char (class_matches ic neg cs) st k
    | RSpace => step_char is_space st k
    | RBol => if Nat.eqb (pos st) 0 then k st else None
    | RSeq a b => rmatch a ic st (fun st' => rmatch b ic st' k)
    | RStar a => repeat_matcher (rmatch a ic) (length (rest st)) st k
    | RPlus a =>
        rmatch a ic st (fun st' =>
          repeat_matcher (rmatch a ic) (length (rest st')) st' k)
    | ROpt a =>
        match rmatch a ic st
                (fun st' => if Nat.eqb (pos st') (pos st) then None else k st')
        with
        | Some res => Some res
        | None => k st
        end
    | RGroup a =>
        rmatch a ic st (fun st' =>
          k (MState (pos st') (rest st')
               (caps st' ++ [firstn (pos st' - pos st) (rest st)])))
    end.

(** A regular-expression object: the pattern and its flags. *)
Record regexp : Type := RegExp {
  pattern : regex;
  ignoreCase : bool;
  global : bool
}.

(** The result of [RegExp.prototype.exec]. *)
Record match_result : Type := MatchResult {
  index : nat;
  matched : jsstring;
  groups : list jsstring
}.

(** One match attempt at index [i], where [s] is the input from [i] on: the
    matched text and the captures. *)
Definition match_at (re : regexp) (i : nat) (s : jsstring)
    : option (jsstring * list jsstring) :=
  match rmatch (pattern re) (ignoreCase re) (MState i s []) Some with
  | Some st' => Some (firstn (pos st' - i) s, caps st')
  | None => None
  end.

(** [exec] with [lastIndex = 0]: the match attempts start at index 0, then 1,
    and so on up to the length of the input; the first success wins. *)
Fixpoint exec_from (re : regexp) (i : nat) (s : jsstring)
    : option match_result :=
  match match_at re i s with
  | Some (m, g) => Some (MatchResult i m g)
  | None =>
      match s with
      | [] => None
      | _ :: s' => exec_from re (S i) s'
      end
  end.

Definition exec (re : regexp) (s : jsstring) : option match_result :=
  exec_from re 0 s.

(** ** Replacement strings *)

Definition dollar : code_unit := 36%N.

(** GetSubstitution for a pattern without capturing groups: [$$] is a dollar
    sign, [$&] the matched text, [$`] the text before the match and [$'] the
    text after it.  A dollar sign followed by anything else (digits included,
    as there is no group to refer to) stands for itself. *)
Fixpoint getSubstitution (template before m after : jsstring) : jsstring :=
  match template with
  | [] => []
  | c :: t =>
      if N.eqb c dollar then
        match t with
        | d :: t' =>
            if N.eqb d 36 then dollar :: getSubstitution t' before m after
            else if N.eqb d 38 then m ++ getSubstitution t' before m after
            else if N.eqb d 96 then before ++ getSubstitution t' before m after
            else if N.eqb d 39 then after ++ getSubstitution t' before m after
            else c :: getSubstitution t before m after
        | [] => [c]
        end
      else c :: getSubstitution t before m after
  end.

(** [s.replace(re, template)] for a regular expression without the global
    flag and without groups: the first match, if any, is replaced. *)
Definition replace (re : regexp) (template : jsstring) (s : jsstring)
    : jsstring :=
  match exec re s with
  | None => s
  | Some r =>
      let before := firstn (index r) s in
      let after := skipn (index r + length (matched r)) s in
      before ++ getSubstitution template before (matched r) after ++ after
  end.

(** [s.replace(/c/g, by)] for a one-character pattern [c] and a replacement
    free of dollar signs: every occurrence is replaced. *)
Fixpoint replace_all_from (re : regexp) (by_ : jsstring) (fuel i : nat)
    (s : jsstring) : jsstring :=
  match fuel with
  | O => s
  | S fuel' =>
      match exec_from re i s with
      | None => s
      | Some r =>
          let n := index r - i in
          firstn n s ++ by_ ++
          match skipn n s with
          | [] => []
          | c :: s' =>
              if Nat.eqb (length (matched r)) 0
              then c :: replace_all_from re by_ fuel' (S (index r)) s'
              else replace_all_from re by_ fuel'
                     (index r + length (matched r))
                     (skipn (length (matched r)) (c :: s'))
          end
      end
  end.

Definition replace_all (re : regexp) (by_ : jsstring) (s : jsstring)
    : jsstring :=
  replace_all_from re by_ (S (length s)) 0 s.

(** ** The regular expressions of the source

    In the comments of this file an apostrophe inside a quoted piece of the
    source stands for the double quote that the source has there. *)

Definition re (p : regex) : regexp := RegExp p false false.
Definition re_i (p : regex) : regexp := RegExp p true false.
Definition re_g (p : regex) : regexp := RegExp p false true.

(** [/^\/products\/([^/?]+)/] *)
Definition slug_re : regexp :=
  re (RBol <+> RLit (js "/products/") <+>
      RGroup (RPlus (RClass true (js "/?")))).

(** [/'/g] *)
Definition quote_re : regexp := re_g (RChar dq).

(** [/<title>[^<]*<\/title>/] *)
Definition title_re : regexp :=
  re (RLit (js "<title>") <+> RStar (RClass true (js "<")) <+>
      RLit (js "</title>")).

(** [/<meta\s+name='description'\s+content='[^']*'\s*\/?>/i] *)
Definition description_re : regexp :=
  re_i (RLit (js "<meta") <+> RPlus RSpace <+>
        RLit (jsq "name='description'") <+>
        RPlus RSpace <+> RLit (jsq "content='") <+> RStar (RClass true [dq]) <+>
        RChar dq <+> RStar RSpace <+> ROpt (RChar 47%N) <+> RChar 62%N).

(** [/<meta\s+property='og:title'\s+content='[^']*'\s*\/?>/i] *)
Definition og_title_re : regexp :=
  re_i (RLit (js "<meta") <+> RPlus RSpace <+>
        RLit (jsq "property='og:title'") <+>
        RPlus RSpace <+> RLit (jsq "content='") <+> RStar (RClass true [dq]) <+>
        RChar dq <+> RStar RSpace <+> ROpt (RChar 47%N) <+> RChar 62%N).

(** [/<meta\s+property='og:description'\s+content='[^']*'\s*\/?>/i] *)
Definition og_description_re : regexp :=
  re_i (RLit (js "<meta") <+> RPlus RSpace <+>
        RLit (jsq "property='og:description'") <+>
        RPlus RSpace <+> RLit (jsq "content='") <+> RStar (RClass true [dq]) <+>
        RChar dq <+> RStar RSpace <+> ROpt (RChar 47%N) <+> RChar 62%N).

(** [/<meta\s+name='keywords'\s+content='[^']*'\s*\/?>/i] *)
Definition keywords_re : regexp :=
  re_i (RLit (js "<meta") <+> RPlus RSpace <+>
        RLit (jsq "name='keywords'") <+>
        RPlus RSpace <+> RLit (jsq "content='") <+> RStar (RClass true [dq]) <+>
        RChar dq <+> RStar RSpace <+> ROpt (RChar 47%N) <+> RChar 62%N).

(** [/<meta\s+name='twitter:title'\s+content='[^']*'\s*\/?>/i] *)
Definition twitter_title_re : regexp :=
  re_i (RLit (js "<meta") <+> RPlus RSpace <+>
        RLit (jsq "name='twitter:title'") <+>
        RPlus RSpace <+> RLit (jsq "content='") <+> RStar (RClass true [dq]) <+>
        RChar dq <+> RStar RSpace <+> ROpt (RChar 47%N) <+> RChar 62%N).

(** [/<meta\s+name='twitter:description'\s+content='[^']*'\s*\/?>/i] *)
Definition twitter_description_re : regexp :=
  re_i (RLit (js "<meta") <+> RPlus RSpace <+>
        RLit (jsq "name='twitter:description'") <+>
        RPlus RSpace <+> RLit (jsq "content='") <+> RStar (RClass true [dq]) <+>
        RChar dq <+> RStar RSpace <+> ROpt (RChar 47%N) <+> RChar 62%N).

(** [/<meta\s+property='og:image'\s+content='[^']*'\s*\/?>/i] *)
Definition og_image_re : regexp :=
  re_i (RLit (js "<meta") <+> RPlus RSpace <+>
        RLit (jsq "property='og:image'") <+>
        RPlus RSpace <+> RLit (jsq "content='") <+> RStar (RClass true [dq]) <+>
        RChar dq <+> RStar RSpace <+> ROpt (RChar 47%N) <+> RChar 62%N).

(** [/<link\s+rel='canonical'\s+href='[^']*'\s*\/?>/i] *)
Definition canonical_re : regexp :=
  re_i (RLit (js "<link") <+> RPlus RSpace <+>
        RLit (jsq "rel='canonical'") <+>
        RPlus RSpace <+> RLit (jsq "href='") <+> RStar (RClass true [dq]) <+>
        RChar dq <+> RStar RSpace <+> ROpt (RChar 47%N) <+> RChar 62%N).

(** ** Values, exceptions and the slug extractor *)

(** A value that is a string, or [null]/[undefined] ([None]). *)
Definition value := option jsstring.

(** ToBoolean: [null], [undefined] and the empty string are falsy. *)
Definition truthy (v : value) : bool :=
  match v with
  | None | Some [] => false
  | Some (_ :: _) => true
  end.

(** The outcome of an expression that may throw. *)
Inductive result (A : Type) : Type :=
| Ok (a : A)
| Throw.
Arguments Ok {A} a.
Arguments Throw {A}.

(** [pathname.match(re)] then [match ? match[1] : null] *)
Definition extractProductSlug (pathname : jsstring) : value :=
  match exec slug_re pathname with
  | Some m => nth_error (groups m) 0
  | None => None
  end.

(** [v.replace(/'/g, '&quot;')]: a [TypeError] when [v] is undefined. *)
Definition escapeQuotes (v : value) : result jsstring :=
  match v with
  | Some s => Ok (replace_all quote_re (js "&quot;") s)
  | None => Throw
  end.

(** ** The tag-set and the substitution steps *)

(** The object returned by [generateProductSeoTags]; a field that the object
    does not have reads as [undefined].  A field is a string or [undefined]
    here, as the type [value] has it.  A field of another type is outside
    this model: a [keywords] that is truthy and no string (an array, say)
    would make statement 5 throw at [seoData.keywords.replace]. *)
Record SeoTagSet : Type := {
  title : value;
  description : value;
  ogTitle : value;
  ogDescription : value;
  ogImage : value;
  keywords : value;
  canonicalUrl : value
}.

Definition bind {A B : Type} (r : result A) (f : A -> result B) : result B :=
  match r with
  | Ok a => f a
  | Throw => Throw
  end.

Notation "x <- e ;; k" := (bind e (fun x => k))
  (at level 61, e at next level, right associativity).

Definition newline : code_unit := 10%N.

(** Each step below is one numbered statement of [injectMetaTags]: it maps
    the current value of the variable [html] to the value assigned to it, or
    throws before the assignment. *)

(** 1. Replace the title tag *)
Definition step_title (seoData : SeoTagSet) (html : jsstring)
    : result jsstring :=
  v <- escapeQuotes (title seoData) ;;
  Ok (replace title_re (js "<title>" ++ v ++ js "</title>") html).

(** 2. Replace the meta description tag *)
Definition step_description (seoData : SeoTagSet) (html : jsstring)
    : result jsstring :=
  v <- escapeQuotes (description seoData) ;;
  Ok (replace description_re
        (jsq "<meta name='description' content='" ++ v ++ jsq "' />") html).

(** 3. Add/replace og:title *)
Definition step_og_title (seoData : SeoTagSet) (html : jsstring)
    : result jsstring :=
  if includes html (jsq "property='og:title'") then
    v <- escapeQuotes (ogTitle seoData) ;;
    Ok (replace og_title_re
          (jsq "<meta property='og:title' content='" ++ v ++ jsq "' />") html)
  else Ok html.

(** 4. Add/replace og:description *)
Definition step_og_description (seoData : SeoTagSet) (html : jsstring)
    : result jsstring :=
  if includes html (jsq "property='og:description'") then
    v <- escapeQuotes (ogDescription seoData) ;;
    Ok (replace og_description_re
          (jsq "<meta property='og:description' content='" ++ v ++ jsq "' />")
          html)
  else Ok html.

(** 5. Add/replace keywords meta tag *)
Definition step_keywords (seoData : SeoTagSet) (html : jsstring)
    : result jsstring :=
  if truthy (keywords seoData) then
    if includes html (jsq "name='keywords'") then
      v <- escapeQuotes (keywords seoData) ;;
      Ok (replace keywords_re
            (jsq "<meta name='keywords' content='" ++ v ++ jsq "' />") html)
    else
      match indexOf (js "</head>") html with
      | Some headClosingIndex =>
          v <- escapeQuotes (keywords seoData) ;;
          Ok (slice_to headClosingIndex html ++
              (jsq "    <meta name='keywords' content='" ++ v ++
               jsq "' />" ++ [newline]) ++
              slice_from headClosingIndex html)
      | None => Ok html
      end
  else Ok html.

(** 6. Add/replace twitter:title *)
Definition step_twitter_title (seoData : SeoTagSet) (html : jsstring)
    : result jsstring :=
  if includes html (jsq "name='twitter:title'") then
    v <- escapeQuotes (ogTitle seoData) ;;
    Ok (replace twitter_title_re
          (jsq "<meta name='twitter:title' content='" ++ v ++ jsq "' />") html)
  else Ok html.

(** 7. Add/replace twitter:description *)
Definition step_twitter_description (seoData : SeoTagSet) (html : jsstring)
    : result jsstring :=
  if includes html (jsq "name='twitter:description'") then
    v <- escapeQuotes (ogDescription seoData) ;;
    Ok (replace twitter_description_re
          (jsq "<meta name='twitter:description' content='" ++ v ++ jsq "' />")
          html)
  else Ok html.

(** 8. Add/replace og:image *)
Definition step_og_image (seoData : SeoTagSet) (html : jsstring)
    : result jsstring :=
  if includes html (jsq "property='og:image'") then
    v <- escapeQuotes (ogImage seoData) ;;
    Ok (replace og_image_re
          (jsq "<meta property='og:image' content='" ++ v ++ jsq "' />") html)
  else Ok html.

(** 9. Add/replace canonical link *)
Definition step_canonical (seoData : SeoTagSet) (html : jsstring)
    : result jsstring :=
  if includes html (jsq "rel='canonical'") then
    v <- escapeQuotes (canonicalUrl seoData) ;;
    Ok (replace canonical_re
          (jsq "<link rel='canonical' href='" ++ v ++ jsq "' />") html)
  else Ok html.

(** ** The injector *)

(** What the injector does to the outside world, in order. *)
Inductive event : Type :=
| FindOne (slug : jsstring)        (* [Product.findOne({ slug })] *)
| FindById (id : jsstring)         (* [Product.findById(slug)]    *)
| Fetch (url : jsstring)           (* [fetch(url, ...)]           *)
| ConsoleError                     (* [console.error(...)]        *)
| ConsoleWarn.                     (* [console.warn(...)]         *)

(** The body of the [try] block runs over the variable [html] and the trace
    of events.  An exception leaves both as they are when it is thrown: the
    [catch] block reads the variable [html] as the body left it. *)
Record frame : Type := Frame {
  var_html : jsstring;
  trace : list event
}.

Definition M (A : Type) : Type := frame -> result A * frame.

Definition ret {A : Type} (a : A) : M A := fun f => (Ok a, f).

Definition mbind {A B : Type} (m : M A) (k : A -> M B) : M B :=
  fun f =>
    match m f with
    | (Ok a, f') => k a f'
    | (Throw, f') => (Throw, f')
    end.

Notation "x <~ e ;; k" := (mbind e (fun x => k))
  (at level 61, e at next level, right associativity).
Notation "e ;;; k" := (mbind e (fun _ => k))
  (at level 61, right associativity).

(** Reading the variable [html] *)
Definition read_html : M jsstring := fun f => (Ok (var_html f), f).

(** [html = step(html)]: the assignment happens only if the right-hand side
    does not throw. *)
Definition assign_html (step : jsstring -> result jsstring) : M unit :=
  fun f =>
    match step (var_html f) with
    | Ok h => (Ok tt, Frame h (trace f))
    | Throw => (Throw, f)
    end.

(** A call to the outside world: it is recorded, then returns or throws. *)
Definition call {A : Type} (e : event) (r : result A) : M A :=
  fun f => (r, Frame (var_html f) (trace f ++ [e])).

Definition lift {A : Type} (r : result A) : M A := fun f => (r, f).

Section Injector.

(** The collaborators of the injector, which the source imports from
    [../models/Product] and [../utils/seoGenerator]. *)
Variable Product : Type.
Variable findOne : jsstring -> result (option Product).
Variable findById : jsstring -> result (option Product).
Variable generateProductSeoTags : Product -> jsstring -> result SeoTagSet.
Variable createMetaTagsHtml : SeoTagSet -> result jsstring.

(** The block of [try] in [injectMetaTags]; its value is the value returned
    by [return html]. *)
Definition injectMetaTags_try (slug baseUrl : jsstring) : M jsstring :=
  product <~ call (FindOne slug) (findOne slug) ;;
  product <~ match product with
             | Some p => ret (Some p)
             | None => call (FindById slug) (findById slug)
             end ;;
  match product with
  | None => read_html
  | Some product =>
      seoData <~ lift (generateProductSeoTags product baseUrl) ;;
      metaTags <~ lift (createMetaTagsHtml seoData) ;;
      assign_html (step_title seoData) ;;;
      assign_html (step_description seoData) ;;;
      assign_html (step_og_title seoData) ;;;
      assign_html (step_og_description seoData) ;;;
      assign_html (step_keywords seoData) ;;;
      assign_html (step_twitter_title seoData) ;;;
      assign_html (step_twitter_description seoData) ;;;
      assign_html (step_og_image seoData) ;;;
      assign_html (step_canonical seoData) ;;;
      read_html
  end.

(** [injectMetaTags(html, pathname, baseUrl)]: the string the promise
    resolves to, and the events in the order they happened.  The function
    never rejects: both branches of the [try] return. *)
Definition injectMetaTags (html pathname baseUrl : jsstring)
    : jsstring * list event :=
  let slug := extractProductSlug pathname in
  if negb (truthy slug) then (html, [])
  else
    match slug with
    | None => (html, [])
    | Some slug =>
        match injectMetaTags_try slug baseUrl (Frame html []) with
        | (Ok returned, f) => (returned, trace f)
        | (Throw, f) => (var_html f, trace f ++ [ConsoleError])
        end
    end.

End Injector.

Arguments injectMetaTags_try {Product}.
Arguments injectMetaTags {Product}.

(** ** The dev-server plugin *)

(** 5. of [transformIndexHtml]: the same step, written as
    [if (keywords && !includes) { insert } else if (keywords) { replace }]. *)
Definition step_keywords_plugin (seoData : SeoTagSet) (html : jsstring)
    : result jsstring :=
  if truthy (keywords seoData)
     && negb (includes html (jsq "name='keywords'")) then
    match indexOf (js "</head>") html with
    | Some headClosingIndex =>
        v <- escapeQuotes (keywords seoData) ;;
        Ok (slice_to headClosingIndex html ++
            (jsq "    <meta name='keywords' content='" ++ v ++
             jsq "' />" ++ [newline]) ++
            slice_from headClosingIndex html)
    | None => Ok html
    end
  else if truthy (keywords seoData) then
    v <- escapeQuotes (keywords seoData) ;;
    Ok (replace keywords_re
          (jsq "<meta name='keywords' content='" ++ v ++ jsq "' />") html)
  else Ok html.

Section Plugin.

Variable Product : Type.

(** The response of [fetch]: [response.ok], and [(await response.json())]
    read through [json?.data], which throws when the body is not JSON. *)
Record response : Type := Response {
  ok : bool;
  json_data : result (option Product)
}.

(** [fetch] throws on a network failure and when the five seconds of
    [AbortSignal.timeout(5000)] have passed. *)
Variable fetch : jsstring -> result response.
Variable generateProductSeoTags : Product -> jsstring -> result SeoTagSet.

(** The block of [try] in [transformIndexHtml]. *)
Definition transformIndexHtml_try (slug : jsstring) : M unit :=
  let url := js "http://localhost:5055/api/products/" ++ slug in
  response <~ call (Fetch url) (fetch url) ;;
  if ok response then
    data <~ lift (json_data response) ;;
    match data with
    | Some product =>
        let baseUrl := js "http://localhost:8080" in
        seoData <~ lift (generateProductSeoTags product baseUrl) ;;
        assign_html (step_title seoData) ;;;
        assign_html (step_description seoData) ;;;
        assign_html (step_og_title seoData) ;;;
        assign_html (step_og_description seoData) ;;;
        assign_html (step_keywords_plugin seoData)
    | None => ret tt
    end
  else ret tt.

(** [transformIndexHtml(html, ctx)] with [ctx.path = pathname]: every way
    out of the function is [return html].  The block of [catch] reads
    [err.message]: what is caught is taken to be an object, as the errors of
    [fetch], of [response.json()] and of the statements are.  Were [null] or
    [undefined] thrown, reading [err.message] would throw in its turn and
    the promise be rejected. *)
Definition transformIndexHtml (html pathname : jsstring)
    : jsstring * list event :=
  let slug := extractProductSlug pathname in
  if negb (truthy slug) then (html, [])
  else
    match slug with
    | None => (html, [])
    | Some slug =>
        match transformIndexHtml_try slug (Frame html []) with
        | (Ok _, f) => (var_html f, trace f)
        | (Throw, f) => (var_html f, trace f ++ [ConsoleWarn])
        end
    end.

End Plugin.

Arguments Response {Product}.
Arguments ok {Product}.
Arguments json_data {Product}.
Arguments transformIndexHtml_try {Product}.
Arguments transformIndexHtml {Product}.

(** ** The template cache and the middleware *)

(** A call on the response object [res] of Express. *)
Inductive res_call : Type :=
| SetHeader (name value : jsstring)   (* [res.setHeader(name, value)] *)
| Status (code : nat)                 (* [res.status(code)]           *)
| Send (body : jsstring).             (* [res.send(body)]             *)

(** What the middleware does to the outside world, in order. *)
Inductive server_event : Type :=
| ReadFile                  (* [fs.readFileSync(indexPath, 'utf-8')] *)
| LogError                  (* [console.error(...)]                  *)
| Next                      (* [next()]                              *)
| Injector (e : event)      (* an event of [injectMetaTags]          *)
| Res (c : res_call).       (* a call on [res]                       *)

(** [getIndexHtml()], given the outcome that [fs.readFileSync] has at the
    time of the call and the value of the module variable
    [cachedIndexHtml]: the value returned, the value of [cachedIndexHtml]
    afterwards, and the events.  The file is read only when the variable is
    falsy, and the variable is assigned only when the read succeeds. *)
Definition getIndexHtml (readFileSync : result jsstring)
    (cachedIndexHtml : value) : value * value * list server_event :=
  if truthy cachedIndexHtml then (cachedIndexHtml, cachedIndexHtml, [])
  else
    match readFileSync with
    | Ok content => (Some content, Some content, [ReadFile])
    | Throw => (None, cachedIndexHtml, [ReadFile; LogError])
    end.

(** What the middleware reads of the request: [req.path], [req.protocol]
    and [req.get('host')], which is undefined without a [Host] header. *)
Record request : Type := Request {
  path : jsstring;
  protocol : jsstring;
  host : value
}.

(** ToString of a string or [undefined], as [+] applies it. *)
Definition to_string (v : value) : jsstring :=
  match v with
  | Some s => s
  | None => js "undefined"
  end.

(** Calls on [res] one after the other: the first one that throws ends the
    sequence. *)
Fixpoint res_calls (res : res_call -> result unit) (cs : list res_call)
    : result unit * list server_event :=
  match cs with
  | [] => (Ok tt, [])
  | c :: cs' =>
      match res c with
      | Ok _ => let (r, evs) := res_calls res cs' in (r, Res c :: evs)
      | Throw => (Throw, [Res c])
      end
  end.

Section Middleware.

Variable Product : Type.
Variable findOne : jsstring -> result (option Product).
Variable findById : jsstring -> result (option Product).
Variable generateProductSeoTags : Product -> jsstring -> result SeoTagSet.
Variable createMetaTagsHtml : SeoTagSet -> result jsstring.

(** The response object and the callback [next] of Express: each call
    returns or throws. *)
Variable res : res_call -> result unit.
Variable next : result unit.

(** [res.status(500).send('Internal Server Error')] *)
Definition internal_server_error : result unit * list server_event :=
  res_calls res [Status 500; Send (js "Internal Server Error")].

(** [seoMetaInjectionMiddleware(req, res, next)]: whether the promise is
    fulfilled or rejected, the value of [cachedIndexHtml] afterwards, and
    the events in the order they happened. *)
Definition seoMetaInjectionMiddleware (readFileSync : result jsstring)
    (req : request) (cachedIndexHtml : value)
    : result unit * value * list server_event :=
  if startsWith (js "/api") (path req)
     || startsWith (js "/uploads") (path req)
  then (next, cachedIndexHtml, [Next])
  else
    let '(html, cache, read) := getIndexHtml readFileSync cachedIndexHtml in
    if negb (truthy html) then
      let (r, sent) := internal_server_error in (r, cache, read ++ sent)
    else
      match html with
      | None =>
          let (r, sent) := internal_server_error in (r, cache, read ++ sent)
      | Some html =>
          let baseUrl := protocol req ++ js "://" ++ to_string (host req) in
          let (html, calls) :=
            injectMetaTags findOne findById generateProductSeoTags
              createMetaTagsHtml html (path req) baseUrl in
          match res_calls res
                  [SetHeader (js "Content-Type")
                     (js "text/html; charset=UTF-8");
                   SetHeader (js "Cache-Control")
                     (js "public, max-age=0, must-revalidate");
                   Send html] with
          | (Ok _, sent) =>
              (Ok tt, cache, read ++ map Injector calls ++ sent)
          | (Throw, sent) =>
              let (r, sent') := internal_server_error in
              (r, cache,
               read ++ map Injector calls ++ sent ++ [LogError] ++ sent')
          end
      end.

End Middleware.

Arguments seoMetaInjectionMiddleware {Product}.

(** ** The earlier injectors *)

(** [s.replace(p, template)] for a string [p]: the first occurrence of [p],
    if any, is replaced, and the replacement patterns of [template] are
    expanded as for a regular expression without groups. *)
Definition replace_string (p template s : jsstring) : jsstring :=
  match indexOf p s with
  | None => s
  | Some pos =>
      let before := slice_to pos s in
      let after := slice_from (pos + length p) s in
      before ++ getSubstitution template before p after ++ after
  end.

Section EarlierInjectors.

Variable Product : Type.
Variable findOne : jsstring -> result (option Product).
Variable findById : jsstring -> result (option Product).
Variable generateProductSeoTags : Product -> jsstring -> result SeoTagSet.
Variable createMetaTagsHtml : SeoTagSet -> result jsstring.

(** The block of [try] in the [injectMetaTags] of five numbered statements
    (the second module of seoMetaInjection.js): the statements 1 to 5, the
    keywords statement written as in the plugin. *)
Definition injectMetaTags_five_try (slug baseUrl : jsstring) : M jsstring :=
  product <~ call (FindOne slug) (findOne slug) ;;
  product <~ match product with
             | Some p => ret (Some p)
             | None => call (FindById slug) (findById slug)
             end ;;
  match product with
  | None => read_html
  | Some product =>
      seoData <~ lift (generateProductSeoTags product baseUrl) ;;
      metaTags <~ lift (createMetaTagsHtml seoData) ;;
      assign_html (step_title seoData) ;;;
      assign_html (step_description seoData) ;;;
      assign_html (step_og_title seoData) ;;;
      assign_html (step_og_description seoData) ;;;
      assign_html (step_keywords_plugin seoData) ;;;
      read_html
  end.

Definition injectMetaTags_five (html pathname baseUrl : jsstring)
    : jsstring * list event :=
  let slug := extractProductSlug pathname in
  if negb (truthy slug) then (html, [])
  else
    match slug with
    | None => (html, [])
    | Some slug =>
        match injectMetaTags_five_try slug baseUrl (Frame html []) with
        | (Ok returned, f) => (returned, trace f)
        | (Throw, f) => (var_html f, trace f ++ [ConsoleError])
        end
    end.

(** The block of [try] in the [injectMetaTags] of part_002, which inserts
    the rendered tags before [</head>] and assigns nothing to [html]. *)
Definition injectMetaTags_block_try (slug baseUrl : jsstring) : M jsstring :=
  product <~ call (FindOne slug) (findOne slug) ;;
  product <~ match product with
             | Some p => ret (Some p)
             | None => call (FindById slug) (findById slug)
             end ;;
  match product with
  | None => read_html
  | Some product =>
      seoData <~ lift (generateProductSeoTags product baseUrl) ;;
      metaTags <~ lift (createMetaTagsHtml seoData) ;;
      html <~ read_html ;;
      let headClosingTag := js "</head>" in
      match indexOf headClosingTag html with
      | Some headClosingIndex =>
          ret (slice_to headClosingIndex html ++
               metaTags ++
               slice_from headClosingIndex html)
      | None => ret html
      end
  end.

Definition injectMetaTags_block (html pathname baseUrl : jsstring)
    : jsstring * list event :=
  let slug := extractProductSlug pathname in
  if negb (truthy slug) then (html, [])
  else
    match slug with
    | None => (html, [])
    | Some slug =>
        match injectMetaTags_block_try slug baseUrl (Frame html []) with
        | (Ok returned, f) => (returned, trace f)
        | (Throw, f) => (var_html f, trace f ++ [ConsoleError])
        end
    end.

Variable fetch : jsstring -> result (response Product).

(** The block of [try] in the second [transformIndexHtml] of part_000,
    which asks with [fetch] and inserts the rendered tags: [Some] is the
    value of the [return] inside the block, [None] the way out to the
    [return html] that follows it.  As in the first plugin, what the block
    of [catch] catches is taken to be an object. *)
Definition transformIndexHtml_block_try (slug : jsstring)
    : M (option jsstring) :=
  let url := js "http://localhost:5055/api/products/" ++ slug in
  response <~ call (Fetch url) (fetch url) ;;
  if ok response then
    data <~ lift (json_data response) ;;
    match data with
    | Some product =>
        let baseUrl := js "http://localhost:8080" in
        seoData <~ lift (generateProductSeoTags product baseUrl) ;;
        metaTags <~ lift (createMetaTagsHtml seoData) ;;
        html <~ read_html ;;
        ret (Some (replace_string (js "</head>") (metaTags ++ js "</head>")
                     html))
    | None => ret None
    end
  else ret None.

Definition transformIndexHtml_block (html pathname : jsstring)
    : jsstring * list event :=
  let slug := extractProductSlug pathname in
  if negb (truthy slug) then (html, [])
  else
    match slug with
    | None => (html, [])
    | Some slug =>
        match transformIndexHtml_block_try slug (Frame html []) with
        | (Ok (Some returned), f) => (returned, trace f)
        | (Ok None, f) => (var_html f, trace f)
        | (Throw, f) => (var_html f, trace f ++ [ConsoleWarn])
        end
    end.

End EarlierInjectors.

Arguments injectMetaTags_five_try {Product}.
Arguments injectMetaTags_five {Product}.
Arguments injectMetaTags_block_try {Product}.
Arguments injectMetaTags_block {Product}.
Arguments transformIndexHtml_block_try {Product}.
Arguments transformIndexHtml_block {Product}.

(** ** The plugin of part_001 *)

(** What a [throw] raises, as far as a block of [catch] that reads
    [err.message] can tell: a value of which a property can be read (an
    [Error], as a rule), or [null] or [undefined], of which none can. *)
Inductive thrown : Type :=
| Value
| Nullish.

(** The outcome of a call, with what it throws. *)
Inductive completion (A : Type) : Type :=
| Normal (a : A)
| Abrupt (err : thrown).
Arguments Normal {A} a.
Arguments Abrupt {A} err.

Section AxiosPlugin.

Variable Product : Type.
Variable generateProductSeoTags : Product -> jsstring -> completion SeoTagSet.
Variable createMetaTagsHtml : SeoTagSet -> completion jsstring.

(** [axios.get(url, { timeout: 5000 })] then [response.data?.data]: the
    call throws on a network failure, on a time-out and on a status that is
    not a success, and what it throws is an [Error]; [None] is a
    falsy [response.data?.data]. *)
Variable axios_get : jsstring -> result (option Product).

(** The block of [catch] and the [return html] after it, for what was
    caught and the events so far.  [console.warn] is called with
    [err.message]: for [null] and [undefined] reading it throws before
    anything is printed, the error leaves the function and the promise is
    rejected. *)
Definition axios_caught (err : thrown) (html : jsstring) (tr : list event)
    : result jsstring * list event :=
  match err with
  | Value => (Ok html, tr ++ [ConsoleWarn])
  | Nullish => (Throw, tr)
  end.

(** [transformIndexHtml(html, ctx)] of part_001 with [ctx.path = pathname]:
    the string the promise is fulfilled with, or its rejection, and the
    events.  Nothing is assigned to [html]. *)
Definition transformIndexHtml_axios (html pathname : jsstring)
    : result jsstring * list event :=
  let slug := extractProductSlug pathname in
  if negb (truthy slug) then (Ok html, [])
  else
    match slug with
    | None => (Ok html, [])
    | Some slug =>
        let url := js "http://localhost:5055/api/products/" ++ slug in
        match axios_get url with
        | Throw => axios_caught Value html [Fetch url]
        | Ok None => (Ok html, [Fetch url])
        | Ok (Some product) =>
            let baseUrl := js "http://localhost:8080" in
            match generateProductSeoTags product baseUrl with
            | Abrupt err => axios_caught err html [Fetch url]
            | Normal seoData =>
                match createMetaTagsHtml seoData with
                | Abrupt err => axios_caught err html [Fetch url]
                | Normal metaTags =>
                    (Ok (replace_string (js "</head>")
                           (metaTags ++ js "</head>") html),
                     [Fetch url])
                end
            end
        end
    end.

End AxiosPlugin.

Arguments transformIndexHtml_axios {Product}.

(** * Definitions for the statements and the proofs *)

(** [occurs_at p s i]: [p] occurs in [s] at index [i]. *)
Definition occurs_at (p s : jsstring) (i : nat) : Prop :=
  exists pre post, s = pre ++ p ++ post /\ length pre = i.

(** [first_match re s pre m post]: the leftmost index of [s] at which [re]
    matches is [length pre], and the text matched there is [m]. *)
Definition first_match (re : regexp) (s pre m post : jsstring) : Prop :=
  s = pre ++ m ++ post /\
  (exists g, match_at re (length pre) (m ++ post) = Some (m, g)) /\
  forall pre' suf', s = pre' ++ suf' -> length pre' < length pre ->
    match_at re (length pre') suf' = None.

(** [no_match re s]: [re] matches at no index of [s]. *)
Definition no_match (re : regexp) (s : jsstring) : Prop :=
  forall pre suf, s = pre ++ suf -> match_at re (length pre) suf = None.

Inductive item : Type :=
| IOne (ok : code_unit -> bool)
| IStar (ok : code_unit -> bool)
| IOpt (ok : code_unit -> bool).

(** The items that remain after reading [x], if [x] can be read. *)
Fixpoint feed (its : list item) (x : code_unit) : option (list item) :=
  match its with
  | [] => None
  | IOne ok :: r => if ok x then Some r else None
  | IStar ok :: r => if ok x then Some (IStar ok :: r) else feed r x
  | IOpt ok :: r => if ok x then Some r else feed r x
  end.

(** The number of code units read until no item remains. *)
Fixpoint run (its : list item) (s : jsstring) {struct s} : option nat :=
  match its with
  | [] => Some 0
  | _ :: _ =>
      match s with
      | [] => None
      | x :: s' =>
          match feed its x with
          | Some its' => option_map S (run its' s')
          | None => None
          end
      end
  end.

Fixpoint nullable (its : list item) : bool :=
  match its with
  | [] => true
  | IOne _ :: _ => false
  | (IStar _ | IOpt _) :: r => nullable r
  end.

Fixpoint guarded (its : list item) : Prop :=
  match its with
  | [] => True
  | IOne _ :: r => guarded r
  | (IStar ok | IOpt ok) :: r =>
      (forall x, ok x = true -> feed r x = None) /\ nullable r = false /\
      guarded r
  end.

Definition atom_pred (ic : bool) (a : regex) : option (code_unit -> bool) :=
  match a with
  | RChar c => Some (char_matches ic c)
  | RClass neg cs => Some (class_matches ic neg cs)
  | RSpace => Some is_space
  | _ => None
  end.

Fixpoint linearize (ic : bool) (r : regex) : option (list item) :=
  match r with
  | REmpty => Some []
  | RChar _ | RClass _ _ | RSpace =>
      option_map (fun ok => [IOne ok]) (atom_pred ic r)
  | RSeq a b =>
      match linearize ic a, linearize ic b with
      | Some ia, Some ib => Some (ia ++ ib)
      | _, _ => None
      end
  | RStar a => option_map (fun ok => [IStar ok]) (atom_pred ic a)
  | RPlus a => option_map (fun ok => [IOne ok; IStar ok]) (atom_pred ic a)
  | ROpt a => option_map (fun ok => [IOpt ok]) (atom_pred ic a)
  | RBol | RGroup _ => None
  end.

(** The scanner for [its], followed by the continuation [K]. *)
Definition crun (its : list item) (K : continuation) : continuation :=
  fun st =>
    match run its (rest st) with
    | Some n => K (MState (pos st + n) (skipn n (rest st)) (caps st))
    | None => None
    end.

Definition items_of (re : regexp) : list item :=
  match linearize (ignoreCase re) (pattern re) with
  | Some its => its
  | None => []
  end.

(** [linear re]: [re] is a guarded linear pattern without groups. *)
Definition linear (re : regexp) : Prop :=
  linearize (ignoreCase re) (pattern re) = Some (items_of re) /\
  guarded (items_of re).

Fixpoint take_while (ok : code_unit -> bool) (s : jsstring) : jsstring :=
  match s with
  | x :: s' => if ok x then x :: take_while ok s' else []
  | [] => []
  end.

Fixpoint drop_while (ok : code_unit -> bool) (s : jsstring) : jsstring :=
  match s with
  | x :: s' => if ok x then drop_while ok s' else s
  | [] => []
  end.

Definition slash : code_unit := 47%N.
Definition question : code_unit := 63%N.

(** A code unit that may belong to a slug: any but [/] and [?]. *)
Definition slug_char (c : code_unit) : bool :=
  negb (N.eqb c slash) && negb (N.eqb c question).

(** What the extractor computes, without the regular expression. *)
Definition slug_of (pathname : jsstring) : value :=
  if startsWith (js "/products/") pathname then
    match take_while slug_char (skipn 10 pathname) with
    | [] => None
    | slug => Some slug
    end
  else None.

(** [product_path p]: [p] has the shape [/products/<id>], that is, it starts
    with [/products/] followed by a code unit other than [/] and [?]. *)
Definition product_path (p : jsstring) : Prop :=
  exists c r, p = js "/products/" ++ c :: r /\ slug_char c = true.

(** The escaping as the specification words it: every double quote is
    substituted with [&quot;]. *)
Definition escape (s : jsstring) : jsstring :=
  flat_map (fun c => if N.eqb c dq then js "&quot;" else [c]) s.

Definition not_dq (c : code_unit) : bool := negb (N.eqb c dq).

(** The product that the two lookups resolve to. *)
Definition lookup {Product : Type}
    (findOne findById : jsstring -> result (option Product))
    (slug : jsstring) : result (option Product) :=
  match findOne slug with
  | Ok None => findById slug
  | r => r
  end.

(** The lookups that are made for a slug. *)
Definition lookup_events {Product : Type}
    (findOne : jsstring -> result (option Product)) (slug : jsstring)
    : list event :=
  match findOne slug with
  | Ok None => [FindOne slug; FindById slug]
  | _ => [FindOne slug]
  end.

(** The nine numbered statements, in the order of the source. *)
Definition pipeline (seoData : SeoTagSet)
    : list (jsstring -> result jsstring) :=
  [ step_title seoData; step_description seoData; step_og_title seoData;
    step_og_description seoData; step_keywords seoData;
    step_twitter_title seoData; step_twitter_description seoData;
    step_og_image seoData; step_canonical seoData ].

(** Running statements one after the other on the variable [html]: whether
    all of them completed, and the value of the variable at the end or when
    one of them threw. *)
Fixpoint exec_steps (steps : list (jsstring -> result jsstring))
    (html : jsstring) : bool * jsstring :=
  match steps with
  | [] => (true, html)
  | step :: steps' =>
      match step html with
      | Ok html' => exec_steps steps' html'
      | Throw => (false, html)
      end
  end.

(** What the scanner has come to after a piece of input. *)
Inductive outcome : Type :=
| Dead
| Accept (n : nat)
| Live (its : list item).

Definition advance (o : outcome) : outcome :=
  match o with
  | Accept n => Accept (S n)
  | _ => o
  end.

Fixpoint feeds (its : list item) (u : jsstring) {struct u} : outcome :=
  match its with
  | [] => Accept 0
  | _ :: _ =>
      match u with
      | [] => Live its
      | x :: u' =>
          match feed its x with
          | Some its' => advance (feeds its' u')
          | None => Dead
          end
      end
  end.

(** The states of the scanner: the item list and its suffixes. *)
Fixpoint tails (its : list item) : list (list item) :=
  its :: match its with
         | [] => []
         | _ :: r => tails r
         end.

Definition is_dead (o : outcome) : bool :=
  match o with Dead => true | _ => false end.

(** [blocks its p]: no state of [its] other than the final one survives the
    piece of input [p]. *)
Definition blocks (its : list item) (p : jsstring) : bool :=
  forallb (fun q => match q with
                    | [] => true
                    | _ :: _ => is_dead (feeds q p)
                    end) (tails its).

(** A literal piece of a pattern with the flag [i]. *)
Definition literal (ic : bool) (l : jsstring) : list item :=
  map (fun c => IOne (char_matches ic c)) l.

(** [same_letters ic l e]: [e] is [l], up to the case of the ASCII letters
    when [ic] is set. *)
Definition same_letters (ic : bool) (l e : jsstring) : Prop :=
  Forall2 (fun a b => char_matches ic a b = true) l e.

Definition lt_sign : code_unit := 60%N.
Definition gt_sign : code_unit := 62%N.

Definition spaces (w : jsstring) : Prop :=
  Forall (fun c => is_space c = true) w.

(** [tag_shape elem a1 a2 m]: [m] is, up to the case of letters, [elem],
    white space, [a1], white space, [a2], a value without double quote, a
    double quote, optional white space, an optional slash, and [>]. *)
Definition tag_shape (elem a1 a2 m : jsstring) : Prop :=
  exists e w1 n w2 k v w3 sl,
    m = e ++ w1 ++ n ++ w2 ++ k ++ v ++ [dq] ++ w3 ++ sl ++ [gt_sign] /\
    same_letters true elem e /\
    spaces w1 /\ w1 <> [] /\
    same_letters true a1 n /\
    spaces w2 /\ w2 <> [] /\
    same_letters true a2 k /\
    ~ In dq v /\
    spaces w3 /\
    (sl = [] \/ sl = [slash]).

(** The items of a tag pattern. *)
Definition tag_items (elem a1 a2 : jsstring) : list item :=
  literal true elem ++ [IOne is_space; IStar is_space] ++
  literal true a1 ++ [IOne is_space; IStar is_space] ++
  literal true a2 ++
  [IStar (class_matches true true [dq]); IOne (char_matches true dq);
   IStar is_space; IOpt (char_matches true slash);
   IOne (char_matches true gt_sign)].

(** [first_occurrence P s pre m post]: [m] is a piece of [s] with the shape
    [P], and no piece of [s] with that shape starts further left. *)
Definition first_occurrence (P : jsstring -> Prop) (s pre m post : jsstring)
    : Prop :=
  s = pre ++ m ++ post /\ P m /\
  forall pre' m' post', s = pre' ++ m' ++ post' -> P m' ->
    length pre <= length pre'.

(** [absent P s]: no piece of [s] has the shape [P]. *)
Definition absent (P : jsstring -> Prop) (s : jsstring) : Prop :=
  forall pre m post, s = pre ++ m ++ post -> ~ P m.

(** [matches_shape re P]: the texts that [re] matches are those of shape
    [P], wherever the attempt is made. *)
Definition matches_shape (re : regexp) (P : jsstring -> Prop) : Prop :=
  forall i s m g,
    match_at re i s = Some (m, g) <->
    g = [] /\ P m /\ exists post, s = m ++ post.

(** [<title>], a text without [<], [</title>]. *)
Definition title_shape (m : jsstring) : Prop :=
  exists c, m = js "<title>" ++ c ++ js "</title>" /\ ~ In lt_sign c.

Definition description_shape : jsstring -> Prop :=
  tag_shape (js "<meta") (jsq "name='description'") (jsq "content='").
Definition og_title_shape : jsstring -> Prop :=
  tag_shape (js "<meta") (jsq "property='og:title'") (jsq "content='").
Definition og_description_shape : jsstring -> Prop :=
  tag_shape (js "<meta") (jsq "property='og:description'") (jsq "content='").
Definition keywords_shape : jsstring -> Prop :=
  tag_shape (js "<meta") (jsq "name='keywords'") (jsq "content='").
Definition twitter_title_shape : jsstring -> Prop :=
  tag_shape (js "<meta") (jsq "name='twitter:title'") (jsq "content='").
Definition twitter_description_shape : jsstring -> Prop :=
  tag_shape (js "<meta") (jsq "name='twitter:description'") (jsq "content='").
Definition og_image_shape : jsstring -> Prop :=
  tag_shape (js "<meta") (jsq "property='og:image'") (jsq "content='").
Definition canonical_shape : jsstring -> Prop :=
  tag_shape (js "<link") (jsq "rel='canonical'") (jsq "href='").

(** [replaces_first step P template]: [step] replaces the first piece of
    shape [P] by the expansion of [template], and leaves alone a document
    without such a piece. *)
Definition replaces_first (step : jsstring -> result jsstring)
    (P : jsstring -> Prop) (template : jsstring) : Prop :=
  forall html,
    (absent P html -> step html = Ok html) /\
    (forall pre m post, first_occurrence P html pre m post ->
       step html =
       Ok (pre ++ getSubstitution template pre m post ++ post)).


(** A tag-set for the examples: every field is a short string. *)
Definition sample_tags : SeoTagSet :=
  {| title := Some (js "Blue Mug | uni10");
     description := Some (js "A blue mug");
     ogTitle := Some (js "Blue Mug");
     ogDescription := Some (js "A blue mug");
     ogImage := Some (js "https://uni10.in/mug.png");
     keywords := Some (js "mug, blue");
     canonicalUrl := Some (js "https://uni10.in/products/blue-mug") |}.

(** [settles step]: applying [step] to a result of [step] changes nothing. *)
Definition settles (step : jsstring -> result jsstring) : Prop :=
  forall html html', step html = Ok html' -> step html' = Ok html'.


(** A tag-set with the six fields that the steps read without a test. *)
Definition complete (sd : SeoTagSet) : Prop :=
  title sd <> None /\ description sd <> None /\ ogTitle sd <> None /\
  ogDescription sd <> None /\ ogImage sd <> None /\ canonicalUrl sd <> None.

(** A tag-set without description: only the title is there. *)
Definition title_only_tags : SeoTagSet :=
  {| title := Some (js "Blue Mug | uni10");
     description := None; ogTitle := None; ogDescription := None;
     ogImage := None; keywords := None; canonicalUrl := None |}.

(** Collaborators for the examples: every lookup by slug finds the one
    product, and its tag-set is the one given. *)
Definition found : jsstring -> result (option unit) := fun _ => Ok (Some tt).
Definition not_found : jsstring -> result (option unit) := fun _ => Ok None.
Definition generates (sd : SeoTagSet) : unit -> jsstring -> result SeoTagSet :=
  fun _ _ => Ok sd.
Definition renders : SeoTagSet -> result jsstring := fun _ => Ok [].

(** The injector on the page of the blue mug. *)
Definition sample_inject (sd : SeoTagSet) (html : jsstring)
    : jsstring * list event :=
  injectMetaTags found not_found (generates sd) renders
    html (js "/products/blue-mug") (js "https://uni10.in").

Definition shell : jsstring :=
  jsq "<head><title>uni10</title>" ++
  jsq "<meta name='description' content='old'></head>".

(** The document of the counterexample to C5: the text of the description
    tag contains a title element, and comes before the title of the page. *)
Definition nested_title_document : jsstring :=
  jsq "<head><meta name='description' content='<title>a</title>'>" ++
  jsq "<title>uni10</title><meta name='keywords' content='k'></head>".

(** A document whose keywords tag is written in capital letters. *)
Definition capital_keywords_document : jsstring :=
  jsq "<head><META NAME='keywords' CONTENT='k'></head>".

(** A tag-set whose title contains the replacement pattern [$&]. *)
Definition dollar_tags : SeoTagSet :=
  {| title := Some (js "Save $& more");
     description := Some (js "A blue mug");
     ogTitle := Some (js "Blue Mug");
     ogDescription := Some (js "A blue mug");
     ogImage := Some (js "https://uni10.in/mug.png");
     keywords := Some (js "mug, blue");
     canonicalUrl := Some (js "https://uni10.in/products/blue-mug") |}.

(** ** The injector applied twice *)

(** [odd_quotes s]: the number of double quotes in [s] is odd. *)
Fixpoint odd_quotes (s : jsstring) : bool :=
  match s with
  | [] => false
  | c :: s' => xorb (N.eqb c dq) (odd_quotes s')
  end.

(** [outside q s]: no [<] of [s] stands between two double quotes, where
    [q] tells whether [s] begins between double quotes. *)
Fixpoint outside (q : bool) (s : jsstring) : bool :=
  match s with
  | [] => true
  | c :: s' =>
      if N.eqb c dq then outside (negb q) s'
      else if N.eqb c lt_sign then negb q && outside q s'
      else outside q s'
  end.

(** A document in which every [<] is preceded by an even number of double
    quotes: no [<] stands inside a quoted attribute value. *)
Definition well_quoted (s : jsstring) : Prop := outside false s = true.

(** A piece of text that begins with [<] but not with [</t]. *)
Definition head_ok (p : jsstring) : Prop :=
  exists c1 c2 t, p = lt_sign :: c1 :: c2 :: t /\ (c1 <> slash \/ c2 <> 116%N).

(** Every further [<] of the piece begins [</t]. *)
Definition inner_ok (p : jsstring) : Prop :=
  forall u w, tl p = u ++ lt_sign :: w -> exists w', w = slash :: 116%N :: w'.

(** [avoids P pre m post]: in [pre ++ m ++ post], every piece of shape [P]
    lies in [pre] or in [post]. *)
Definition avoids (P : jsstring -> Prop) (pre m post : jsstring) : Prop :=
  forall a p b, P p -> a ++ p ++ b = pre ++ m ++ post ->
    (exists b0, pre = a ++ p ++ b0 /\ b = b0 ++ m ++ post) \/
    (exists a0, post = a0 ++ p ++ b /\ a = pre ++ m ++ a0).

(** The tags that the injector rewrites, in the order of its steps. *)
Inductive kind : Type :=
| Title | Description | OgTitle | OgDescription | Keywords
| TwitterTitle | TwitterDescription | OgImage | Canonical.

Definition shape (k : kind) : jsstring -> Prop :=
  match k with
  | Title => title_shape
  | Description => description_shape
  | OgTitle => og_title_shape
  | OgDescription => og_description_shape
  | Keywords => keywords_shape
  | TwitterTitle => twitter_title_shape
  | TwitterDescription => twitter_description_shape
  | OgImage => og_image_shape
  | Canonical => canonical_shape
  end.

(** The element, the first attribute and the beginning of the second
    attribute of a tag other than the title. *)
Definition tag_parts (k : kind) : option (jsstring * jsstring * jsstring) :=
  match k with
  | Title => None
  | Description =>
      Some (js "<meta", jsq "name='description'", jsq "content='")
  | OgTitle => Some (js "<meta", jsq "property='og:title'", jsq "content='")
  | OgDescription =>
      Some (js "<meta", jsq "property='og:description'", jsq "content='")
  | Keywords => Some (js "<meta", jsq "name='keywords'", jsq "content='")
  | TwitterTitle =>
      Some (js "<meta", jsq "name='twitter:title'", jsq "content='")
  | TwitterDescription =>
      Some (js "<meta", jsq "name='twitter:description'", jsq "content='")
  | OgImage => Some (js "<meta", jsq "property='og:image'", jsq "content='")
  | Canonical => Some (js "<link", jsq "rel='canonical'", jsq "href='")
  end.

(** [agree l l']: [l] and [l'] are the same, up to the case of letters, as
    far as the shorter one goes. *)
Fixpoint agree (l l' : jsstring) : bool :=
  match l, l' with
  | a :: r, a' :: r' => char_matches true a a' && agree r r'
  | _, _ => true
  end.

(** How two kinds of tags begin: the same way only if they are the same
    kind. *)
Definition compatible (k k' : kind) : bool :=
  match tag_parts k, tag_parts k' with
  | Some (e, a, _), Some (e', a', _) => agree e e' && agree a a'
  | None, Some (e', _, _) => agree (js "<title>") e'
  | Some (e, _, _), None => agree e (js "<title>")
  | None, None => true
  end.

(** What the proofs need to know of the three parts of a tag pattern. *)
Definition tag_wf (e a c : jsstring) : Prop :=
  length e = 5 /\
  (exists e1 e2 et, e = lt_sign :: e1 :: e2 :: et /\ e1 <> slash /\
                    ~ In lt_sign (e1 :: e2 :: et)) /\
  ~ In lt_sign a /\ ~ In lt_sign c /\
  odd_quotes (e ++ a ++ c) = true /\
  (exists c1 r1, a = c1 :: r1 /\ is_space (canonicalize true c1) = false).

(** A piece of text that begins with [<], not followed by a slash. *)
Definition opens (p : jsstring) : Prop :=
  exists c1 c2 t, p = lt_sign :: c1 :: c2 :: t /\ c1 <> slash.

Definition head_closing : jsstring := js "</head>".

Definition kinds : list kind :=
  [Title; Description; OgTitle; OgDescription; Keywords;
   TwitterTitle; TwitterDescription; OgImage; Canonical].

Definition re_of (k : kind) : regexp :=
  match k with
  | Title => title_re
  | Description => description_re
  | OgTitle => og_title_re
  | OgDescription => og_description_re
  | Keywords => keywords_re
  | TwitterTitle => twitter_title_re
  | TwitterDescription => twitter_description_re
  | OgImage => og_image_re
  | Canonical => canonical_re
  end.

(** The text that the step of a kind looks for with [includes]. *)
Definition attr_text (k : kind) : option jsstring :=
  match k with
  | Title | Description => None
  | OgTitle => Some (jsq "property='og:title'")
  | OgDescription => Some (jsq "property='og:description'")
  | Keywords => Some (jsq "name='keywords'")
  | TwitterTitle => Some (jsq "name='twitter:title'")
  | TwitterDescription => Some (jsq "name='twitter:description'")
  | OgImage => Some (jsq "property='og:image'")
  | Canonical => Some (jsq "rel='canonical'")
  end.

(** The field of the tag-set that the step of a kind writes. *)
Definition field (k : kind) (sd : SeoTagSet) : value :=
  match k with
  | Title => title sd
  | Description => description sd
  | OgTitle | TwitterTitle => ogTitle sd
  | OgDescription | TwitterDescription => ogDescription sd
  | Keywords => keywords sd
  | OgImage => ogImage sd
  | Canonical => canonicalUrl sd
  end.

Definition step_of (sd : SeoTagSet) (k : kind) : jsstring -> result jsstring :=
  match k with
  | Title => step_title sd
  | Description => step_description sd
  | OgTitle => step_og_title sd
  | OgDescription => step_og_description sd
  | Keywords => step_keywords sd
  | TwitterTitle => step_twitter_title sd
  | TwitterDescription => step_twitter_description sd
  | OgImage => step_og_image sd
  | Canonical => step_canonical sd
  end.

Definition tag_start (k : kind) : jsstring :=
  match k with
  | Title => js "<title>"
  | Description => jsq "<meta name='description' content='"
  | OgTitle => jsq "<meta property='og:title' content='"
  | OgDescription => jsq "<meta property='og:description' content='"
  | Keywords => jsq "<meta name='keywords' content='"
  | TwitterTitle => jsq "<meta name='twitter:title' content='"
  | TwitterDescription => jsq "<meta name='twitter:description' content='"
  | OgImage => jsq "<meta property='og:image' content='"
  | Canonical => jsq "<link rel='canonical' href='"
  end.

Definition tag_end (k : kind) : jsstring :=
  match k with
  | Title => js "</title>"
  | _ => jsq "' />"
  end.

(** The tag that the step of kind [k] writes for the value [v]. *)
Definition written (k : kind) (v : jsstring) : jsstring :=
  tag_start k ++ escape v ++ tag_end k.

(** [spelled x k]: the first tag of kind [k] in [x], if there is one,
    contains the attribute as the step of [k] tests for it. *)
Definition spelled (x : jsstring) (k : kind) : Prop :=
  forall a pre m post, attr_text k = Some a ->
    first_occurrence (shape k) x pre m post -> includes m a = true.

(** [carried k x x']: the first tag of kind [k] in [x'] is the first one
    in [x]. *)
Definition carried (k : kind) (x x' : jsstring) : Prop :=
  forall pre p post, first_occurrence (shape k) x' pre p post ->
    exists pre0 post0, first_occurrence (shape k) x pre0 p post0.

(** [first_is k W x]: the first tag of kind [k] in [x], if there is one,
    is [W]. *)
Definition first_is (k : kind) (W x : jsstring) : Prop :=
  forall pre m post, first_occurrence (shape k) x pre m post -> m = W.

(** [settled x]: the keywords step has nothing to insert into [x]. *)
Definition settled (x : jsstring) : Prop :=
  absent (shape Keywords) x ->
  includes x (jsq "name='keywords'") = true \/ indexOf head_closing x = None.

(** [unseen k x]: the step of kind [k] does not find its attribute in
    [x]. *)
Definition unseen (k : kind) (x : jsstring) : Prop :=
  k <> Keywords /\ exists a, attr_text k = Some a /\ includes x a = false.

(** What the step of kind [k], writing [W], does to the document. *)
Definition effect (k : kind) (W x x' : jsstring) : Prop :=
  well_quoted x' /\ (first_is k W x' \/ unseen k x') /\
  (forall k', k' <> k -> carried k' x x') /\
  (k = Keywords -> settled x') /\
  (k <> Title -> k <> Keywords -> settled x -> settled x') /\
  (k <> Title -> forall k', k' <> k -> unseen k' x -> unseen k' x').

(** The values of a tag-set contain neither [$] nor [<]. *)
Definition plain_values (sd : SeoTagSet) : Prop :=
  forall k v, field k sd = Some v -> ~ In dollar v /\ ~ In lt_sign v.

(** The keywords step has a value to write. *)
Definition active (sd : SeoTagSet) : Prop :=
  exists v, keywords sd = Some v /\ v <> [].

(** What holds of the document when the steps of the kinds [done] have
    run. *)
Definition invariant (sd : SeoTagSet) (done : list kind) (x : jsstring)
    : Prop :=
  well_quoted x /\
  (~ In Keywords done -> spelled x Keywords) /\
  (forall k v, In k done -> field k sd = Some v ->
     (k = Keywords -> v <> []) -> first_is k (written k v) x \/ unseen k x) /\
  (In Keywords done -> active sd -> settled x).

(** [spelled], decided by a run of [exec]. *)
Definition spelledb (x : jsstring) (k : kind) : bool :=
  match attr_text k, exec (re_of k) x with
  | Some a, Some r => includes (matched r) a
  | _, _ => true
  end.

(** ** The middleware and the earlier injectors *)

(** The requests that the middleware hands to [next]. *)
Definition passed_on (req : request) : bool :=
  startsWith (js "/api") (path req) || startsWith (js "/uploads") (path req).

(** A response object none of whose methods throws. *)
Definition sound (res : res_call -> result unit) : Prop :=
  forall c, res c = Ok tt.

(** A middleware serving the requests one after the other, each with the
    outcome that reading the file has when it arrives: the answers, and the
    value of [cachedIndexHtml] at the end. *)
Fixpoint serve
    (middleware : result jsstring -> request -> value ->
                  result unit * value * list server_event)
    (arrivals : list (result jsstring * request)) (cachedIndexHtml : value)
    : list (result unit * list server_event) * value :=
  match arrivals with
  | [] => ([], cachedIndexHtml)
  | (readFileSync, req) :: rest =>
      let '(r, cache, evs) := middleware readFileSync req cachedIndexHtml in
      let (answers, final) := serve middleware rest cache in
      ((r, evs) :: answers, final)
  end.

(** The headers and the body of a page that is served. *)
Definition page_sent (body : jsstring) : list server_event :=
  [Res (SetHeader (js "Content-Type") (js "text/html; charset=UTF-8"));
   Res (SetHeader (js "Cache-Control")
          (js "public, max-age=0, must-revalidate"));
   Res (Send body)].

(** The base URL that the middleware makes of a request. *)
Definition base_url (req : request) : jsstring :=
  protocol req ++ js "://" ++ to_string (host req).

(** The five numbered statements of the plugin and of the earlier
    injector, in the order of the source. *)
Definition five (seoData : SeoTagSet) : list (jsstring -> result jsstring) :=
  [ step_title seoData; step_description seoData; step_og_title seoData;
    step_og_description seoData; step_keywords_plugin seoData ].

(** The statements 6 to 9, which the injector has and the plugin has
    not. *)
Definition later (seoData : SeoTagSet) : list (jsstring -> result jsstring) :=
  [ step_twitter_title seoData; step_twitter_description seoData;
    step_og_image seoData; step_canonical seoData ].

Definition five_kinds : list kind :=
  [Title; Description; OgTitle; OgDescription; Keywords].

(** The address at which the plugins ask the backend for a product. *)
Definition product_url (slug : jsstring) : jsstring :=
  js "http://localhost:5055/api/products/" ++ slug.

(** Samples: a response object none of whose methods throws, three
    requests, a renderer and a backend that knows the one product. *)
Definition all_sound : res_call -> result unit := fun _ => Ok tt.

(** A response object whose [send] throws for every body but that of the
    answer of the error. *)
Definition send_fails : res_call -> result unit :=
  fun c =>
    match c with
    | Send body =>
        if list_eq_dec N.eq_dec body (js "Internal Server Error") then Ok tt
        else Throw
    | _ => Ok tt
    end.

Definition product_request : request :=
  Request (js "/products/blue-mug") (js "https") (Some (js "uni10.in")).
Definition about_request : request :=
  Request (js "/about") (js "https") (Some (js "uni10.in")).
Definition api_request : request :=
  Request (js "/api/products") (js "https") (Some (js "uni10.in")).

Definition rendered_tags : jsstring :=
  jsq "<meta property='og:type' content='product' />".
Definition renders_tags : SeoTagSet -> result jsstring :=
  fun _ => Ok rendered_tags.

Definition answers : jsstring -> result (response unit) :=
  fun _ => Ok (Response true (Ok (Some tt))).

(** A document whose keywords tag has its [content] attribute first. *)
Definition content_first_keywords_document : jsstring :=
  jsq "<head><meta content='k' name='keywords'></head>".

(** * Properties *)

(** ** Strings *)

Lemma startsWith_iff (p s : jsstring) :
  startsWith p s = true <-> exists r, s = p ++ r.
Proof.
  revert s; induction p as [|a p IH]; intros s; simpl.
  - split; [intros _; now exists s | reflexivity].
  - destruct s as [|b s].
    + split; [discriminate | intros [r Hr]; discriminate].
    + rewrite andb_true_iff, N.eqb_eq, IH. split.
      * intros [-> [r ->]]. now exists r.
      * intros [r Hr]. injection Hr as -> ->. split; [reflexivity | now exists r].
Qed.

Lemma startsWith_app (p r : jsstring) : startsWith p (p ++ r) = true.
Proof. apply startsWith_iff. now exists r. Qed.

Lemma indexOf_Some (p s : jsstring) (i : nat) :
  indexOf p s = Some i <->
  occurs_at p s i /\ forall j, occurs_at p s j -> i <= j.
Proof.
  revert i; induction s as [|c s IH]; intros i.
  - simpl. destruct (startsWith p []) eqn:E.
    + apply startsWith_iff in E. destruct E as [r Hr].
      split.
      * intros [= <-]. split; [exists [], r; now split | intros; lia].
      * intros [_ Hmin]. f_equal. symmetry. apply Nat.le_0_r, Hmin.
        exists [], r. now split.
    + split; [discriminate|]. intros [(pre & post & H & _) _].
      symmetry in H. apply app_eq_nil in H. destruct H as [-> H].
      apply app_eq_nil in H. destruct H as [-> _]. discriminate.
  - cbn [indexOf]. destruct (startsWith p (c :: s)) eqn:E.
    + apply startsWith_iff in E. destruct E as [r Hr].
      split.
      * intros [= <-]. split; [exists [], r; now split | intros; lia].
      * intros [_ Hmin]. f_equal. symmetry. apply Nat.le_0_r, Hmin.
        exists [], r. now split.
    + assert (Hno0 : ~ occurs_at p (c :: s) 0).
      { intros (pre & post & H & Hl). destruct pre; [|discriminate].
        simpl in H. rewrite <- not_true_iff_false in E. apply E.
        apply startsWith_iff. now exists post. }
      assert (Hshift : forall j, occurs_at p s j <-> occurs_at p (c :: s) (S j)).
      { intros j. split.
        - intros (pre & post & -> & <-). exists (c :: pre), post. now split.
        - intros (pre & post & H & Hl). destruct pre as [|c' pre]; [discriminate|].
          injection H as -> ->. injection Hl as <-. exists pre, post. now split. }
      destruct (indexOf p s) as [j|] eqn:Ej; simpl.
      * destruct (proj1 (IH j) eq_refl) as [Hocc Hmin]. split.
        -- intros [= <-]. split; [now apply Hshift|].
           intros [|j'] Hj'; [contradiction|]. apply Hshift, Hmin in Hj'. lia.
        -- intros [Hocc' Hmin']. destruct i as [|i]; [contradiction|].
           apply Hshift in Hocc'. apply Hmin in Hocc'.
           apply Hshift, Hmin' in Hocc. f_equal. lia.
      * split; [discriminate|]. intros [Hocc _].
        destruct i as [|i]; [contradiction|]. apply Hshift in Hocc.
        assert (Hex : exists k, indexOf p s = Some k).
        { clear - Hocc. revert i Hocc. induction s as [|d s IHs]; intros i Hocc.
          - destruct Hocc as (pre & post & H & _). symmetry in H.
            apply app_eq_nil in H. destruct H as [_ H].
            apply app_eq_nil in H. destruct H as [-> _]. now exists 0.
          - cbn [indexOf]. destruct (startsWith p (d :: s)) eqn:E; [now exists 0|].
            destruct Hocc as (pre & post & H & Hl).
            destruct pre as [|d' pre].
            + simpl in H. rewrite <- not_true_iff_false in E. exfalso. apply E.
              apply startsWith_iff. now exists post.
            + injection H as -> ->. destruct (IHs (length pre)) as [k ->].
              * exists pre, post. now split.
              * now exists (S k). }
        destruct Hex as [k Hk]. congruence.
Qed.

Lemma indexOf_None (p s : jsstring) :
  indexOf p s = None <-> forall pre post, s <> pre ++ p ++ post.
Proof.
  split.
  - intros H pre post ->.
    destruct (indexOf p (pre ++ p ++ post)) as [k|] eqn:E; [discriminate|].
    clear H. revert E. induction pre as [|c pre IH]; intros E.
    + simpl in E. destruct p; simpl in E.
      * destruct post; discriminate.
      * rewrite N.eqb_refl, startsWith_app in E. discriminate.
    + cbn [indexOf app] in E.
      destruct (startsWith p (c :: pre ++ p ++ post)); [discriminate|].
      destruct (indexOf p (pre ++ p ++ post)); [discriminate|]. now apply IH.
  - intros H. destruct (indexOf p s) as [i|] eqn:E; [|reflexivity].
    apply indexOf_Some in E. destruct E as [(pre & post & -> & _) _].
    now destruct (H pre post).
Qed.

Lemma includes_true (s p : jsstring) :
  includes s p = true <-> exists pre post, s = pre ++ p ++ post.
Proof.
  unfold includes. destruct (indexOf p s) as [i|] eqn:E.
  - apply indexOf_Some in E. destruct E as [(pre & post & -> & _) _].
    split; [intros _; now exists pre, post | reflexivity].
  - split; [discriminate|]. intros (pre & post & ->).
    rewrite indexOf_None in E. now destruct (E pre post).
Qed.

(** ** The first match of a pattern *)

Lemma match_at_prefix re i s m g :
  match_at re i s = Some (m, g) -> s = m ++ skipn (length m) s.
Proof.
  unfold match_at.
  destruct (rmatch _ _ _ _) as [st'|]; [|discriminate].
  intros [= <- _].
  set (n := pos st' - i).
  destruct (Nat.le_gt_cases n (length s)) as [Hle|Hgt].
  - rewrite firstn_length_le by exact Hle. symmetry. apply firstn_skipn.
  - rewrite firstn_all2 by lia. rewrite skipn_all. now rewrite app_nil_r.
Qed.

Lemma exec_from_Some re i s r :
  exec_from re i s = Some r ->
  exists pre post,
    s = pre ++ matched r ++ post /\ index r = i + length pre /\
    match_at re (index r) (matched r ++ post) = Some (matched r, groups r) /\
    forall pre' suf', s = pre' ++ suf' -> length pre' < length pre ->
      match_at re (i + length pre') suf' = None.
Proof.
  revert i; induction s as [|c s IH]; intros i; cbn [exec_from].
  - destruct (match_at re i []) as [[m g]|] eqn:E; [|discriminate].
    intros [= <-]; simpl. exists [], (skipn (length m) []).
    pose proof (match_at_prefix _ _ _ _ _ E) as Hp. simpl.
    rewrite <- Hp, Nat.add_0_r. repeat split; auto. simpl; intros; lia.
  - destruct (match_at re i (c :: s)) as [[m g]|] eqn:E.
    + intros [= <-]; simpl. exists [], (skipn (length m) (c :: s)).
      pose proof (match_at_prefix _ _ _ _ _ E) as Hp. simpl.
      rewrite <- Hp, Nat.add_0_r. repeat split; auto. simpl; intros; lia.
    + intros H. apply IH in H. destruct H as (pre & post & Hs & Hi & Hm & Hmin).
      exists (c :: pre), post. simpl. rewrite Hs at 1.
      repeat split; auto; try lia.
      intros [|c' pre'] suf' Hsplit Hlen.
      * simpl in Hsplit. subst suf'. now rewrite Nat.add_0_r.
      * injection Hsplit as <- Hsplit. simpl in Hlen. simpl.
        rewrite Nat.add_succ_r. apply Hmin; [assumption | lia].
Qed.

Lemma exec_from_None re i s :
  exec_from re i s = None <->
  forall pre suf, s = pre ++ suf -> match_at re (i + length pre) suf = None.
Proof.
  revert i; induction s as [|c s IH]; intros i; cbn [exec_from].
  - destruct (match_at re i []) as [[m g]|] eqn:E.
    + split; [discriminate|]. intros H. specialize (H [] [] eq_refl).
      simpl in H. rewrite Nat.add_0_r in H. congruence.
    + split; [|reflexivity]. intros _ pre suf H. symmetry in H.
      apply app_eq_nil in H. destruct H as [-> ->]. simpl.
      now rewrite Nat.add_0_r.
  - destruct (match_at re i (c :: s)) as [[m g]|] eqn:E.
    + split; [discriminate|]. intros H. specialize (H [] (c :: s) eq_refl).
      simpl in H. rewrite Nat.add_0_r in H. congruence.
    + rewrite IH. split.
      * intros H [|c' pre] suf Hs.
        -- simpl in Hs. subst suf. simpl. now rewrite Nat.add_0_r.
        -- injection Hs as <- Hs. simpl. rewrite Nat.add_succ_r.
           now apply (H pre suf).
      * intros H pre suf Hs. specialize (H (c :: pre) suf).
        simpl in H. rewrite Nat.add_succ_r in H. apply H. now rewrite Hs.
Qed.

Lemma exec_first_match re s r :
  exec re s = Some r ->
  exists pre post,
    first_match re s pre (matched r) post /\ index r = length pre.
Proof.
  unfold exec. intros H. apply exec_from_Some in H.
  destruct H as (pre & post & Hs & Hi & Hm & Hmin). simpl in Hi.
  exists pre, post. split; [|assumption]. repeat split.
  - assumption.
  - exists (groups r). now rewrite <- Hi.
  - intros pre' suf' Hsplit Hlen. now apply (Hmin pre' suf').
Qed.

Lemma exec_no_match re s : exec re s = None <-> no_match re s.
Proof. unfold exec, no_match. now rewrite exec_from_None. Qed.

Lemma app_eq_length_inv (A : Type) (a b c d : list A) :
  a ++ b = c ++ d -> length a = length c -> a = c /\ b = d.
Proof.
  revert c; induction a as [|x a IH]; intros [|y c] H Hl; try discriminate.
  - now split.
  - simpl in *. injection H as -> H. injection Hl as Hl.
    destruct (IH c H Hl) as [-> ->]. now split.
Qed.

Lemma first_match_unique re s pre m post pre' m' post' :
  first_match re s pre m post -> first_match re s pre' m' post' ->
  pre = pre' /\ m = m' /\ post = post'.
Proof.
  intros (Hs & [g Hm] & Hmin) (Hs' & [g' Hm'] & Hmin').
  assert (Hl : length pre = length pre').
  { destruct (Nat.lt_trichotomy (length pre) (length pre')) as [H|[H|H]].
    - rewrite (Hmin' pre (m ++ post) Hs H) in Hm. discriminate.
    - assumption.
    - rewrite (Hmin pre' (m' ++ post') Hs' H) in Hm'. discriminate. }
  rewrite Hs' in Hs. destruct (app_eq_length_inv _ _ _ _ _ Hs) as [E1 E2]; [lia|].
  subst pre'. rewrite E2, Hm in Hm'. injection Hm' as -> _.
  apply app_inv_head in E2. now subst.
Qed.

Lemma exec_of_first_match re s pre m post :
  first_match re s pre m post ->
  exists r, exec re s = Some r /\ index r = length pre /\ matched r = m.
Proof.
  intros H. destruct (exec re s) as [r|] eqn:E.
  - exists r. destruct (exec_first_match _ _ _ E) as (pre' & post' & H' & Hi).
    destruct (first_match_unique _ _ _ _ _ _ _ _ H H') as (-> & -> & _). auto.
  - exfalso. rewrite exec_no_match in E. destruct H as (Hs & [g Hm] & _).
    rewrite (E pre (m ++ post) Hs) in Hm. discriminate.
Qed.

Lemma replace_first_match re t s pre m post :
  first_match re s pre m post ->
  replace re t s = pre ++ getSubstitution t pre m post ++ post.
Proof.
  intros H. destruct (exec_of_first_match _ _ _ _ _ H) as (r & E & Hi & Hm).
  unfold replace. rewrite E. cbv zeta. rewrite Hi, Hm.
  destruct H as (-> & _ & _).
  rewrite firstn_app, Nat.sub_diag, firstn_all, firstn_O, app_nil_r.
  assert (Hk : skipn (length pre + length m) (pre ++ m ++ post) = post).
  { rewrite app_assoc, <- length_app. rewrite skipn_app, skipn_all.
    now rewrite Nat.sub_diag. }
  now rewrite Hk.
Qed.

Lemma replace_no_match re t s : no_match re s -> replace re t s = s.
Proof.
  intros H. unfold replace. apply exec_no_match in H. now rewrite H.
Qed.

Lemma match_cases re s :
  no_match re s \/ exists pre m post, first_match re s pre m post.
Proof.
  destruct (exec re s) as [r|] eqn:E.
  - right. destruct (exec_first_match _ _ _ E) as (pre & post & H & _).
    now exists pre, (matched r), post.
  - left. now apply exec_no_match.
Qed.

(** ** Linear patterns: the matcher as a scanner *)

Lemma rmatch_atom ic a ok :
  atom_pred ic a = Some ok ->
  forall st k, rmatch a ic st k = step_char ok st k.
Proof. destruct a; simpl; intros [= <-]; reflexivity || discriminate. Qed.

Lemma crun_one ok tail K st :
  step_char ok st (crun tail K) = crun (IOne ok :: tail) K st.
Proof.
  unfold step_char, crun. destruct st as [p [|x s] c]; simpl; [reflexivity|].
  destruct (ok x); [|reflexivity].
  destruct (run tail s) as [n|]; simpl; [|reflexivity].
  now rewrite Nat.add_succ_r.
Qed.

Lemma crun_feed_none its K st x s :
  rest st = x :: s -> feed its x = None -> nullable its = false ->
  crun its K st = None.
Proof.
  intros Hr Hf Hn. unfold crun. rewrite Hr.
  destruct its; [discriminate|]. cbn [run]. now rewrite Hf.
Qed.

Lemma crun_star m ok tail K :
  (forall st k, m st k = step_char ok st k) ->
  (forall x, ok x = true -> feed tail x = None) -> nullable tail = false ->
  forall fuel st, length (rest st) <= fuel ->
    repeat_matcher m fuel st (crun tail K) = crun (IStar ok :: tail) K st.
Proof.
  intros Hm Hg Hn. induction fuel as [|fuel IH]; intros [p s c] Hlen;
    simpl in Hlen.
  - destruct s; [|simpl in Hlen; lia]. unfold crun; simpl.
    destruct tail; [discriminate | reflexivity].
  - cbn [repeat_matcher]. rewrite Hm. unfold step_char at 1. cbn [rest pos caps].
    destruct s as [|x s].
    + unfold crun; simpl. destruct tail; [discriminate | reflexivity].
    + destruct (ok x) eqn:Hx.
      * assert (Hne : Nat.eqb (S p) p = false) by (apply Nat.eqb_neq; lia).
        rewrite Hne. rewrite IH by (simpl in *; lia).
        rewrite (crun_feed_none tail K (MState p (x :: s) c) x s eq_refl
                   (Hg x Hx) Hn).
        unfold crun. cbn [rest pos caps run feed]. rewrite Hx.
        destruct (run (IStar ok :: tail) s) as [n|]; simpl.
        -- rewrite Nat.add_succ_r. now destruct (K _).
        -- reflexivity.
      * unfold crun. cbn [rest pos caps run feed]. rewrite Hx.
        destruct tail as [|i tail]; [discriminate|]. reflexivity.
Qed.

Lemma crun_opt m ok tail K :
  (forall st k, m st k = step_char ok st k) ->
  (forall x, ok x = true -> feed tail x = None) -> nullable tail = false ->
  forall st,
    match m st (fun st' => if Nat.eqb (pos st') (pos st) then None
                           else crun tail K st') with
    | Some res => Some res
    | None => crun tail K st
    end = crun (IOpt ok :: tail) K st.
Proof.
  intros Hm Hg Hn [p s c]. rewrite Hm. unfold step_char. cbn [rest pos caps].
  destruct s as [|x s].
  - unfold crun; simpl. destruct tail; [discriminate | reflexivity].
  - destruct (ok x) eqn:Hx.
    + assert (Hne : Nat.eqb (S p) p = false) by (apply Nat.eqb_neq; lia).
      rewrite Hne.
      rewrite (crun_feed_none tail K (MState p (x :: s) c) x s eq_refl
                 (Hg x Hx) Hn).
      unfold crun. cbn [rest pos caps run feed]. rewrite Hx.
      destruct (run tail s) as [n|]; simpl.
      * rewrite Nat.add_succ_r. now destruct (K _).
      * reflexivity.
    + unfold crun. cbn [rest pos caps run feed]. rewrite Hx.
      destruct tail as [|i tail]; [discriminate|]. reflexivity.
Qed.

Lemma guarded_app a b : guarded (a ++ b) -> guarded b.
Proof.
  induction a as [|[ok|ok|ok] a IH]; simpl; auto; intros (_ & _ & H); auto.
Qed.

Lemma continuation_ext_step ok st (k k' : continuation) :
  (forall st', k st' = k' st') -> step_char ok st k = step_char ok st k'.
Proof.
  intros H. unfold step_char. destruct (rest st); [reflexivity|].
  destruct (ok c); [apply H | reflexivity].
Qed.

(** The backtracking matcher of a guarded linear pattern is the scanner. *)
Lemma rmatch_linear ic r :
  forall its tail K k st,
    linearize ic r = Some its -> guarded (its ++ tail) ->
    (forall st', k st' = crun tail K st') ->
    rmatch r ic st k = crun (its ++ tail) K st.
Proof.
  induction r; intros its tail K k st Hl Hg Hk; cbn [linearize] in Hl;
    try discriminate.
  - injection Hl as <-. simpl. apply Hk.
  - simpl in Hl. injection Hl as <-. cbn [rmatch app].
    rewrite <- crun_one. now apply continuation_ext_step.
  - simpl in Hl. injection Hl as <-. cbn [rmatch app].
    rewrite <- crun_one. now apply continuation_ext_step.
  - simpl in Hl. injection Hl as <-. cbn [rmatch app].
    rewrite <- crun_one. now apply continuation_ext_step.
  - destruct (linearize ic r1) as [ia|]; [|discriminate].
    destruct (linearize ic r2) as [ib|]; [|discriminate].
    injection Hl as <-. rewrite <- app_assoc in *. cbn [rmatch].
    apply (IHr1 ia (ib ++ tail) K); [reflexivity | assumption |].
    intros st'. apply (IHr2 ib tail K); [reflexivity | | assumption].
    now apply guarded_app in Hg.
  - destruct (atom_pred ic r) as [ok|] eqn:Ha; [|discriminate].
    injection Hl as <-. cbn [rmatch app]. simpl in Hg.
    destruct Hg as (Hg1 & Hn & _).
    rewrite <- (crun_star (rmatch r ic) ok tail K (rmatch_atom _ _ _ Ha) Hg1 Hn
                  (length (rest st)) st (le_n _)).
    clear - Hk Ha. generalize (length (rest st)) as fuel.
    intros fuel; revert st; induction fuel as [|fuel IH]; intros st; simpl.
    + apply Hk.
    + rewrite !(rmatch_atom _ _ _ Ha). rewrite Hk.
      erewrite continuation_ext_step; [reflexivity|].
      intros st'. simpl. destruct (Nat.eqb _ _); [reflexivity | apply IH].
  - destruct (atom_pred ic r) as [ok|] eqn:Ha; [|discriminate].
    injection Hl as <-. cbn [rmatch app]. simpl in Hg.
    destruct Hg as (Hg1 & Hn & _).
    rewrite (rmatch_atom _ _ _ Ha). rewrite <- crun_one.
    apply continuation_ext_step. intros st'.
    rewrite <- (crun_star (rmatch r ic) ok tail K (rmatch_atom _ _ _ Ha) Hg1 Hn
                  (length (rest st')) st' (le_n _)).
    clear - Hk Ha. generalize (length (rest st')) as fuel.
    intros fuel; revert st'; induction fuel as [|fuel IH]; intros st'; simpl.
    + apply Hk.
    + rewrite !(rmatch_atom _ _ _ Ha). rewrite Hk.
      erewrite continuation_ext_step; [reflexivity|].
      intros st''. simpl. destruct (Nat.eqb _ _); [reflexivity | apply IH].
  - destruct (atom_pred ic r) as [ok|] eqn:Ha; [|discriminate].
    injection Hl as <-. cbn [rmatch app]. simpl in Hg.
    destruct Hg as (Hg1 & Hn & _).
    rewrite <- (crun_opt (rmatch r ic) ok tail K (rmatch_atom _ _ _ Ha) Hg1 Hn).
    rewrite !(rmatch_atom _ _ _ Ha). rewrite Hk.
    erewrite continuation_ext_step; [reflexivity|].
    intros st'. simpl. destruct (Nat.eqb _ _); [reflexivity | apply Hk].
Qed.

Lemma match_at_linear re i s :
  linear re ->
  match_at re i s =
  option_map (fun n => (firstn n s, [])) (run (items_of re) s).
Proof.
  intros [Hl Hg]. unfold match_at.
  rewrite (rmatch_linear (ignoreCase re) (pattern re) (items_of re) [] Some
             Some (MState i s []) Hl).
  - rewrite app_nil_r. unfold crun. cbn [rest pos caps].
    destruct (run (items_of re) s) as [n|]; [|reflexivity].
    cbn [pos caps option_map]. now replace (i + n - i) with n by lia.
  - now rewrite app_nil_r.
  - intros [p s' c]. unfold crun. cbn [rest pos caps].
    replace (run [] s') with (Some 0) by now destruct s'.
    now rewrite Nat.add_0_r.
Qed.

Lemma is_space_canonical ic x : is_space x = true -> canonicalize ic x = x.
Proof.
  unfold is_space, canonicalize. intros H.
  destruct ic; [|reflexivity]. cbn [andb].
  destruct (N.leb 97 x && N.leb x 122)%bool eqn:E; [|reflexivity].
  exfalso. apply andb_true_iff in E. destruct E as [E1 E2].
  apply N.leb_le in E1, E2.
  apply orb_true_iff in H. destruct H as [H|H].
  - cbn [existsb] in H.
    repeat (apply orb_true_iff in H; destruct H as [H|H];
            [apply N.eqb_eq in H; lia|]).
    discriminate.
  - apply andb_true_iff in H. destruct H as [H _]. apply N.leb_le in H. lia.
Qed.

Lemma space_not_char ic c x :
  is_space (canonicalize ic c) = false -> is_space x = true ->
  char_matches ic c x = false.
Proof.
  intros Hc Hx. unfold char_matches. rewrite (is_space_canonical ic _ Hx).
  apply N.eqb_neq. intros E. rewrite E in Hc. congruence.
Qed.

Lemma char_matches_excl ic c d x :
  char_matches ic c x = true ->
  char_matches ic d x = N.eqb (canonicalize ic d) (canonicalize ic c).
Proof.
  unfold char_matches. intros H. apply N.eqb_eq in H. now rewrite H.
Qed.

Lemma not_class_char ic c x :
  class_matches ic true [c] x = true -> char_matches ic c x = false.
Proof.
  unfold class_matches. cbn [existsb]. rewrite orb_false_r.
  now destruct (char_matches ic c x).
Qed.

Ltac solve_guard :=
  match goal with
  | H : is_space ?x = true |- _ =>
      repeat (rewrite (space_not_char _ _ x) by (reflexivity || exact H));
      reflexivity
  | H : class_matches _ true (cons _ nil) ?x = true |- _ =>
      rewrite (not_class_char _ _ _ H); reflexivity
  | H : char_matches _ _ ?x = true |- _ =>
      rewrite (char_matches_excl _ _ _ _ H); reflexivity
  end.

Ltac prove_linear :=
  split; [reflexivity |
    cbv -[char_matches class_matches is_space guarded nullable feed];
    cbn [guarded nullable feed];
    repeat split; intros x Hx; cbn [feed]; solve_guard ].

Lemma title_linear : linear title_re.
Proof. prove_linear. Qed.

Lemma description_linear : linear description_re.
Proof. prove_linear. Qed.

Lemma og_title_linear : linear og_title_re.
Proof. prove_linear. Qed.

Lemma og_description_linear : linear og_description_re.
Proof. prove_linear. Qed.

Lemma keywords_linear : linear keywords_re.
Proof. prove_linear. Qed.

Lemma twitter_title_linear : linear twitter_title_re.
Proof. prove_linear. Qed.

Lemma twitter_description_linear : linear twitter_description_re.
Proof. prove_linear. Qed.

Lemma og_image_linear : linear og_image_re.
Proof. prove_linear. Qed.

Lemma canonical_linear : linear canonical_re.
Proof. prove_linear. Qed.

(** ** The slug extractor *)

Lemma take_drop_while ok s : take_while ok s ++ drop_while ok s = s.
Proof.
  induction s as [|x s IH]; simpl; [reflexivity|].
  destruct (ok x); simpl; [now rewrite IH | reflexivity].
Qed.

Lemma take_while_Forall ok s : Forall (fun x => ok x = true) (take_while ok s).
Proof.
  induction s as [|x s IH]; simpl; [constructor|].
  destruct (ok x) eqn:E; constructor; assumption.
Qed.

Lemma drop_while_head ok s x s' :
  drop_while ok s = x :: s' -> ok x = false.
Proof.
  induction s as [|y s IH]; simpl; [discriminate|].
  destruct (ok y) eqn:E; [assumption|]. now intros [= <- _].
Qed.

Lemma take_while_app ok a b :
  Forall (fun x => ok x = true) a ->
  take_while ok (a ++ b) = a ++ take_while ok b.
Proof.
  induction 1 as [|x a Hx _ IH]; simpl; [reflexivity|]. now rewrite Hx, IH.
Qed.

(** When what follows a greedy quantifier cannot fail, the quantifier takes
    the longest run it can. *)
Lemma repeat_greedy_total (m : matcher) ok (k : continuation) :
  (forall st k', m st k' = step_char ok st k') ->
  (forall st, k st <> None) ->
  forall fuel st, length (rest st) <= fuel ->
    repeat_matcher m fuel st k =
    k (MState (pos st + length (take_while ok (rest st)))
              (drop_while ok (rest st)) (caps st)).
Proof.
  intros Hm Hk. induction fuel as [|fuel IH]; intros [p s c] Hlen;
    cbn [rest pos caps] in *.
  - destruct s; [|simpl in Hlen; lia]. simpl. now rewrite Nat.add_0_r.
  - cbn [repeat_matcher]. rewrite Hm. unfold step_char. cbn [rest pos caps].
    destruct s as [|x s]; cbn [take_while drop_while length].
    + now rewrite Nat.add_0_r.
    + destruct (ok x) eqn:Hx.
      * assert (Hne : Nat.eqb (S p) p = false) by (apply Nat.eqb_neq; lia).
        rewrite Hne, IH by (simpl in *; lia). cbn [rest pos caps length].
        rewrite Nat.add_succ_r. cbn [Nat.add].
        destruct (k _) eqn:E; [reflexivity | now apply Hk in E].
      * cbn [length]. now rewrite Nat.add_0_r.
Qed.

Lemma slug_class c : class_matches false true (js "/?") c = slug_char c.
Proof.
  change (js "/?") with [47; 63]%N.
  unfold class_matches, slug_char, char_matches, canonicalize, slash, question.
  cbn [existsb andb].
  rewrite (N.eqb_sym 47 c), (N.eqb_sym 63 c).
  now destruct (N.eqb c 47), (N.eqb c 63).
Qed.

Lemma take_while_ext ok ok' s :
  (forall x, ok x = ok' x) -> take_while ok s = take_while ok' s.
Proof.
  intros H. induction s as [|x s IH]; simpl; [reflexivity|].
  now rewrite H, IH.
Qed.

Lemma rmatch_literal l s i g (K : continuation) :
  rmatch (RLit l) false (MState i s g) K =
  if startsWith l s then K (MState (i + length l) (skipn (length l) s) g)
  else None.
Proof.
  revert i s; induction l as [|c l IH]; intros i s.
  - simpl. now rewrite Nat.add_0_r.
  - cbn [RLit rmatch]. unfold step_char. cbn [rest pos caps startsWith].
    destruct s as [|x s]; [reflexivity|].
    unfold char_matches, canonicalize. cbn [andb].
    destruct (N.eqb c x); [|reflexivity]. rewrite IH. cbn [andb length skipn].
    now rewrite Nat.add_succ_r.
Qed.

Lemma firstn_length_app (A : Type) (a b : list A) :
  firstn (length a) (a ++ b) = a.
Proof. induction a; simpl; [reflexivity | now f_equal]. Qed.

Lemma skipn_length_app (A : Type) (a b : list A) :
  skipn (length a) (a ++ b) = b.
Proof. induction a; simpl; [reflexivity | assumption]. Qed.

(** One attempt of the slug pattern. *)
Lemma match_at_slug i s :
  match_at slug_re i s =
  if Nat.eqb i 0 then
    if startsWith (js "/products/") s then
      match take_while slug_char (skipn 10 s) with
      | [] => None
      | slug => Some (js "/products/" ++ slug, [slug])
      end
    else None
  else None.
Proof.
  unfold match_at, slug_re, re. cbn [pattern ignoreCase rmatch pos].
  destruct (Nat.eqb i 0) eqn:Ei; [|reflexivity].
  apply Nat.eqb_eq in Ei; subst i.
  rewrite rmatch_literal.
  destruct (startsWith (js "/products/") s) eqn:Es; [|reflexivity].
  apply startsWith_iff in Es. destruct Es as [r ->].
  change (length (js "/products/")) with 10.
  change (skipn 10 (js "/products/" ++ r)) with r.
  unfold step_char. cbn [rest pos caps Nat.add].
  destruct r as [|x r]; [reflexivity|].
  rewrite slug_class. cbn [take_while]. destruct (slug_char x) eqn:Ex;
    [|reflexivity].
  rewrite (repeat_greedy_total _ (class_matches false true (js "/?")));
    [| reflexivity | discriminate | apply le_n].
  cbn [rest pos caps app].
  rewrite (take_while_ext _ slug_char r slug_class).
  set (w := take_while slug_char r).
  set (d := drop_while (class_matches false true (js "/?")) r).
  assert (Hr : r = w ++ drop_while slug_char r)
    by (symmetry; apply take_drop_while).
  rewrite Hr. clear d.
  replace (11 + length w - 0) with (length (js "/products/" ++ x :: w))
    by (rewrite length_app; simpl; lia).
  replace (11 + length w - 10) with (length (x :: w)) by (simpl; lia).
  change (x :: w ++ drop_while slug_char r)
    with ((x :: w) ++ drop_while slug_char r).
  rewrite app_assoc, !firstn_length_app. reflexivity.
Qed.

Lemma exec_from_slug_later i s : exec_from slug_re (S i) s = None.
Proof.
  revert i; induction s as [|c s IH]; intros i; cbn [exec_from];
    rewrite match_at_slug; cbn [Nat.eqb]; [reflexivity | apply IH].
Qed.

Lemma extractProductSlug_slug_of pathname :
  extractProductSlug pathname = slug_of pathname.
Proof.
  unfold extractProductSlug, exec, slug_of.
  destruct pathname as [|c s]; cbn [exec_from]; rewrite match_at_slug;
    cbn [Nat.eqb].
  - reflexivity.
  - rewrite exec_from_slug_later.
    destruct (startsWith (js "/products/") (c :: s)); [|reflexivity].
    now destruct (take_while slug_char (skipn 10 (c :: s))).
Qed.

Lemma slug_char_spec c :
  slug_char c = true <-> c <> slash /\ c <> question.
Proof.
  unfold slug_char. rewrite andb_true_iff, !negb_true_iff, !N.eqb_neq.
  reflexivity.
Qed.

Lemma extractProductSlug_Some pathname slug :
  extractProductSlug pathname = Some slug <->
  exists r,
    pathname = js "/products/" ++ slug ++ r /\ slug <> [] /\
    Forall (fun c => slug_char c = true) slug /\
    (r = [] \/ exists c r', r = c :: r' /\ slug_char c = false).
Proof.
  rewrite extractProductSlug_slug_of. unfold slug_of. split.
  - destruct (startsWith (js "/products/") pathname) eqn:Es; [|discriminate].
    apply startsWith_iff in Es. destruct Es as [r ->].
    change (skipn 10 (js "/products/" ++ r)) with r.
    destruct (take_while slug_char r) as [|x w] eqn:Ew; [discriminate|].
    intros [= <-]. exists (drop_while slug_char r). rewrite <- Ew.
    rewrite take_drop_while. repeat split.
    + rewrite Ew. discriminate.
    + apply take_while_Forall.
    + destruct (drop_while slug_char r) as [|c r'] eqn:Ed; [now left|].
      right. exists c, r'. split; [reflexivity|]. eapply drop_while_head; eauto.
  - intros (r & -> & Hne & Hall & Hr).
    rewrite startsWith_app.
    change (skipn 10 (js "/products/" ++ slug ++ r)) with (slug ++ r).
    rewrite take_while_app by assumption.
    assert (Hnil : take_while slug_char r = []).
    { destruct Hr as [-> | (c & r' & -> & Hc)]; simpl; [reflexivity|].
      now rewrite Hc. }
    rewrite Hnil, app_nil_r. destruct slug; [congruence | reflexivity].
Qed.

Lemma extractProductSlug_None pathname :
  extractProductSlug pathname = None <-> ~ product_path pathname.
Proof.
  rewrite extractProductSlug_slug_of. unfold slug_of, product_path. split.
  - intros H (c & r & -> & Hc). rewrite startsWith_app in H.
    change (skipn 10 (js "/products/" ++ c :: r)) with (c :: r) in H.
    simpl in H. rewrite Hc in H. discriminate.
  - intros H. destruct (startsWith (js "/products/") pathname) eqn:Es;
      [|reflexivity].
    apply startsWith_iff in Es. destruct Es as [r ->].
    change (skipn 10 (js "/products/" ++ r)) with r.
    destruct r as [|c r]; [reflexivity|]. simpl.
    destruct (slug_char c) eqn:Hc; [|reflexivity].
    exfalso. apply H. now exists c, r.
Qed.

(** ** Escaping *)

Lemma match_at_quote i s :
  match_at quote_re i s =
  match s with
  | x :: _ => if N.eqb x dq then Some ([dq], []) else None
  | [] => None
  end.
Proof.
  unfold match_at, quote_re, re_g. cbn [pattern ignoreCase rmatch].
  unfold step_char. cbn [rest pos caps]. destruct s as [|x s]; [reflexivity|].
  unfold char_matches, canonicalize. cbn [andb].
  rewrite N.eqb_sym. destruct (N.eqb_spec x dq) as [->|]; [|reflexivity].
  cbn [pos caps]. now replace (S i - i) with 1 by lia.
Qed.

Lemma exec_from_quote i s :
  exec_from quote_re i s =
  match drop_while not_dq s with
  | [] => None
  | _ :: _ =>
      Some (MatchResult (i + length (take_while not_dq s)) [dq] [])
  end.
Proof.
  revert i; induction s as [|x s IH]; intros i; cbn [exec_from];
    rewrite match_at_quote; [reflexivity|].
  cbn [drop_while take_while]. unfold not_dq at 1 3.
  destruct (N.eqb x dq); cbn [negb length].
  - now rewrite Nat.add_0_r.
  - rewrite IH. destruct (drop_while not_dq s); [reflexivity|].
    now rewrite Nat.add_succ_r.
Qed.

Lemma escape_app a b : escape (a ++ b) = escape a ++ escape b.
Proof. apply flat_map_app. Qed.

Lemma escape_no_quote s :
  Forall (fun c => not_dq c = true) s -> escape s = s.
Proof.
  induction 1 as [|x s Hx _ IH]; [reflexivity|].
  unfold escape in *. cbn [flat_map]. rewrite IH.
  unfold not_dq in Hx. apply negb_true_iff in Hx. now rewrite Hx.
Qed.

Lemma replace_all_quote fuel : forall i s,
  length s < fuel ->
  replace_all_from quote_re (js "&quot;") fuel i s = escape s.
Proof.
  induction fuel as [|fuel IH]; intros i s Hlen; [lia|].
  cbn [replace_all_from]. rewrite exec_from_quote.
  pose proof (take_drop_while not_dq s) as Hs.
  pose proof (take_while_Forall not_dq s) as Hall.
  remember (take_while not_dq s) as w eqn:Hw. clear Hw.
  destruct (drop_while not_dq s) as [|x b] eqn:Ed.
  - rewrite app_nil_r in Hs. subst w. now rewrite escape_no_quote.
  - apply drop_while_head in Ed as Hx. unfold not_dq in Hx.
    apply negb_false_iff, N.eqb_eq in Hx. subst x. clear Ed. subst s.
    cbn [index matched length].
    replace (i + length w - i) with (length w) by lia.
    rewrite firstn_length_app, skipn_length_app.
    cbn [Nat.eqb skipn]. rewrite IH.
    + rewrite escape_app, (escape_no_quote w) by assumption.
      unfold escape at 2. cbn [flat_map]. rewrite N.eqb_refl.
      reflexivity.
    + rewrite length_app in Hlen. simpl in Hlen. lia.
Qed.

Lemma escapeQuotes_escape s : escapeQuotes (Some s) = Ok (escape s).
Proof.
  unfold escapeQuotes, replace_all. now rewrite replace_all_quote by lia.
Qed.

Lemma escape_quote_free s : ~ In dq (escape s).
Proof.
  induction s as [|x s IH]; [intros []|].
  unfold escape in *. cbn [flat_map]. rewrite in_app_iff. intros [H|H]; [|auto].
  destruct (N.eqb_spec x dq) as [->|Hne].
  - revert H. vm_compute. intuition discriminate.
  - destruct H as [H|[]]. congruence.
Qed.



(** ** The injector, case by case *)

Section InjectorFacts.

Variable Product : Type.
Variable findOne : jsstring -> result (option Product).
Variable findById : jsstring -> result (option Product).
Variable generateProductSeoTags : Product -> jsstring -> result SeoTagSet.
Variable createMetaTagsHtml : SeoTagSet -> result jsstring.

Let inject :=
  injectMetaTags findOne findById generateProductSeoTags createMetaTagsHtml.
Let try :=
  injectMetaTags_try findOne findById generateProductSeoTags createMetaTagsHtml.

Lemma inject_no_slug html pathname baseUrl :
  extractProductSlug pathname = None ->
  inject html pathname baseUrl = (html, []).
Proof.
  intros H. unfold inject, injectMetaTags. now rewrite H.
Qed.

Lemma extracted_truthy pathname slug :
  extractProductSlug pathname = Some slug -> truthy (Some slug) = true.
Proof.
  intros H. apply extractProductSlug_Some in H.
  destruct H as (_ & _ & Hne & _). destruct slug; [congruence | reflexivity].
Qed.

Lemma inject_slug html pathname baseUrl slug :
  extractProductSlug pathname = Some slug ->
  inject html pathname baseUrl =
  match try slug baseUrl (Frame html []) with
  | (Ok returned, f) => (returned, trace f)
  | (Throw, f) => (var_html f, trace f ++ [ConsoleError])
  end.
Proof.
  intros H. unfold inject, injectMetaTags.
  rewrite H, (extracted_truthy _ _ H). reflexivity.
Qed.

Lemma assign_steps (steps : list (jsstring -> result jsstring))
    (k : M jsstring) h tr :
  (forall h', k (Frame h' tr) = (Ok h', Frame h' tr)) ->
  fold_right (fun step rest => assign_html step ;;; rest) k steps (Frame h tr) =
  let (ok, h') := exec_steps steps h in
  ((if ok then Ok h' else Throw), Frame h' tr).
Proof.
  intros Hk. revert h; induction steps as [|s steps IH]; intros h; simpl.
  - apply Hk.
  - unfold mbind, assign_html at 1. cbn [var_html trace].
    destruct (s h) as [h'|]; [apply IH | reflexivity].
Qed.

(** The injector, by cases on the outcome of the lookups and of the
    generator. *)
Lemma inject_cases html pathname baseUrl slug :
  extractProductSlug pathname = Some slug ->
  inject html pathname baseUrl =
  match lookup findOne findById slug with
  | Throw => (html, lookup_events findOne slug ++ [ConsoleError])
  | Ok None => (html, lookup_events findOne slug)
  | Ok (Some product) =>
      match generateProductSeoTags product baseUrl with
      | Throw => (html, lookup_events findOne slug ++ [ConsoleError])
      | Ok seoData =>
          match createMetaTagsHtml seoData with
          | Throw => (html, lookup_events findOne slug ++ [ConsoleError])
          | Ok _ =>
              let (ok, html') := exec_steps (pipeline seoData) html in
              (html', lookup_events findOne slug ++
                      if ok then [] else [ConsoleError])
          end
      end
  end.
Proof.
  intros H. rewrite (inject_slug _ _ _ _ H).
  assert (Hafter : forall product tr,
    (seoData <~ lift (generateProductSeoTags product baseUrl) ;;
     metaTags <~ lift (createMetaTagsHtml seoData) ;;
     fold_right (fun step rest => assign_html step ;;; rest) read_html
       (pipeline seoData)) (Frame html tr) =
    match generateProductSeoTags product baseUrl with
    | Throw => (Throw, Frame html tr)
    | Ok seoData =>
        match createMetaTagsHtml seoData with
        | Throw => (Throw, Frame html tr)
        | Ok _ =>
            let (ok, h') := exec_steps (pipeline seoData) html in
            ((if ok then Ok h' else Throw), Frame h' tr)
        end
    end).
  { intros product tr. unfold mbind at 1, lift at 1.
    destruct (generateProductSeoTags product baseUrl) as [sd|]; [|reflexivity].
    unfold mbind at 1, lift at 1.
    destruct (createMetaTagsHtml sd); [|reflexivity].
    apply assign_steps. reflexivity. }
  unfold try, injectMetaTags_try, lookup, lookup_events.
  unfold mbind at 1, call at 1. cbn [var_html trace app].
  destruct (findOne slug) as [[p|]|].
  - unfold mbind at 1, ret at 1.
    change (?f (Frame html [FindOne slug])) with
      ((seoData <~ lift (generateProductSeoTags p baseUrl) ;;
        metaTags <~ lift (createMetaTagsHtml seoData) ;;
        fold_right (fun step rest => assign_html step ;;; rest) read_html
          (pipeline seoData)) (Frame html [FindOne slug])).
    rewrite Hafter.
    destruct (generateProductSeoTags p baseUrl) as [sd|]; [|reflexivity].
    destruct (createMetaTagsHtml sd); [|reflexivity].
    destruct (exec_steps (pipeline sd) html) as [[|] h']; cbn [trace var_html].
    + cbn [app]; reflexivity.
    + reflexivity.
  - unfold mbind at 1, call at 1. cbn [var_html trace app].
    destruct (findById slug) as [[p|]|].
    + change (?f (Frame html [FindOne slug; FindById slug])) with
        ((seoData <~ lift (generateProductSeoTags p baseUrl) ;;
          metaTags <~ lift (createMetaTagsHtml seoData) ;;
          fold_right (fun step rest => assign_html step ;;; rest) read_html
            (pipeline seoData)) (Frame html [FindOne slug; FindById slug])).
      rewrite Hafter.
      destruct (generateProductSeoTags p baseUrl) as [sd|]; [|reflexivity].
      destruct (createMetaTagsHtml sd); [|reflexivity].
      destruct (exec_steps (pipeline sd) html) as [[|] h']; cbn [trace var_html].
      * cbn [app]; reflexivity.
      * reflexivity.
    + reflexivity.
    + reflexivity.
  - reflexivity.
Qed.

(** C7.  On a request path that does not have the shape [/products/<id>]
    the injector returns its input document unchanged, and makes no call to
    the product lookup (it makes no call at all), whatever the base URL. *)
Theorem inject_identity_on_other_paths html pathname baseUrl :
  ~ product_path pathname ->
  inject html pathname baseUrl = (html, []).
Proof.
  intros H. apply inject_no_slug. now apply extractProductSlug_None.
Qed.

(** C8.  For an extracted slug the first event is the lookup by slug; the
    lookup by id follows exactly when the lookup by slug returned nothing,
    and nothing else happens but, possibly, the logging of a caught error.
    When both lookups return nothing the result is the input document. *)
Theorem lookup_by_slug_then_by_id html pathname baseUrl slug :
  extractProductSlug pathname = Some slug ->
  (exists errs,
     (errs = [] \/ errs = [ConsoleError]) /\
     snd (inject html pathname baseUrl) =
     FindOne slug :: match findOne slug with
                     | Ok None => FindById slug :: errs
                     | _ => errs
                     end) /\
  (findOne slug = Ok None -> findById slug = Ok None ->
   inject html pathname baseUrl = (html, [FindOne slug; FindById slug])).
Proof.
  intros H. rewrite (inject_cases _ _ _ _ H). unfold lookup, lookup_events.
  split.
  - destruct (findOne slug) as [[p|]|].
    + destruct (generateProductSeoTags p baseUrl) as [sd|];
        [|exists [ConsoleError]; auto].
      destruct (createMetaTagsHtml sd); [|exists [ConsoleError]; auto].
      destruct (exec_steps (pipeline sd) html) as [[|] h'];
        [exists [] | exists [ConsoleError]]; auto.
    + destruct (findById slug) as [[p|]|];
        [| exists []; auto | exists [ConsoleError]; auto].
      destruct (generateProductSeoTags p baseUrl) as [sd|];
        [|exists [ConsoleError]; auto].
      destruct (createMetaTagsHtml sd); [|exists [ConsoleError]; auto].
      destruct (exec_steps (pipeline sd) html) as [[|] h'];
        [exists [] | exists [ConsoleError]]; auto.
    + exists [ConsoleError]; auto.
  - intros -> ->. reflexivity.
Qed.

(** An error raised by a lookup, by the generator or by the renderer is
    caught, and the input document is returned. *)
Lemma inject_error_before_substitution html pathname baseUrl slug :
  extractProductSlug pathname = Some slug ->
  lookup findOne findById slug = Throw \/
  (exists product,
     lookup findOne findById slug = Ok (Some product) /\
     (generateProductSeoTags product baseUrl = Throw \/
      exists seoData,
        generateProductSeoTags product baseUrl = Ok seoData /\
        createMetaTagsHtml seoData = Throw)) ->
  inject html pathname baseUrl =
  (html, lookup_events findOne slug ++ [ConsoleError]).
Proof.
  intros H Herr. rewrite (inject_cases _ _ _ _ H).
  destruct Herr as [-> | (p & -> & [-> | (sd & -> & ->)])]; reflexivity.
Qed.

End InjectorFacts.

(** C9.  The extractor returns a slug exactly when the path is [/products/]
    followed by that slug, the slug being the longest non-empty run of code
    units other than [/] and [?]: it ends at the end of the path or just
    before the next [/] or [?].  On any other path it returns nothing.  The
    slug is a piece of the path as it is: nothing is normalised or decoded. *)
Theorem extractProductSlug_spec pathname :
  (forall slug,
     extractProductSlug pathname = Some slug <->
     exists r,
       pathname = js "/products/" ++ slug ++ r /\ slug <> [] /\
       Forall (fun c => c <> slash /\ c <> question) slug /\
       (r = [] \/ exists c r', r = c :: r' /\ (c = slash \/ c = question))) /\
  (extractProductSlug pathname = None <-> ~ product_path pathname).
Proof.
  split; [|apply extractProductSlug_None].
  intros slug. rewrite extractProductSlug_Some. split.
  - intros (r & Hp & Hne & Hall & Hr). exists r. repeat split; auto.
    + eapply Forall_impl; [|exact Hall]. intros c Hc. now apply slug_char_spec.
    + destruct Hr as [-> | (c & r' & -> & Hc)]; [now left|].
      right. exists c, r'. split; [reflexivity|].
      unfold slug_char in Hc. apply andb_false_iff in Hc.
      rewrite !negb_false_iff, !N.eqb_eq in Hc. exact Hc.
  - intros (r & Hp & Hne & Hall & Hr). exists r. repeat split; auto.
    + eapply Forall_impl; [|exact Hall]. intros c Hc. now apply slug_char_spec.
    + destruct Hr as [-> | (c & r' & -> & Hc)]; [now left|].
      right. exists c, r'. split; [reflexivity|].
      unfold slug_char. apply andb_false_iff.
      rewrite !negb_false_iff, !N.eqb_eq. exact Hc.
Qed.

(** ** The scanner and the shapes of the tags *)

Lemma run_app its u w :
  run its (u ++ w) =
  match feeds its u with
  | Dead => None
  | Accept n => Some n
  | Live its' => option_map (Nat.add (length u)) (run its' w)
  end.
Proof.
  revert its; induction u as [|x u IH]; intros its.
  - destruct its as [|i its]; [now destruct w|]. cbn [feeds app length].
    destruct (run (i :: its) w); reflexivity.
  - destruct its as [|i its]; [reflexivity|]. cbn [feeds app run].
    destruct (feed (i :: its) x) as [its'|]; [|reflexivity].
    rewrite IH. destruct (feeds its' u) as [|n|q]; cbn; try reflexivity.
    now destruct (run q w).
Qed.

Lemma feeds_live_nonempty its u q : feeds its u = Live q -> q <> [].
Proof.
  revert its; induction u as [|x u IH]; intros its.
  - destruct its; cbn; [discriminate|]. now intros [= <-].
  - destruct its as [|i its]; cbn [feeds]; [discriminate|].
    destruct (feed (i :: its) x) as [its'|]; [|discriminate].
    destruct (feeds its' u) eqn:E; cbn; try discriminate.
    intros [= <-]. now apply (IH its').
Qed.

Lemma run_positive its s n : its <> [] -> run its s = Some n -> 0 < n.
Proof.
  destruct its as [|i its]; [congruence|]. intros _.
  destruct s as [|x s]; cbn [run]; [discriminate|].
  destruct (feed (i :: its) x); [|discriminate].
  destruct (run l s); cbn; [|discriminate]. intros [= <-]. lia.
Qed.

Lemma feeds_accept_bound its u n : feeds its u = Accept n -> n <= length u.
Proof.
  revert its n; induction u as [|x u IH]; intros its n.
  - destruct its; cbn; [|discriminate]. intros [= <-]. lia.
  - destruct its as [|i its]; cbn [feeds]; [intros [= <-]; lia|].
    destruct (feed (i :: its) x) as [its'|]; [|discriminate].
    destruct (feeds its' u) eqn:E; cbn; try discriminate.
    intros [= <-]. apply IH in E. simpl. lia.
Qed.

(** A match that ends inside [u] does not depend on what follows [u]. *)
Lemma run_local its u w w' n :
  run its (u ++ w) = Some n -> n <= length u -> run its (u ++ w') = Some n.
Proof.
  rewrite !run_app. destruct (feeds its u) as [|k|q] eqn:E; auto.
  destruct (run q w) as [j|] eqn:Ej; [|discriminate]. cbn. intros [= <-] Hle.
  apply run_positive in Ej; [lia|]. eapply feeds_live_nonempty; eauto.
Qed.

Lemma tails_self its : In its (tails its).
Proof. destruct its; now left. Qed.

Lemma tails_trans a b c : In b (tails a) -> In c (tails b) -> In c (tails a).
Proof.
  induction a as [|i a IH]; intros Hb Hc.
  - destruct Hb as [<-|[]]. exact Hc.
  - destruct Hb as [<-|Hb]; [exact Hc|]. right. now apply IH.
Qed.

Lemma feed_tails its x q : feed its x = Some q -> In q (tails its).
Proof.
  induction its as [|[ok|ok|ok] its IH]; cbn [feed]; try discriminate.
  - destruct (ok x); [|discriminate]. intros [= <-]. right. apply tails_self.
  - destruct (ok x); [intros [= <-]; now left|].
    intros H. right. now apply IH.
  - destruct (ok x); [intros [= <-]; right; apply tails_self|].
    intros H. right. now apply IH.
Qed.

Lemma feeds_tails its u q : feeds its u = Live q -> In q (tails its).
Proof.
  revert its; induction u as [|x u IH]; intros its.
  - destruct its; cbn; [discriminate|]. intros [= <-]. now left.
  - destruct its as [|i its]; cbn [feeds]; [discriminate|].
    destruct (feed (i :: its) x) as [its'|] eqn:Ef; [|discriminate].
    destruct (feeds its' u) eqn:E; cbn; try discriminate.
    intros [= <-]. apply feed_tails in Ef. apply IH in E.
    exact (tails_trans (i :: its) its' _ Ef E).
Qed.

(** After at least one code unit, a pattern that starts with a plain atom
    is in one of the states of its tail. *)
Lemma feeds_tails_tl ok its u q :
  u <> [] -> feeds (IOne ok :: its) u = Live q -> In q (tails its).
Proof.
  destruct u as [|x u]; [congruence|]. intros _. cbn [feeds feed].
  destruct (ok x); [|discriminate].
  destruct (feeds its u) eqn:E; cbn; try discriminate.
  intros [= <-]. now apply feeds_tails in E.
Qed.

(** A match that starts before a piece of input that blocks the pattern ends
    before that piece. *)
Lemma run_blocked ok its u p w n :
  blocks its p = true -> u <> [] ->
  run (IOne ok :: its) (u ++ p ++ w) = Some n -> n <= length u.
Proof.
  intros Hb Hu. rewrite run_app.
  destruct (feeds (IOne ok :: its) u) as [|k|q] eqn:E; [discriminate| |].
  - intros [= <-]. eapply feeds_accept_bound; eauto.
  - pose proof (feeds_live_nonempty _ _ _ E) as Hq.
    apply feeds_tails_tl in E; [|assumption].
    unfold blocks in Hb. rewrite forallb_forall in Hb. specialize (Hb q E).
    destruct q as [|i q]; [congruence|].
    rewrite run_app. destruct (feeds (i :: q) p); try discriminate.
Qed.

Lemma same_letters_length ic l e : same_letters ic l e -> length e = length l.
Proof. induction 1; simpl; congruence. Qed.

Lemma run_one ok r s n :
  run (IOne ok :: r) s = Some n <->
  exists x s' n',
    s = x :: s' /\ ok x = true /\ run r s' = Some n' /\ n = S n'.
Proof.
  split.
  - destruct s as [|x s]; cbn [run feed]; [discriminate|].
    destruct (ok x) eqn:Hx; [|discriminate].
    destruct (run r s) as [n'|] eqn:E; [|discriminate]. intros [= <-].
    now exists x, s, n'.
  - intros (x & s' & n' & -> & Hx & Hr & ->). cbn [run feed].
    now rewrite Hx, Hr.
Qed.

Lemma run_literal ic l r s n :
  run (literal ic l ++ r) s = Some n <->
  exists e s' n',
    s = e ++ s' /\ same_letters ic l e /\ run r s' = Some n' /\
    n = length l + n'.
Proof.
  revert s n; induction l as [|c l IH]; intros s n.
  - cbn [literal map app length]. split.
    + intros H. exists [], s, n. repeat split; auto. constructor.
    + intros (e & s' & n' & -> & He & Hr & ->). inversion He. exact Hr.
  - cbn [literal map app length]. rewrite run_one. split.
    + intros (x & s' & n' & -> & Hx & Hr & ->).
      apply IH in Hr. destruct Hr as (e & s'' & n'' & -> & He & Hr & ->).
      exists (x :: e), s'', n''. repeat split; auto. now constructor.
    + intros (e & s' & n' & -> & He & Hr & ->). inversion He as [|? y ? e' Hy He']; subst.
      exists y, (e' ++ s'), (length l + n'). repeat split; auto.
      apply IH. now exists e', s', n'.
Qed.

Lemma run_star ok r s n :
  (forall x, ok x = true -> feed r x = None) -> r <> [] ->
  run (IStar ok :: r) s = Some n <->
  exists w s' n',
    s = w ++ s' /\ Forall (fun c => ok c = true) w /\ run r s' = Some n' /\
    n = length w + n'.
Proof.
  intros Hg Hr. split.
  - revert n; induction s as [|x s IH]; intros n; cbn [run feed];
      [discriminate|].
    destruct (ok x) eqn:Hx.
    + destruct (run (IStar ok :: r) s) as [k|] eqn:E; [|discriminate].
      intros [= <-]. destruct (IH k eq_refl) as (w & s' & n' & -> & Hw & Hr' & ->).
      exists (x :: w), s', n'. repeat split; auto.
    + intros H. exists [], (x :: s), n. repeat split; auto.
      destruct r as [|i r]; [congruence|]. exact H.
  - intros (w & s' & n' & -> & Hw & Hr' & ->).
    induction Hw as [|x w Hx _ IH].
    + cbn [app length Nat.add]. destruct s' as [|y s'].
      * destruct r; [congruence | discriminate].
      * cbn [run feed]. destruct (ok y) eqn:Hy.
        -- apply Hg in Hy. destruct r as [|i r]; [congruence|].
           cbn [run] in Hr'. rewrite Hy in Hr'. discriminate.
        -- destruct r as [|i r]; [congruence|]. exact Hr'.
    + cbn [app run feed length]. now rewrite Hx, IH.
Qed.

Lemma run_opt ok r s n :
  (forall x, ok x = true -> feed r x = None) -> r <> [] ->
  run (IOpt ok :: r) s = Some n <->
  (exists x s' n',
     s = x :: s' /\ ok x = true /\ run r s' = Some n' /\ n = S n') \/
  run r s = Some n.
Proof.
  intros Hg Hr. split.
  - destruct s as [|x s]; cbn [run feed]; [discriminate|].
    destruct (ok x) eqn:Hx.
    + destruct (run r s) as [n'|] eqn:E; [|discriminate]. intros [= <-].
      left. now exists x, s, n'.
    + intros H. right. destruct r as [|i r]; [congruence|]. exact H.
  - intros [(x & s' & n' & -> & Hx & Hr' & ->) | H].
    + cbn [run feed]. now rewrite Hx, Hr'.
    + destruct s as [|y s]; [destruct r; [congruence | discriminate]|].
      cbn [run feed]. destruct (ok y) eqn:Hy.
      * apply Hg in Hy. destruct r as [|i r]; [congruence|].
        cbn [run] in H. rewrite Hy in H. discriminate.
      * destruct r as [|i r]; [congruence|]. exact H.
Qed.

Lemma char_matches_symbol ic c x :
  (c < 65)%N -> char_matches ic c x = true <-> x = c.
Proof.
  intros Hc. unfold char_matches, canonicalize.
  replace (ic && (97 <=? c) && (c <=? 122))%N with false.
  2:{ symmetry. apply andb_false_iff. left. apply andb_false_iff. right.
      apply N.leb_gt. lia. }
  rewrite N.eqb_eq.
  destruct (ic && (97 <=? x) && (x <=? 122))%N eqn:E.
  - apply andb_true_iff in E. destruct E as [E _].
    apply andb_true_iff in E. destruct E as [_ E]. apply N.leb_le in E.
    split; intros H; lia.
  - split; congruence.
Qed.

Lemma class_not_dq x : class_matches true true [dq] x = true <-> x <> dq.
Proof.
  unfold class_matches. cbn [existsb]. rewrite orb_false_r.
  destruct (char_matches true dq x) eqn:E; cbn.
  - apply char_matches_symbol in E; [|reflexivity]. split; congruence.
  - split; [|reflexivity]. intros _ ->.
    assert (H : char_matches true dq dq = true) by reflexivity. congruence.
Qed.

Lemma Forall_not_dq v :
  Forall (fun c => class_matches true true [dq] c = true) v <-> ~ In dq v.
Proof.
  rewrite Forall_forall. split.
  - intros H Hin. apply H in Hin. now apply class_not_dq in Hin.
  - intros H c Hc. apply class_not_dq. intros ->. contradiction.
Qed.

Section TagShape.

Variables (elem a1 a2 : jsstring) (c1 c2 : code_unit) (r1 r2 : jsstring).
Hypothesis Ha1 : a1 = c1 :: r1.
Hypothesis Ha2 : a2 = c2 :: r2.
Hypothesis Hc1 : is_space (canonicalize true c1) = false.
Hypothesis Hc2 : is_space (canonicalize true c2) = false.

Let closing : list item :=
  [IOne (char_matches true dq); IStar is_space;
   IOpt (char_matches true slash); IOne (char_matches true gt_sign)].

Lemma space_guard c r x :
  is_space (canonicalize true c) = false -> is_space x = true ->
  feed (literal true (c :: r) ++ closing) x = None /\
  forall tl, feed (literal true (c :: r) ++ tl) x = None.
Proof.
  intros Hc Hx. cbn [literal map app feed].
  now rewrite (space_not_char _ _ _ Hc Hx).
Qed.

Lemma run_closing s n :
  run closing s = Some n <->
  exists w3 sl post,
    s = [dq] ++ w3 ++ sl ++ [gt_sign] ++ post /\ spaces w3 /\
    (sl = [] \/ sl = [slash]) /\ n = length ([dq] ++ w3 ++ sl ++ [gt_sign]).
Proof.
  unfold closing. rewrite run_one. split.
  - intros (x & s' & n' & -> & Hx & Hr & ->).
    apply char_matches_symbol in Hx; [|reflexivity]. subst x.
    apply run_star in Hr; [| |discriminate].
    2:{ intros x Hx. cbn [feed].
        now rewrite !(space_not_char true _ x) by (reflexivity || assumption). }
    destruct Hr as (w3 & s'' & n'' & -> & Hw & Hr & ->).
    apply run_opt in Hr; [| |discriminate].
    2:{ intros x Hx. cbn [feed]. apply char_matches_symbol in Hx; [|reflexivity].
        now subst x. }
    destruct Hr as [(x & s3 & n3 & -> & Hx & Hr & ->) | Hr].
    + apply char_matches_symbol in Hx; [|reflexivity]. subst x.
      apply run_one in Hr. destruct Hr as (y & s4 & n4 & -> & Hy & Hr & ->).
      apply char_matches_symbol in Hy; [|reflexivity]. subst y.
      replace n4 with 0 in * by (destruct s4; cbn in Hr; congruence).
      exists w3, [slash], s4. repeat split; auto.
      rewrite !length_app. simpl. lia.
    + apply run_one in Hr. destruct Hr as (y & s4 & n4 & -> & Hy & Hr & ->).
      apply char_matches_symbol in Hy; [|reflexivity]. subst y.
      replace n4 with 0 in * by (destruct s4; cbn in Hr; congruence).
      exists w3, [], s4. repeat split; auto.
      rewrite !length_app. simpl. lia.
  - intros (w3 & sl & post & -> & Hw & Hsl & ->).
    exists dq, (w3 ++ sl ++ [gt_sign] ++ post), (length (w3 ++ sl ++ [gt_sign])).
    repeat split; auto.
    apply run_star; [| discriminate |].
    { intros x Hx. cbn [feed].
      now rewrite !(space_not_char true _ x) by (reflexivity || assumption). }
    exists w3, (sl ++ [gt_sign] ++ post), (length (sl ++ [gt_sign])).
    repeat split; auto; [|now rewrite length_app].
    apply run_opt; [| discriminate |].
    { intros x Hx. cbn [feed]. apply char_matches_symbol in Hx; [|reflexivity].
      now subst x. }
    destruct Hsl as [-> | ->].
    + right. apply run_one. exists gt_sign, post, 0. repeat split; auto.
      now destruct post.
    + left. exists slash, ([gt_sign] ++ post), 1. repeat split; auto.
      apply run_one. exists gt_sign, post, 0. repeat split; auto.
      now destruct post.
Qed.

Lemma closing_guard x :
  class_matches true true [dq] x = true -> feed closing x = None.
Proof.
  intros Hx. unfold closing. cbn [feed].
  now rewrite (not_class_char _ _ _ Hx).
Qed.

Lemma run_tag s n :
  run (tag_items elem a1 a2) s = Some n <->
  exists m post, s = m ++ post /\ n = length m /\ tag_shape elem a1 a2 m.
Proof.
  unfold tag_items. fold closing. cbn [app]. split.
  - intros H.
    apply run_literal in H. destruct H as (e & s1 & n1 & -> & He & H & ->).
    apply run_one in H. destruct H as (x1 & s2 & n2 & -> & Hx1 & H & ->).
    apply run_star in H.
    2:{ intros x Hx. rewrite Ha1. now apply space_guard. }
    2:{ rewrite Ha1. discriminate. }
    destruct H as (w1 & s3 & n3 & -> & Hw1 & H & ->).
    apply run_literal in H. destruct H as (nm & s4 & n4 & -> & Hn & H & ->).
    apply run_one in H. destruct H as (x2 & s5 & n5 & -> & Hx2 & H & ->).
    apply run_star in H.
    2:{ intros x Hx. rewrite Ha2. now apply space_guard. }
    2:{ rewrite Ha2. discriminate. }
    destruct H as (w2 & s6 & n6 & -> & Hw2 & H & ->).
    apply run_literal in H. destruct H as (k & s7 & n7 & -> & Hk & H & ->).
    apply (run_star _ closing) in H; [| apply closing_guard | discriminate].
    destruct H as (v & s8 & n8 & -> & Hv & H & ->).
    apply run_closing in H. destruct H as (w3 & sl & post & -> & Hw3 & Hsl & ->).
    exists (e ++ (x1 :: w1) ++ nm ++ (x2 :: w2) ++ k ++ v ++ [dq] ++ w3 ++ sl
              ++ [gt_sign]), post.
    split; [|split].
    + repeat (rewrite <- ?app_assoc, <- ?app_comm_cons; cbn [app]). reflexivity.
    + rewrite <- (same_letters_length _ _ _ He), <- (same_letters_length _ _ _ Hn),
        <- (same_letters_length _ _ _ Hk).
      repeat (rewrite ?length_app; cbn [length]). lia.
    + exists e, (x1 :: w1), nm, (x2 :: w2), k, v, w3, sl.
      repeat split; auto; try discriminate.
      * now constructor.
      * now constructor.
      * now apply Forall_not_dq.
  - intros (m & post & -> & -> & Hm).
    destruct Hm as (e & w1 & nm & w2 & k & v & w3 & sl & -> & He & Hw1 & Hne1
                      & Hn & Hw2 & Hne2 & Hk & Hv & Hw3 & Hsl).
    destruct w1 as [|x1 w1]; [congruence|]. destruct w2 as [|x2 w2]; [congruence|].
    apply Forall_cons_iff in Hw1. destruct Hw1 as [Hx1 Hw1'].
    apply Forall_cons_iff in Hw2. destruct Hw2 as [Hx2 Hw2'].
    repeat (rewrite <- ?app_assoc, <- ?app_comm_cons; cbn [app]).
    apply run_literal. eexists e, _, _. split; [reflexivity|].
    split; [exact He|]. split.
    2:{ rewrite <- (same_letters_length _ _ _ He).
        repeat (rewrite ?length_app; cbn [length]). reflexivity. }
    apply run_one. eexists x1, _, _. repeat split; [exact Hx1|].
    apply run_star.
    { intros x Hx. rewrite Ha1. now apply space_guard. }
    { rewrite Ha1. discriminate. }
    eexists w1, _, _. split; [reflexivity|]. split; [exact Hw1'|].
    split; [|reflexivity].
    apply run_literal. eexists nm, _, _. split; [reflexivity|].
    split; [exact Hn|]. split.
    2:{ rewrite <- (same_letters_length _ _ _ Hn). reflexivity. }
    apply run_one. eexists x2, _, _. repeat split; [exact Hx2|].
    apply run_star.
    { intros x Hx. rewrite Ha2. now apply space_guard. }
    { rewrite Ha2. discriminate. }
    eexists w2, _, _. split; [reflexivity|]. split; [exact Hw2'|].
    split; [|reflexivity].
    apply run_literal. eexists k, _, _. split; [reflexivity|].
    split; [exact Hk|]. split.
    2:{ rewrite <- (same_letters_length _ _ _ Hk). reflexivity. }
    apply (run_star _ closing); [apply closing_guard | discriminate |].
    eexists v, _, _. split; [reflexivity|]. split; [now apply Forall_not_dq|].
    split; [|reflexivity].
    apply run_closing. exists w3, sl, post. repeat split; auto.
    repeat (rewrite ?length_app; cbn [length]). lia.
Qed.

End TagShape.

Lemma first_match_occurrence re P s pre m post :
  matches_shape re P ->
  first_match re s pre m post <-> first_occurrence P s pre m post.
Proof.
  intros HP. unfold first_match, first_occurrence. split.
  - intros (Hs & [g Hm] & Hmin). split; [assumption|].
    apply HP in Hm. destruct Hm as (_ & Hm & _). split; [assumption|].
    intros pre' m' post' Hs' Hm'.
    destruct (Nat.le_gt_cases (length pre) (length pre')) as [|Hlt];
      [assumption|].
    specialize (Hmin pre' (m' ++ post') Hs' Hlt).
    assert (H : match_at re (length pre') (m' ++ post') = Some (m', [])).
    { apply HP. repeat split; auto. now exists post'. }
    congruence.
  - intros (Hs & Hm & Hmin). split; [assumption|]. split.
    + exists []. apply HP. repeat split; auto. now exists post.
    + intros pre' suf' Hs' Hlt.
      destruct (match_at re (length pre') suf') as [[m' g']|] eqn:E;
        [|reflexivity].
      apply HP in E. destruct E as (_ & Hm' & post' & ->).
      specialize (Hmin pre' m' post' Hs' Hm'). lia.
Qed.

Lemma no_match_absent re P s :
  matches_shape re P -> no_match re s <-> absent P s.
Proof.
  intros HP. unfold no_match, absent. split.
  - intros H pre m post Hs Hm.
    assert (E : match_at re (length pre) (m ++ post) = Some (m, [])).
    { apply HP. repeat split; auto. now exists post. }
    rewrite (H pre (m ++ post) Hs) in E. discriminate.
  - intros H pre suf Hs.
    destruct (match_at re (length pre) suf) as [[m g]|] eqn:E; [|reflexivity].
    apply HP in E. destruct E as (_ & Hm & post & ->).
    now destruct (H pre m post Hs).
Qed.

(** The first occurrence, from a run of [exec]. *)
Lemma first_occurrence_of_exec re P s r :
  matches_shape re P -> exec re s = Some r ->
  first_occurrence P s (firstn (index r) s) (matched r)
    (skipn (index r + length (matched r)) s).
Proof.
  intros HP E. destruct (exec_first_match _ _ _ E) as (pre & post & Hm & Hi).
  apply (first_match_occurrence re P) in Hm; [|assumption].
  destruct Hm as (Hs & Hm). rewrite Hi. subst s.
  rewrite firstn_length_app.
  replace (skipn (length pre + length (matched r)) (pre ++ matched r ++ post))
    with post.
  - now split.
  - rewrite app_assoc, <- length_app. now rewrite skipn_length_app.
Qed.

Lemma index_is_first p s i :
  indexOf p s = Some i ->
  forall pre' post', s = pre' ++ p ++ post' -> i <= length pre'.
Proof.
  intros H pre' post' Hs. apply indexOf_Some in H. destruct H as [_ Hmin].
  apply Hmin. now exists pre', post'.
Qed.

Lemma linear_matches_shape re (P : jsstring -> Prop) :
  linear re ->
  (forall s n, run (items_of re) s = Some n <->
               exists m post, s = m ++ post /\ n = length m /\ P m) ->
  matches_shape re P.
Proof.
  intros Hl Hrun i s m g. rewrite (match_at_linear _ _ _ Hl). split.
  - destruct (run (items_of re) s) as [n|] eqn:E; [|discriminate].
    cbn. intros [= <- <-]. apply Hrun in E.
    destruct E as (m & post & -> & -> & Hm). rewrite firstn_length_app.
    repeat split; auto. now exists post.
  - intros (-> & Hm & post & ->).
    assert (E : run (items_of re) (m ++ post) = Some (length m)).
    { apply Hrun. now exists m, post. }
    rewrite E. cbn. now rewrite firstn_length_app.
Qed.

Lemma same_letters_exact l e : same_letters false l e <-> e = l.
Proof.
  split.
  - induction 1 as [|a b l e Hab _ IH]; [reflexivity|].
    unfold char_matches, canonicalize in Hab. cbn [andb] in Hab.
    apply N.eqb_eq in Hab. congruence.
  - intros ->. induction l; constructor; [|assumption].
    unfold char_matches. apply N.eqb_refl.
Qed.

Lemma class_not_lt x :
  class_matches false true [lt_sign] x = true <-> x <> lt_sign.
Proof.
  unfold class_matches, char_matches, canonicalize. cbn [existsb andb].
  rewrite orb_false_r.
  destruct (N.eqb_spec lt_sign x) as [E|E]; cbn; split; congruence.
Qed.

Lemma Forall_not_lt v :
  Forall (fun c => class_matches false true [lt_sign] c = true) v <->
  ~ In lt_sign v.
Proof.
  rewrite Forall_forall. split.
  - intros H Hin. apply H in Hin. now apply class_not_lt in Hin.
  - intros H c Hc. apply class_not_lt. intros ->. contradiction.
Qed.

Lemma title_items :
  items_of title_re =
  literal false (js "<title>") ++
  [IStar (class_matches false true [lt_sign])] ++ literal false (js "</title>").
Proof. reflexivity. Qed.

Lemma title_matches_shape : matches_shape title_re title_shape.
Proof.
  apply linear_matches_shape; [apply title_linear|].
  intros s n. rewrite title_items. cbn [app]. split.
  - intros H.
    apply run_literal in H. destruct H as (e & s1 & n1 & -> & He & H & ->).
    apply same_letters_exact in He. subst e.
    apply run_star in H; [| | discriminate].
    2:{ intros x Hx. cbn [literal map feed js list_ascii_of_string].
        apply class_not_lt in Hx. unfold char_matches, canonicalize.
        cbn [andb]. rewrite N.eqb_sym.
        destruct (N.eqb_spec x (N_of_ascii "<")); [contradiction | reflexivity]. }
    destruct H as (c & s2 & n2 & -> & Hc & H & ->).
    rewrite <- (app_nil_r (literal false (js "</title>"))) in H.
    apply run_literal in H. destruct H as (e & s3 & n3 & -> & He & H & ->).
    apply same_letters_exact in He. subst e.
    replace n3 with 0 in * by (destruct s3; cbn in H; congruence).
    exists (js "<title>" ++ c ++ js "</title>"), s3. split; [|split].
    + now rewrite <- !app_assoc.
    + rewrite !length_app. lia.
    + exists c. split; [reflexivity|]. now apply Forall_not_lt.
  - intros (m & post & -> & -> & c & -> & Hc).
    rewrite <- !app_assoc.
    apply run_literal. eexists (js "<title>"), _, _. split; [reflexivity|].
    split; [now apply same_letters_exact|]. split.
    2:{ rewrite !length_app. reflexivity. }
    apply run_star; [| discriminate |].
    { intros x Hx. cbn [literal map feed js list_ascii_of_string].
      apply class_not_lt in Hx. unfold char_matches, canonicalize.
      cbn [andb]. rewrite N.eqb_sym.
      destruct (N.eqb_spec x (N_of_ascii "<")); [contradiction | reflexivity]. }
    eexists c, _, _. split; [reflexivity|]. split; [now apply Forall_not_lt|].
    split; [|reflexivity].
    rewrite <- (app_nil_r (literal false (js "</title>"))).
    apply run_literal. exists (js "</title>"), post, 0.
    split; [reflexivity|]. split; [now apply same_letters_exact|].
    split; [now destruct post | now rewrite Nat.add_0_r].
Qed.

Lemma tag_matches_shape re elem a1 a2 c1 r1 c2 r2 :
  linear re -> items_of re = tag_items elem a1 a2 ->
  a1 = c1 :: r1 -> a2 = c2 :: r2 ->
  is_space (canonicalize true c1) = false ->
  is_space (canonicalize true c2) = false ->
  matches_shape re (tag_shape elem a1 a2).
Proof.
  intros Hl Hi Ha1 Ha2 Hc1 Hc2. apply linear_matches_shape; [assumption|].
  intros s n. rewrite Hi. now apply (run_tag _ _ _ c1 c2 r1 r2).
Qed.

Ltac prove_tag_shape lin :=
  eapply tag_matches_shape; [apply lin | reflexivity | reflexivity
                            | reflexivity | reflexivity | reflexivity].

Lemma description_matches_shape :
  matches_shape description_re description_shape.
Proof. prove_tag_shape description_linear. Qed.

Lemma og_title_matches_shape : matches_shape og_title_re og_title_shape.
Proof. prove_tag_shape og_title_linear. Qed.

Lemma og_description_matches_shape :
  matches_shape og_description_re og_description_shape.
Proof. prove_tag_shape og_description_linear. Qed.

Lemma keywords_matches_shape : matches_shape keywords_re keywords_shape.
Proof. prove_tag_shape keywords_linear. Qed.

Lemma twitter_title_matches_shape :
  matches_shape twitter_title_re twitter_title_shape.
Proof. prove_tag_shape twitter_title_linear. Qed.

Lemma twitter_description_matches_shape :
  matches_shape twitter_description_re twitter_description_shape.
Proof. prove_tag_shape twitter_description_linear. Qed.

Lemma og_image_matches_shape : matches_shape og_image_re og_image_shape.
Proof. prove_tag_shape og_image_linear. Qed.

Lemma canonical_matches_shape : matches_shape canonical_re canonical_shape.
Proof. prove_tag_shape canonical_linear. Qed.

(** ** The substitution steps *)

Lemma replace_absent re P template s :
  matches_shape re P -> absent P s -> replace re template s = s.
Proof.
  intros HP Ha. apply replace_no_match. now apply (no_match_absent re P).
Qed.

Lemma replace_first_occurrence re P template s pre m post :
  matches_shape re P -> first_occurrence P s pre m post ->
  replace re template s = pre ++ getSubstitution template pre m post ++ post.
Proof.
  intros HP Ho. apply replace_first_match.
  now apply (first_match_occurrence re P).
Qed.

(** A template without dollar sign is inserted as it is. *)
Lemma getSubstitution_plain template before m after :
  ~ In dollar template -> getSubstitution template before m after = template.
Proof.
  induction template as [|c t IH]; intros Hd; [reflexivity|].
  cbn [getSubstitution]. destruct (N.eqb_spec c dollar) as [->|Hc].
  - exfalso. apply Hd. now left.
  - rewrite IH; [reflexivity|]. intros H. apply Hd. now right.
Qed.


Lemma unconditional_step re P template (step : jsstring -> result jsstring) :
  matches_shape re P ->
  (forall html, step html = Ok (replace re template html)) ->
  replaces_first step P template.
Proof.
  intros HP Hstep html. rewrite Hstep. split.
  - intros Ha. now rewrite (replace_absent re P).
  - intros pre m post Ho. now rewrite (replace_first_occurrence re P _ _ pre m post).
Qed.

Lemma step_title_eq sd t html :
  title sd = Some t ->
  step_title sd html =
  Ok (replace title_re (js "<title>" ++ escape t ++ js "</title>") html).
Proof. intros H. unfold step_title. now rewrite H, escapeQuotes_escape. Qed.

Lemma step_description_eq sd d html :
  description sd = Some d ->
  step_description sd html =
  Ok (replace description_re
        (jsq "<meta name='description' content='" ++ escape d ++ jsq "' />")
        html).
Proof. intros H. unfold step_description. now rewrite H, escapeQuotes_escape. Qed.

Lemma step_og_title_eq sd t html :
  ogTitle sd = Some t ->
  step_og_title sd html =
  if includes html (jsq "property='og:title'") then
    Ok (replace og_title_re
          (jsq "<meta property='og:title' content='" ++ escape t ++ jsq "' />")
          html)
  else Ok html.
Proof. intros H. unfold step_og_title. now rewrite H, escapeQuotes_escape. Qed.

Lemma step_og_description_eq sd d html :
  ogDescription sd = Some d ->
  step_og_description sd html =
  if includes html (jsq "property='og:description'") then
    Ok (replace og_description_re
          (jsq "<meta property='og:description' content='" ++ escape d ++
           jsq "' />") html)
  else Ok html.
Proof.
  intros H. unfold step_og_description. now rewrite H, escapeQuotes_escape.
Qed.

Lemma step_twitter_title_eq sd t html :
  ogTitle sd = Some t ->
  step_twitter_title sd html =
  if includes html (jsq "name='twitter:title'") then
    Ok (replace twitter_title_re
          (jsq "<meta name='twitter:title' content='" ++ escape t ++ jsq "' />")
          html)
  else Ok html.
Proof.
  intros H. unfold step_twitter_title. now rewrite H, escapeQuotes_escape.
Qed.

Lemma step_twitter_description_eq sd d html :
  ogDescription sd = Some d ->
  step_twitter_description sd html =
  if includes html (jsq "name='twitter:description'") then
    Ok (replace twitter_description_re
          (jsq "<meta name='twitter:description' content='" ++ escape d ++
           jsq "' />") html)
  else Ok html.
Proof.
  intros H. unfold step_twitter_description.
  now rewrite H, escapeQuotes_escape.
Qed.

Lemma step_og_image_eq sd i html :
  ogImage sd = Some i ->
  step_og_image sd html =
  if includes html (jsq "property='og:image'") then
    Ok (replace og_image_re
          (jsq "<meta property='og:image' content='" ++ escape i ++ jsq "' />")
          html)
  else Ok html.
Proof. intros H. unfold step_og_image. now rewrite H, escapeQuotes_escape. Qed.

Lemma step_canonical_eq sd c html :
  canonicalUrl sd = Some c ->
  step_canonical sd html =
  if includes html (jsq "rel='canonical'") then
    Ok (replace canonical_re
          (jsq "<link rel='canonical' href='" ++ escape c ++ jsq "' />") html)
  else Ok html.
Proof. intros H. unfold step_canonical. now rewrite H, escapeQuotes_escape. Qed.

Lemma step_keywords_eq sd k html :
  keywords sd = Some k -> k <> [] ->
  step_keywords sd html =
  if includes html (jsq "name='keywords'") then
    Ok (replace keywords_re
          (jsq "<meta name='keywords' content='" ++ escape k ++ jsq "' />")
          html)
  else
    match indexOf (js "</head>") html with
    | Some i =>
        Ok (firstn i html ++
            (jsq "    <meta name='keywords' content='" ++ escape k ++
             jsq "' />" ++ [newline]) ++ skipn i html)
    | None => Ok html
    end.
Proof.
  intros H Hk. unfold step_keywords. rewrite H, escapeQuotes_escape.
  destruct k; [congruence|]. reflexivity.
Qed.

Lemma step_keywords_falsy sd html :
  keywords sd = None \/ keywords sd = Some [] ->
  step_keywords sd html = Ok html.
Proof. intros [H|H]; unfold step_keywords; now rewrite H. Qed.

Section Found.

Variable Product : Type.
Variable findOne : jsstring -> result (option Product).
Variable findById : jsstring -> result (option Product).
Variable generateProductSeoTags : Product -> jsstring -> result SeoTagSet.
Variable createMetaTagsHtml : SeoTagSet -> result jsstring.

(** When the product is found and its tag-set generated, the document that
    the injector returns is the one the nine steps leave. *)
Lemma inject_found html pathname baseUrl slug product seoData rendered :
  extractProductSlug pathname = Some slug ->
  lookup findOne findById slug = Ok (Some product) ->
  generateProductSeoTags product baseUrl = Ok seoData ->
  createMetaTagsHtml seoData = Ok rendered ->
  fst (injectMetaTags findOne findById generateProductSeoTags
         createMetaTagsHtml html pathname baseUrl) =
  snd (exec_steps (pipeline seoData) html).
Proof.
  intros Hs Hl Hg Hr. rewrite (inject_cases _ _ _ _ _ _ _ _ _ Hs), Hl, Hg, Hr.
  now destruct (exec_steps (pipeline seoData) html).
Qed.


End Found.

Lemma step_keywords_plugin_eq sd html :
  step_keywords_plugin sd html = step_keywords sd html.
Proof.
  unfold step_keywords_plugin, step_keywords.
  destruct (truthy (keywords sd)); [|reflexivity].
  now destruct (includes html (jsq "name='keywords'")).
Qed.

Section Keywords.

Variable Product : Type.
Variable findOne : jsstring -> result (option Product).
Variable findById : jsstring -> result (option Product).
Variable generateProductSeoTags : Product -> jsstring -> result SeoTagSet.
Variable createMetaTagsHtml : SeoTagSet -> result jsstring.
Variable fetch : jsstring -> result (response Product).

(** The plugin, by cases on the answer of the backend and on the outcome of
    the generator. *)
Lemma plugin_cases html pathname slug :
  extractProductSlug pathname = Some slug ->
  let url := product_url slug in
  transformIndexHtml fetch generateProductSeoTags html pathname =
  match fetch url with
  | Throw => (html, [Fetch url; ConsoleWarn])
  | Ok (Response false _) => (html, [Fetch url])
  | Ok (Response true Throw) => (html, [Fetch url; ConsoleWarn])
  | Ok (Response true (Ok None)) => (html, [Fetch url])
  | Ok (Response true (Ok (Some product))) =>
      match generateProductSeoTags product (js "http://localhost:8080") with
      | Throw => (html, [Fetch url; ConsoleWarn])
      | Ok seoData =>
          let (ok, html') := exec_steps (five seoData) html in
          (html', Fetch url :: if ok then [] else [ConsoleWarn])
      end
  end.
Proof.
  intros Es url. unfold transformIndexHtml.
  rewrite Es, (extracted_truthy _ _ Es). cbn [negb].
  unfold transformIndexHtml_try. fold (product_url slug). fold url.
  unfold mbind at 1, call at 1. cbn [var_html trace app].
  destruct (fetch url) as [[[|] [[p|]|]]|]; cbn [ok json_data];
    try reflexivity.
  unfold mbind at 1, lift at 1. unfold mbind at 1, lift at 1.
  destruct (generateProductSeoTags p _) as [sd|]; [|reflexivity].
  unfold five, exec_steps, mbind, assign_html. cbn [var_html trace].
  destruct (step_title sd html) as [h1|]; [|reflexivity].
  cbn [var_html trace].
  destruct (step_description sd h1) as [h2|]; [|reflexivity].
  cbn [var_html trace].
  destruct (step_og_title sd h2) as [h3|]; [|reflexivity].
  cbn [var_html trace].
  destruct (step_og_description sd h3) as [h4|]; [|reflexivity].
  cbn [var_html trace].
  destruct (step_keywords_plugin sd h4) as [h5|]; reflexivity.
Qed.

(** C2, as amended.  For a product that is found, the document that the
    injector returns is the one left by its nine statements, of which the
    keywords step is the fifth; the document that the plugin returns is the
    one left by its five statements, of which the keywords step, written
    otherwise but computing the same, is the fifth.  The keywords step, with
    a non-empty keywords value: when the document contains the text
    [name='keywords'], the first tag made of [<meta], [name='keywords'] and
    [content='...'], in this order, is replaced (and a document without a
    tag of this form is left as it is: nothing is inserted); otherwise the
    new tag, after four spaces and before a line feed, is put just before
    the first [</head>] (and a document without [</head>] is left as it
    is).  With an empty or absent keywords value the step changes
    nothing. *)
Theorem keywords_replaced_or_inserted seoData :
  (forall html pathname baseUrl slug product rendered,
     extractProductSlug pathname = Some slug ->
     lookup findOne findById slug = Ok (Some product) ->
     generateProductSeoTags product baseUrl = Ok seoData ->
     createMetaTagsHtml seoData = Ok rendered ->
     fst (injectMetaTags findOne findById generateProductSeoTags
            createMetaTagsHtml html pathname baseUrl) =
     snd (exec_steps (pipeline seoData) html)) /\
  (forall html pathname slug product,
     extractProductSlug pathname = Some slug ->
     fetch (product_url slug) = Ok (Response true (Ok (Some product))) ->
     generateProductSeoTags product (js "http://localhost:8080")
     = Ok seoData ->
     fst (transformIndexHtml fetch generateProductSeoTags html pathname) =
     snd (exec_steps (five seoData) html)) /\
  nth_error (pipeline seoData) 4 = Some (step_keywords seoData) /\
  nth_error (five seoData) 4 = Some (step_keywords_plugin seoData) /\
  (forall html,
     step_keywords_plugin seoData html = step_keywords seoData html) /\
  (forall html k, keywords seoData = Some k -> k <> [] ->
     let tag := jsq "<meta name='keywords' content='" ++ escape k ++
                jsq "' />" in
     (includes html (jsq "name='keywords'") = true ->
      (absent keywords_shape html -> step_keywords seoData html = Ok html) /\
      (forall pre m post, first_occurrence keywords_shape html pre m post ->
         step_keywords seoData html =
         Ok (pre ++ getSubstitution tag pre m post ++ post))) /\
     (includes html (jsq "name='keywords'") = false ->
      (forall pre post,
         html = pre ++ js "</head>" ++ post ->
         (forall pre' post', html = pre' ++ js "</head>" ++ post' ->
                             length pre <= length pre') ->
         step_keywords seoData html =
         Ok (pre ++ (js "    " ++ tag ++ [newline]) ++ js "</head>" ++ post)) /\
      (includes html (js "</head>") = false ->
       step_keywords seoData html = Ok html))) /\
  (forall html,
     keywords seoData = None \/ keywords seoData = Some [] ->
     step_keywords seoData html = Ok html).
Proof.
  split; [|split; [|split; [|split; [|split; [|split]]]]].
  - intros html pathname baseUrl slug product rendered Hs Hl Hg Hr.
    now apply (inject_found _ _ _ _ _ html pathname baseUrl slug product
                 seoData rendered).
  - intros html pathname slug product Hs Hf Hg.
    rewrite (plugin_cases html pathname slug Hs). cbv zeta.
    rewrite Hf, Hg. now destruct (exec_steps (five seoData) html).
  - reflexivity.
  - reflexivity.
  - intros html. apply step_keywords_plugin_eq.
  - intros html k Hk Hne tag. rewrite (step_keywords_eq _ _ _ Hk Hne). split.
    + intros ->. split.
      * intros Ha. now rewrite (replace_absent keywords_re keywords_shape)
          by (assumption || apply keywords_matches_shape).
      * intros pre m post Ho.
        now rewrite (replace_first_occurrence keywords_re keywords_shape
                       _ _ pre m post)
          by (assumption || apply keywords_matches_shape).
    + intros ->. split.
      * intros pre post Hh Hmin.
        assert (Hi : indexOf (js "</head>") html = Some (length pre)).
        { apply indexOf_Some. split.
          - now exists pre, post.
          - intros j (pre' & post' & Hh' & <-). now apply (Hmin pre' post'). }
        rewrite Hi, Hh, firstn_length_app, skipn_length_app.
        unfold tag. now rewrite <- !app_assoc.
      * unfold includes. now destruct (indexOf (js "</head>") html).
  - intros html. apply step_keywords_falsy.
Qed.

End Keywords.

(** C3, as amended.  The title step replaces the first [<title>] element
    whose text has no [<], and only it; the description step replaces the
    first tag made of [<meta], white space, [name='description'], white
    space, [content='], a value, the closing quote, optional white space, an
    optional slash and [>], letters in either case, and only it.  A document
    without such a piece is left as it is.  The attribute [name] comes
    before [content]. *)
Theorem always_replace_first_occurrence seoData :
  (forall t, title seoData = Some t ->
     replaces_first (step_title seoData) title_shape
       (js "<title>" ++ escape t ++ js "</title>")) /\
  (forall d, description seoData = Some d ->
     replaces_first (step_description seoData) description_shape
       (jsq "<meta name='description' content='" ++ escape d ++ jsq "' />")).
Proof.
  split.
  - intros t Ht. apply (unconditional_step title_re);
      [apply title_matches_shape|].
    intros h. now apply step_title_eq.
  - intros d Hd. apply (unconditional_step description_re);
      [apply description_matches_shape|].
    intros h. now apply step_description_eq.
Qed.

(** ** A step applied to its own result *)

Lemma app_split_lt (A : Type) (a b c d : list A) :
  a ++ b = c ++ d -> length c < length a ->
  exists u, u <> [] /\ a = c ++ u /\ d = u ++ b.
Proof.
  revert c; induction a as [|x a IH]; intros c H Hl; [simpl in Hl; lia|].
  destruct c as [|y c].
  - exists (x :: a). split; [discriminate|]. split; [reflexivity|].
    simpl in H. now symmetry.
  - injection H as -> H. simpl in Hl.
    destruct (IH c H ltac:(lia)) as (u & Hu & -> & ->).
    now exists u.
Qed.

Lemma app_split_ge (A : Type) (a b c d : list A) :
  a ++ b = c ++ d -> length a <= length c ->
  exists v, c = a ++ v /\ b = v ++ d.
Proof.
  revert c; induction a as [|x a IH]; intros c H Hl.
  - exists c. now split.
  - destruct c as [|y c]; [simpl in Hl; lia|].
    injection H as -> H. simpl in Hl.
    destruct (IH c H ltac:(lia)) as (v & -> & ->). now exists v.
Qed.

(** Once the first match of [re] has been replaced by a text [t] that is
    itself matched by [re], and whose beginning [p] blocks the pattern, the
    first match of [re] is that text. *)
Lemma first_match_rewritten re P ok its t p t' s pre m post :
  linear re -> matches_shape re P -> items_of re = IOne ok :: its ->
  t = p ++ t' -> blocks its p = true -> P t ->
  first_match re s pre m post ->
  first_match re (pre ++ t ++ post) pre t post.
Proof.
  intros Hl HP Hi Ht Hb HPt (Hs & _ & Hmin). split; [reflexivity|]. split.
  - exists []. apply HP. repeat split; auto. now exists post.
  - intros pre' suf' Hsplit Hlt.
    destruct (app_split_lt _ _ _ _ _ Hsplit Hlt) as (u & Hu & -> & ->).
    rewrite (match_at_linear _ _ _ Hl).
    destruct (run (items_of re) (u ++ t ++ post)) as [n|] eqn:E; [|reflexivity].
    exfalso. rewrite Hi in E.
    assert (Hn : n <= length u).
    { rewrite Ht, <- app_assoc in E. eapply run_blocked; eauto. }
    apply (run_local _ _ _ (m ++ post)) in E; [|assumption].
    specialize (Hmin pre' (u ++ m ++ post)).
    rewrite (match_at_linear _ _ _ Hl), Hi, E in Hmin.
    rewrite Hs, <- app_assoc in Hmin.
    specialize (Hmin eq_refl Hlt). discriminate.
Qed.

Lemma replace_settles re P ok its t p t' :
  linear re -> matches_shape re P -> items_of re = IOne ok :: its ->
  t = p ++ t' -> blocks its p = true -> P t -> ~ In dollar t ->
  forall s, replace re t (replace re t s) = replace re t s /\
            (replace re t s = s \/
             exists pre post, replace re t s = pre ++ t ++ post).
Proof.
  intros Hl HP Hi Ht Hb HPt Hd s.
  destruct (match_cases re s) as [Hno | (pre & m & post & Hm)].
  - rewrite (replace_no_match _ _ _ Hno). split; [|now left].
    now apply replace_no_match.
  - rewrite (replace_first_match _ _ _ _ _ _ Hm).
    rewrite getSubstitution_plain by assumption. split.
    + pose proof (first_match_rewritten _ _ _ _ _ _ _ _ _ _ _
                    Hl HP Hi Ht Hb HPt Hm) as Hm'.
      rewrite (replace_first_match _ _ _ _ _ _ Hm').
      now rewrite getSubstitution_plain.
    + right. now exists pre, post.
Qed.

Lemma escape_no_dollar v : ~ In dollar v -> ~ In dollar (escape v).
Proof.
  induction v as [|x v IH]; intros Hd; [intros []|].
  unfold escape in *. cbn [flat_map]. rewrite in_app_iff. intros [H|H].
  - destruct (N.eqb x dq).
    + revert H. vm_compute. intuition discriminate.
    + destruct H as [H|[]]. apply Hd. now left.
  - revert H. apply IH. intros H. apply Hd. now right.
Qed.

Lemma escape_no_lt v : ~ In lt_sign v -> ~ In lt_sign (escape v).
Proof.
  induction v as [|x v IH]; intros Hd; [intros []|].
  unfold escape in *. cbn [flat_map]. rewrite in_app_iff. intros [H|H].
  - destruct (N.eqb x dq).
    + revert H. vm_compute. intuition discriminate.
    + destruct H as [H|[]]. apply Hd. now left.
  - revert H. apply IH. intros H. apply Hd. now right.
Qed.

Lemma not_in_app (A : Type) (x : A) (a b : list A) :
  ~ In x a -> ~ In x b -> ~ In x (a ++ b).
Proof. rewrite in_app_iff. tauto. Qed.

Lemma same_letters_refl l : same_letters true l l.
Proof.
  induction l; constructor; [|assumption].
  unfold char_matches. apply N.eqb_refl.
Qed.

(** The text that a tag step writes has the shape that the step looks
    for. *)
Lemma written_tag_shape elem a1 a2 v :
  ~ In dq v ->
  tag_shape elem a1 a2
    ((elem ++ js " " ++ a1 ++ js " " ++ a2) ++ v ++ jsq "' />").
Proof.
  intros Hv.
  exists elem, (js " "), a1, (js " "), a2, v, (js " "), [slash].
  repeat split; try apply same_letters_refl; auto; try discriminate.
  - now rewrite <- !app_assoc.
  - repeat constructor.
  - repeat constructor.
  - repeat constructor.
Qed.

Lemma written_title_shape v :
  ~ In lt_sign v -> title_shape (js "<title>" ++ v ++ js "</title>").
Proof. intros Hv. now exists v. Qed.

Lemma conditional_settles re P ok its attr a b t
    (step : jsstring -> result jsstring) :
  linear re -> matches_shape re P -> items_of re = IOne ok :: its ->
  blocks its (a ++ attr ++ b) = true ->
  P ((a ++ attr ++ b) ++ t) -> ~ In dollar ((a ++ attr ++ b) ++ t) ->
  (forall html, step html =
     if includes html attr
     then Ok (replace re ((a ++ attr ++ b) ++ t) html) else Ok html) ->
  settles step.
Proof.
  intros Hl HP Hi Hb HPt Hd Hstep h h1. rewrite !Hstep.
  destruct (includes h attr) eqn:Einc.
  - intros [= <-].
    destruct (replace_settles re P ok its _ _ t Hl HP Hi eq_refl Hb HPt Hd h)
      as [Hidem Hform].
    destruct Hform as [E | (pre & post & E)].
    + rewrite E, Einc. now rewrite E.
    + assert (Hin : includes (replace re ((a ++ attr ++ b) ++ t) h) attr = true).
      { rewrite E. apply includes_true.
        exists (pre ++ a), (b ++ t ++ post). now rewrite <- !app_assoc. }
      now rewrite Hin, Hidem.
  - intros [= <-]. now rewrite Einc.
Qed.

Ltac no_dollar_literal := vm_compute; intuition discriminate.

Ltac tag_settles re P lin shp elem a2 a attr b v eqn :=
  apply (conditional_settles re P (char_matches true lt_sign)
           (tl (items_of re)) attr a b (escape v ++ jsq "' />"));
  [ apply lin | apply shp | reflexivity | vm_compute; reflexivity
  | exact (written_tag_shape elem attr a2 (escape v) (escape_quote_free v))
  | apply not_in_app; [no_dollar_literal|];
    apply not_in_app; [now apply escape_no_dollar | no_dollar_literal]
  | intros h; now apply eqn ].

Lemma og_title_settles sd t :
  ogTitle sd = Some t -> ~ In dollar t -> settles (step_og_title sd).
Proof.
  intros Ht Hd.
  tag_settles og_title_re og_title_shape og_title_linear
    og_title_matches_shape
    (js "<meta") (jsq "content='")
    (js "<meta ") (jsq "property='og:title'") (jsq " content='") t
    step_og_title_eq.
Qed.

Lemma og_description_settles sd d :
  ogDescription sd = Some d -> ~ In dollar d ->
  settles (step_og_description sd).
Proof.
  intros Ht Hd.
  tag_settles og_description_re og_description_shape og_description_linear
    og_description_matches_shape
    (js "<meta") (jsq "content='")
    (js "<meta ") (jsq "property='og:description'") (jsq " content='") d
    step_og_description_eq.
Qed.

Lemma twitter_title_settles sd t :
  ogTitle sd = Some t -> ~ In dollar t -> settles (step_twitter_title sd).
Proof.
  intros Ht Hd.
  tag_settles twitter_title_re twitter_title_shape twitter_title_linear
    twitter_title_matches_shape
    (js "<meta") (jsq "content='")
    (js "<meta ") (jsq "name='twitter:title'") (jsq " content='") t
    step_twitter_title_eq.
Qed.

Lemma twitter_description_settles sd d :
  ogDescription sd = Some d -> ~ In dollar d ->
  settles (step_twitter_description sd).
Proof.
  intros Ht Hd.
  tag_settles twitter_description_re twitter_description_shape
    twitter_description_linear twitter_description_matches_shape
    (js "<meta") (jsq "content='")
    (js "<meta ") (jsq "name='twitter:description'") (jsq " content='") d
    step_twitter_description_eq.
Qed.

Lemma og_image_settles sd i :
  ogImage sd = Some i -> ~ In dollar i -> settles (step_og_image sd).
Proof.
  intros Ht Hd.
  tag_settles og_image_re og_image_shape og_image_linear
    og_image_matches_shape
    (js "<meta") (jsq "content='")
    (js "<meta ") (jsq "property='og:image'") (jsq " content='") i
    step_og_image_eq.
Qed.

Lemma canonical_settles sd c :
  canonicalUrl sd = Some c -> ~ In dollar c -> settles (step_canonical sd).
Proof.
  intros Ht Hd.
  tag_settles canonical_re canonical_shape canonical_linear
    canonical_matches_shape
    (js "<link") (jsq "href='")
    (js "<link ") (jsq "rel='canonical'") (jsq " href='") c
    step_canonical_eq.
Qed.

Lemma description_settles sd d :
  description sd = Some d -> ~ In dollar d -> settles (step_description sd).
Proof.
  intros Hd Hdol h h1. rewrite !(step_description_eq _ _ _ Hd). intros [= <-].
  f_equal.
  apply (replace_settles description_re description_shape
           (char_matches true lt_sign) (tl (items_of description_re))
           (jsq "<meta name='description' content='" ++ escape d ++ jsq "' />")
           (jsq "<meta name='description' content='")
           (escape d ++ jsq "' />")).
  - apply description_linear.
  - apply description_matches_shape.
  - reflexivity.
  - reflexivity.
  - vm_compute; reflexivity.
  - exact (written_tag_shape (js "<meta") (jsq "name='description'")
             (jsq "content='") (escape d) (escape_quote_free d)).
  - apply not_in_app; [no_dollar_literal|].
    apply not_in_app; [now apply escape_no_dollar | no_dollar_literal].
Qed.

Lemma title_settles sd t :
  title sd = Some t -> ~ In dollar t -> ~ In lt_sign t ->
  settles (step_title sd).
Proof.
  intros Ht Hdol Hlt h h1. rewrite !(step_title_eq _ _ _ Ht). intros [= <-].
  f_equal.
  apply (replace_settles title_re title_shape
           (char_matches false lt_sign) (tl (items_of title_re))
           (js "<title>" ++ escape t ++ js "</title>")
           (js "<title>") (escape t ++ js "</title>")).
  - apply title_linear.
  - apply title_matches_shape.
  - reflexivity.
  - reflexivity.
  - vm_compute; reflexivity.
  - apply written_title_shape. now apply escape_no_lt.
  - apply not_in_app; [no_dollar_literal|].
    apply not_in_app; [now apply escape_no_dollar | no_dollar_literal].
Qed.

(** After a tag has been inserted behind some white space in a document
    that had no match, the first match is the inserted tag. *)
Lemma first_match_inserted re P ok its sp tag p t' nl pre post :
  linear re -> matches_shape re P -> items_of re = IOne ok :: its ->
  (forall x, is_space x = true -> ok x = false) -> spaces sp ->
  tag = p ++ t' -> blocks its (sp ++ p) = true -> P tag ->
  no_match re (pre ++ post) ->
  first_match re (pre ++ sp ++ tag ++ nl ++ post) (pre ++ sp) tag (nl ++ post).
Proof.
  intros Hl HP Hi Hok Hsp Ht Hb HPt Hno. split; [now rewrite <- app_assoc|].
  split.
  - exists []. apply HP. repeat split; auto. now exists (nl ++ post).
  - intros pre' suf' Hsplit Hlt. rewrite (match_at_linear _ _ _ Hl), Hi.
    destruct (Nat.lt_ge_cases (length pre') (length pre)) as [Hlt'|Hge].
    + destruct (app_split_lt _ _ _ _ _ Hsplit Hlt') as (u & Hu & -> & ->).
      destruct (run (IOne ok :: its) (u ++ sp ++ tag ++ nl ++ post)) as [n|] eqn:E;
        [|reflexivity].
      exfalso.
      assert (Hn : n <= length u).
      { apply (run_blocked ok its u (sp ++ p) (t' ++ nl ++ post) n Hb Hu).
        rewrite <- E, Ht, <- !app_assoc. reflexivity. }
      apply (run_local _ _ _ post) in E; [|assumption].
      specialize (Hno pre' (u ++ post)).
      rewrite (match_at_linear _ _ _ Hl), Hi, E, <- app_assoc in Hno.
      specialize (Hno eq_refl). discriminate.
    + destruct (app_split_ge _ _ _ _ _ Hsplit Hge) as (v & -> & Hv).
      rewrite length_app in Hlt. rewrite length_app in Hlt.
      assert (Hlv : length v < length sp) by lia.
      destruct (app_split_lt _ _ _ _ _ Hv Hlv) as (u & Hu & Hsp' & ->).
      destruct u as [|x u]; [congruence|].
      assert (Hx : is_space x = true).
      { unfold spaces in Hsp. rewrite Hsp' in Hsp.
        apply Forall_app in Hsp. destruct Hsp as [_ Hsp].
        now apply Forall_cons_iff in Hsp. }
      cbn [app run feed]. now rewrite (Hok x Hx).
Qed.

Lemma keywords_settles sd k html html' :
  keywords sd = Some k -> ~ In dollar k ->
  includes html (jsq "name='keywords'") = true \/ absent keywords_shape html ->
  step_keywords sd html = Ok html' -> step_keywords sd html' = Ok html'.
Proof.
  intros Hk Hdol Hdoc.
  destruct k as [|c k0].
  { rewrite !step_keywords_falsy by auto. now intros [= <-]. }
  set (k := c :: k0) in *. assert (Hne : k <> []) by discriminate.
  set (tag := jsq "<meta name='keywords' content='" ++ escape k ++ jsq "' />").
  assert (Hshape : keywords_shape tag).
  { exact (written_tag_shape (js "<meta") (jsq "name='keywords'")
             (jsq "content='") (escape k) (escape_quote_free k)). }
  assert (Hplain : ~ In dollar tag).
  { apply not_in_app; [no_dollar_literal|].
    apply not_in_app; [now apply escape_no_dollar | no_dollar_literal]. }
  assert (Hin : forall pre post,
            includes (pre ++ tag ++ post) (jsq "name='keywords'") = true).
  { intros pre post. apply includes_true.
    exists (pre ++ js "<meta "),
           (jsq " content='" ++ escape k ++ jsq "' />" ++ post).
    unfold tag. now rewrite <- !app_assoc. }
  rewrite !(step_keywords_eq _ _ _ Hk Hne). fold tag.
  destruct (includes html (jsq "name='keywords'")) eqn:Einc.
  - intros [= <-].
    destruct (replace_settles keywords_re keywords_shape
                (char_matches true lt_sign) (tl (items_of keywords_re))
                tag (jsq "<meta name='keywords' content='")
                (escape k ++ jsq "' />")
                keywords_linear keywords_matches_shape eq_refl eq_refl
                ltac:(vm_compute; reflexivity) Hshape Hplain html)
      as [Hidem [E | (pre & post & E)]].
    + rewrite E, Einc. now rewrite E.
    + rewrite Hidem. now rewrite E, Hin, <- E.
  - destruct Hdoc as [|Habs]; [discriminate|].
    destruct (indexOf (js "</head>") html) as [i|] eqn:Ei.
    + intros Heq.
      set (pre := firstn i html) in *. set (post := skipn i html) in *.
      assert (Hno : no_match keywords_re (pre ++ post)).
      { unfold pre, post. rewrite firstn_skipn.
        now apply (no_match_absent keywords_re keywords_shape
                     html keywords_matches_shape). }
      pose proof (first_match_inserted keywords_re keywords_shape
                    (char_matches true lt_sign) (tl (items_of keywords_re))
                    (js "    ") tag (jsq "<meta name='keywords' content='")
                    (escape k ++ jsq "' />") [newline] pre post
                    keywords_linear keywords_matches_shape eq_refl) as Hfm.
      assert (Hm : first_match keywords_re
                     (pre ++ js "    " ++ tag ++ [newline] ++ post)
                     (pre ++ js "    ") tag ([newline] ++ post)).
      { apply Hfm; auto.
        - intros x Hx. now apply space_not_char.
        - repeat constructor. }
      assert (E : html' = pre ++ js "    " ++ tag ++ [newline] ++ post).
      { assert (Hinj : forall a b : jsstring, Ok a = Ok b -> a = b)
          by (intros a b [= ->]; reflexivity).
        apply Hinj in Heq. rewrite <- Heq. unfold tag.
        change (jsq "    <meta name='keywords' content='")
          with (js "    " ++ jsq "<meta name='keywords' content='").
        now rewrite <- !app_assoc. }
      clear Heq. rewrite E.
      replace (includes (pre ++ js "    " ++ tag ++ [newline] ++ post)
                 (jsq "name='keywords'")) with true.
      2:{ symmetry. rewrite (app_assoc pre (js "    ")). apply Hin. }
      rewrite (replace_first_match _ _ _ _ _ _ Hm).
      rewrite getSubstitution_plain by assumption.
      now rewrite <- !app_assoc.
    + intros [= <-]. now rewrite Einc, Ei.
Qed.

(** Each step on its own, whatever the document.  When the values contain
    no dollar sign (and the title no [<]), each of the nine steps, applied
    to a document that it has produced, leaves that document as it is.  For
    keywords this holds on a document that contains the text
    [name='keywords'] or has no keywords tag in any letter case. *)
Lemma steps_settle seoData :
  (forall t, title seoData = Some t -> ~ In dollar t -> ~ In lt_sign t ->
     settles (step_title seoData)) /\
  (forall d, description seoData = Some d -> ~ In dollar d ->
     settles (step_description seoData)) /\
  (forall k html html', keywords seoData = Some k -> ~ In dollar k ->
     includes html (jsq "name='keywords'") = true \/
     absent keywords_shape html ->
     step_keywords seoData html = Ok html' ->
     step_keywords seoData html' = Ok html') /\
  (forall t, ogTitle seoData = Some t -> ~ In dollar t ->
     settles (step_og_title seoData) /\
     settles (step_twitter_title seoData)) /\
  (forall d, ogDescription seoData = Some d -> ~ In dollar d ->
     settles (step_og_description seoData) /\
     settles (step_twitter_description seoData)) /\
  (forall i, ogImage seoData = Some i -> ~ In dollar i ->
     settles (step_og_image seoData)) /\
  (forall c, canonicalUrl seoData = Some c -> ~ In dollar c ->
     settles (step_canonical seoData)).
Proof.
  split; [|split; [|split; [|split; [|split; [|split]]]]].
  - intros t. apply title_settles.
  - intros d. apply description_settles.
  - intros k html html'. apply keywords_settles.
  - intros t Ht Hd. split;
      [eapply og_title_settles | eapply twitter_title_settles]; eassumption.
  - intros d Ht Hd. split;
      [eapply og_description_settles | eapply twitter_description_settles];
      eassumption.
  - intros i. apply og_image_settles.
  - intros c. apply canonical_settles.
Qed.

(** ** The injector applied twice *)

(** The steps rewrite pieces of text that begin with [<].  In a document
    where no [<] stands between double quotes such pieces do not overlap:
    a step leaves the first tag of every other kind where it is.  Once all
    the steps have run, the first tag of each kind is the one that its step
    writes, and a second run changes nothing. *)

Lemma odd_quotes_app u w :
  odd_quotes (u ++ w) = xorb (odd_quotes u) (odd_quotes w).
Proof.
  induction u as [|c u IH]; cbn [app odd_quotes].
  - now destruct (odd_quotes w).
  - rewrite IH. now rewrite xorb_assoc.
Qed.

Lemma outside_app q u w :
  outside q (u ++ w) = outside q u && outside (xorb q (odd_quotes u)) w.
Proof.
  revert q; induction u as [|c u IH]; intros q; cbn [app outside odd_quotes].
  - now rewrite xorb_false_r.
  - destruct (N.eqb c dq); cbn [xorb].
    + rewrite IH. f_equal. f_equal.
      now destruct q, (odd_quotes u).
    + destruct (N.eqb c lt_sign).
      * rewrite IH. now rewrite andb_assoc.
      * apply IH.
Qed.

Lemma odd_quotes_dq_free v : ~ In dq v -> odd_quotes v = false.
Proof.
  induction v as [|c v IH]; intros H; [reflexivity|]. cbn [odd_quotes].
  destruct (N.eqb_spec c dq) as [->|_].
  - exfalso. apply H. now left.
  - apply IH. intros Hin. apply H. now right.
Qed.

Lemma outside_lt_free q v : ~ In lt_sign v -> outside q v = true.
Proof.
  revert q; induction v as [|c v IH]; intros q H; [reflexivity|].
  assert (Hv : ~ In lt_sign v) by (intros Hin; apply H; now right).
  cbn [outside]. destruct (N.eqb c dq); [now apply IH|].
  destruct (N.eqb_spec c lt_sign) as [->|_].
  - exfalso. apply H. now left.
  - now apply IH.
Qed.

Lemma inside_lt_free v : outside true v = true -> ~ In dq v -> ~ In lt_sign v.
Proof.
  induction v as [|c v IH]; intros Ho Hd; [intros []|].
  assert (Hv : ~ In dq v) by (intros Hin; apply Hd; now right).
  cbn [outside] in Ho. destruct (N.eqb_spec c dq) as [->|_].
  - exfalso. apply Hd. now left.
  - destruct (N.eqb_spec c lt_sign) as [->|Hc]; [discriminate|].
    intros [E|Hin]; [congruence|]. now apply IH.
Qed.

(** Two pieces that begin with [<] and whose further [<] begin [</t] do not
    overlap, unless they begin at the same place. *)
Lemma overlap p m a b pre post :
  head_ok p -> inner_ok p -> head_ok m -> inner_ok m ->
  a ++ p ++ b = pre ++ m ++ post ->
  (exists b0, pre = a ++ p ++ b0 /\ b = b0 ++ m ++ post) \/
  (exists a0, post = a0 ++ p ++ b /\ a = pre ++ m ++ a0) \/
  a = pre.
Proof.
  intros (p1 & p2 & pt & Hp & Hph) Hpi (m1 & m2 & mt & Hm & Hmh) Hmi H.
  apply app_eq_app in H. destruct H as [l [[-> H] | [-> H]]].
  - destruct l as [|x l]; [right; right; now rewrite app_nil_r|].
    apply app_eq_app in H. destruct H as [l2 [[Hm' H] | [Hl ->]]].
    + destruct l2 as [|y l2].
      * right; left. exists []. rewrite app_nil_r in Hm'.
        simpl in H. split; [now rewrite H|]. now rewrite Hm', app_nil_r.
      * exfalso. rewrite Hp in H. cbn [app] in H. injection H as <- H.
        rewrite Hm in Hm'. cbn [app] in Hm'. injection Hm' as <- Hm'.
        destruct (Hmi l (l2)) as [w' ->].
        { rewrite Hm. cbn [tl]. exact Hm'. }
        cbn [app] in H. injection H as -> ->. destruct Hph; congruence.
    + right; left. exists l2. split; [reflexivity|]. now rewrite Hl.
  - destruct l as [|x l]; [right; right; now rewrite app_nil_r|].
    apply app_eq_app in H. destruct H as [l2 [[Hp' H] | [Hl ->]]].
    + destruct l2 as [|y l2].
      * left. exists []. rewrite app_nil_r in Hp'.
        simpl in H. split; [now rewrite Hp', app_nil_r|]. now rewrite H.
      * exfalso. rewrite Hm in H. cbn [app] in H. injection H as <- H.
        rewrite Hp in Hp'. cbn [app] in Hp'. injection Hp' as <- Hp'.
        destruct (Hpi l l2) as [w' ->].
        { rewrite Hp. cbn [tl]. exact Hp'. }
        cbn [app] in H. injection H as -> ->. destruct Hmh; congruence.
    + left. exists l2. split; [|reflexivity]. now rewrite Hl.
Qed.

Lemma transfer_first (P : jsstring -> Prop) pre m W post pre' p post' :
  (forall q, P q -> q <> []) ->
  avoids P pre m post -> avoids P pre W post ->
  first_occurrence P (pre ++ W ++ post) pre' p post' ->
  exists pre0 post0, first_occurrence P (pre ++ m ++ post) pre0 p post0.
Proof.
  intros Hne Hm HW (Hs & Hp & Hmin).
  destruct (HW pre' p post' Hp (eq_sym Hs))
    as [(b0 & E1 & E2) | (a0 & E1 & E2)].
  - exists pre', (b0 ++ m ++ post). split; [|split; [assumption|]].
    + rewrite E1. now rewrite <- !app_assoc.
    + intros a q b Hs' Hq.
      destruct (Hm a q b Hq (eq_sym Hs')) as [(b1 & F1 & F2) | (a1 & F1 & F2)].
      * apply (Hmin a q (b1 ++ W ++ post)); [|assumption].
        rewrite F1. now rewrite <- !app_assoc.
      * rewrite F2, E1. rewrite !length_app. lia.
  - exists (pre ++ m ++ a0), post'. split; [|split; [assumption|]].
    + rewrite E1. now rewrite <- !app_assoc.
    + intros a q b Hs' Hq.
      destruct (Hm a q b Hq (eq_sym Hs')) as [(b1 & F1 & F2) | (a1 & F1 & F2)].
      * exfalso.
        assert (Hle : length pre' <= length a).
        { apply (Hmin a q (b1 ++ W ++ post)); [|assumption].
          rewrite F1. now rewrite <- !app_assoc. }
        apply Hne in Hq. destruct q; [congruence|].
        rewrite E2 in Hle. rewrite F1 in Hle.
        rewrite !length_app in Hle. simpl in Hle. lia.
      * assert (Hle : length pre' <= length (pre ++ W ++ a1)).
        { apply (Hmin (pre ++ W ++ a1) q b); [|assumption].
          rewrite F1. now rewrite <- !app_assoc. }
        rewrite E2 in Hle. rewrite F2. rewrite !length_app in *. lia.
Qed.

Lemma transfer_absent (P : jsstring -> Prop) pre m W post :
  avoids P pre W post ->
  absent P (pre ++ m ++ post) -> absent P (pre ++ W ++ post).
Proof.
  intros HW Ha a p b Hs Hp.
  destruct (HW a p b Hp (eq_sym Hs)) as [(b0 & E1 & E2) | (a0 & E1 & E2)].
  - apply (Ha a p (b0 ++ m ++ post)); [|assumption].
    rewrite E1. now rewrite <- !app_assoc.
  - apply (Ha (pre ++ m ++ a0) p b); [|assumption].
    rewrite E1. now rewrite <- !app_assoc.
Qed.

Lemma char_matches_sym ic a x : char_matches ic a x = char_matches ic x a.
Proof. unfold char_matches. apply N.eqb_sym. Qed.

Lemma char_matches_trans ic a x b :
  char_matches ic a x = true -> char_matches ic b x = true ->
  char_matches ic a b = true.
Proof. unfold char_matches. rewrite !N.eqb_eq. congruence. Qed.

Lemma matches_symbol_iff ic a x c :
  (c < 65)%N -> char_matches ic a x = true -> (x = c <-> a = c).
Proof.
  intros Hc H. split; intros ->.
  - rewrite char_matches_sym in H. now apply char_matches_symbol in H.
  - now apply char_matches_symbol in H.
Qed.

Lemma same_letters_eqb ic l e c :
  (c < 65)%N -> same_letters ic l e ->
  map (fun x => N.eqb x c) e = map (fun x => N.eqb x c) l.
Proof.
  intros Hc. induction 1 as [|a x l e Hax _ IH]; [reflexivity|].
  cbn [map]. rewrite IH. f_equal.
  pose proof (matches_symbol_iff ic a x c Hc Hax) as Hiff.
  destruct (N.eqb_spec x c) as [E|E], (N.eqb_spec a c) as [F|F];
    try reflexivity; tauto.
Qed.

Lemma odd_quotes_map s :
  odd_quotes s = fold_right xorb false (map (fun x => N.eqb x dq) s).
Proof. induction s as [|c s IH]; [reflexivity|]. cbn. now rewrite IH. Qed.

Lemma same_letters_quotes ic l e :
  same_letters ic l e -> odd_quotes e = odd_quotes l.
Proof.
  intros H. rewrite !odd_quotes_map.
  now rewrite (same_letters_eqb ic l e dq ltac:(reflexivity) H).
Qed.

Lemma In_eqb_map c (s : jsstring) :
  In c s <-> In true (map (fun x => N.eqb x c) s).
Proof.
  induction s as [|x s IH]; [reflexivity|]. cbn. rewrite IH.
  destruct (N.eqb_spec x c); intuition congruence.
Qed.

Lemma same_letters_In ic l e c :
  (c < 65)%N -> same_letters ic l e -> (In c e <-> In c l).
Proof.
  intros Hc H. rewrite !In_eqb_map.
  now rewrite (same_letters_eqb ic l e c Hc H).
Qed.

Lemma spaces_not_symbol w c :
  is_space c = false -> spaces w -> ~ In c w.
Proof.
  intros Hc Hw Hin. unfold spaces in Hw. rewrite Forall_forall in Hw.
  apply Hw in Hin. congruence.
Qed.

Lemma same_letters_agree l l' e e' R R' :
  same_letters true l e -> same_letters true l' e' ->
  e ++ R = e' ++ R' -> agree l l' = true.
Proof.
  intros H. revert l' e' R R'.
  induction H as [|a x l e Hax _ IH]; intros l' e' R R' H' E;
    [reflexivity|].
  destruct H' as [|a' x' l' e' Hax' H']; [reflexivity|].
  cbn [app] in E. injection E as -> E. cbn [agree].
  rewrite (char_matches_trans true a x' a' Hax Hax'). cbn.
  now apply (IH l' e' R R').
Qed.

Lemma app_same_length (A : Type) (a b c d : list A) :
  a ++ b = c ++ d -> length a = length c -> a = c /\ b = d.
Proof.
  revert c; induction a as [|x a IH]; intros [|y c] H Hl; try discriminate.
  - now split.
  - injection H as -> H. injection Hl as Hl.
    destruct (IH c H Hl) as [-> ->]. now split.
Qed.

Lemma spaces_run w w' x r x' r' :
  spaces w -> spaces w' -> is_space x = false -> is_space x' = false ->
  w ++ x :: r = w' ++ x' :: r' -> w = w' /\ x :: r = x' :: r'.
Proof.
  intros Hw. revert w'. induction Hw as [|y w Hy _ IH]; intros w' Hw' Hx Hx' E.
  - destruct Hw' as [|y' w' Hy' _]; [now split|].
    cbn [app] in E. injection E as -> _. congruence.
  - destruct Hw' as [|y' w' Hy' Hw'].
    + cbn [app] in E. injection E as -> _. congruence.
    + cbn [app] in E. injection E as -> E.
      destruct (IH w' Hw' Hx Hx' E) as [-> ->]. now split.
Qed.

Lemma letters_head_not_space c r n :
  is_space (canonicalize true c) = false -> same_letters true (c :: r) n ->
  exists x t, n = x :: t /\ is_space x = false.
Proof.
  intros Hc H. inversion H as [|a x l e Hax Hrest]; subst.
  exists x, e. split; [reflexivity|].
  destruct (is_space x) eqn:E; [|reflexivity].
  unfold char_matches in Hax. apply N.eqb_eq in Hax.
  rewrite (is_space_canonical true x E) in Hax. congruence.
Qed.

(** Two tags that begin at the same place have elements and first
    attributes that agree. *)
Lemma tag_shapes_agree elem a1 a2 elem' a1' a2' c1 r1 c1' r1' p m b c :
  length elem = length elem' ->
  a1 = c1 :: r1 -> a1' = c1' :: r1' ->
  is_space (canonicalize true c1) = false ->
  is_space (canonicalize true c1') = false ->
  tag_shape elem a1 a2 p -> tag_shape elem' a1' a2' m ->
  p ++ b = m ++ c ->
  agree elem elem' = true /\ agree a1 a1' = true.
Proof.
  intros Hlen Ha Ha' Hc Hc'
    (e & w1 & n & w2 & k & v & w3 & sl & -> & He & Hw1 & _ & Hn & _)
    (e' & w1' & n' & w2' & k' & v' & w3' & sl' & -> & He' & Hw1' & _ & Hn' & _)
    E.
  rewrite <- !app_assoc in E.
  split; [now apply (same_letters_agree _ _ _ _ _ _ He He' E)|].
  apply app_same_length in E.
  2:{ rewrite (same_letters_length _ _ _ He), (same_letters_length _ _ _ He').
      assumption. }
  destruct E as [_ E].
  rewrite Ha in Hn. rewrite Ha' in Hn'.
  destruct (letters_head_not_space _ _ _ Hc Hn) as (x & t & En & Hx).
  destruct (letters_head_not_space _ _ _ Hc' Hn') as (x' & t' & En' & Hx').
  rewrite En, En' in E. cbn [app] in E.
  apply spaces_run in E; try assumption. destruct E as [_ E].
  rewrite Ha, Ha'. rewrite En in Hn. rewrite En' in Hn'.
  eapply same_letters_agree; [exact Hn | exact Hn' | exact E].
Qed.

Lemma tag_parts_wf k e a c :
  tag_parts k = Some (e, a, c) -> shape k = tag_shape e a c /\ tag_wf e a c.
Proof.
  destruct k; cbn [tag_parts]; intros [= <- <- <-];
    (split; [reflexivity|]);
    (split; [reflexivity|]);
    (split; [eexists _, _, _; split; [reflexivity|];
             split; [discriminate | vm_compute; intuition discriminate]|]);
    (split; [vm_compute; intuition discriminate|]);
    (split; [vm_compute; intuition discriminate|]);
    (split; [reflexivity|]);
    eexists _, _; split; reflexivity.
Qed.

Lemma opens_head_ok p : opens p -> head_ok p.
Proof. intros (c1 & c2 & t & -> & H). exists c1, c2, t. auto. Qed.

Lemma spaces_quotes w : spaces w -> odd_quotes w = false.
Proof.
  intros H. apply odd_quotes_dq_free.
  now apply spaces_not_symbol.
Qed.

Lemma tag_piece e a c m q :
  tag_wf e a c -> tag_shape e a c m -> outside q m = true ->
  q = false /\ opens m /\ ~ In lt_sign (tl m) /\ odd_quotes m = false.
Proof.
  intros (_ & (e1 & e2 & et & -> & He1 & Het) & Ha & Hc & Hodd & _)
    (em & w1 & n & w2 & k & v & w3 & sl & -> & Hem & Hw1 & _ & Hn & Hw2 & _ &
     Hk & Hv & Hw3 & Hsl) Hout.
  inversion Hem as [|a0 x0 l0 emt0 Hx0 Hem0]; subst.
  apply (matches_symbol_iff true lt_sign x0 lt_sign) in Hx0; [|reflexivity].
  assert (x0 = lt_sign) by now apply Hx0. subst x0. clear Hx0.
  assert (Hq : q = false).
  { cbn [app outside] in Hout.
    change (N.eqb lt_sign dq) with false in Hout.
    change (N.eqb lt_sign lt_sign) with true in Hout. cbn match in Hout.
    apply andb_true_iff in Hout. destruct Hout as [Hout _].
    now destruct q. }
  subst q. split; [reflexivity|].
  assert (Hhead : odd_quotes ((lt_sign :: emt0) ++ w1 ++ n ++ w2 ++ k) = true).
  { rewrite !odd_quotes_app.
    rewrite (same_letters_quotes _ _ _ Hem), (same_letters_quotes _ _ _ Hn),
      (same_letters_quotes _ _ _ Hk), (spaces_quotes w1 Hw1),
      (spaces_quotes w2 Hw2).
    rewrite !odd_quotes_app in Hodd. rewrite <- Hodd.
    now rewrite !xorb_false_l. }
  assert (Hvlt : ~ In lt_sign v).
  { replace ((lt_sign :: emt0) ++ w1 ++ n ++ w2 ++ k ++ v ++ [dq] ++ w3 ++
             sl ++ [gt_sign])
      with (((lt_sign :: emt0) ++ w1 ++ n ++ w2 ++ k) ++ v ++
            [dq] ++ w3 ++ sl ++ [gt_sign]) in Hout
      by now rewrite <- !app_assoc.
    rewrite outside_app, Hhead in Hout.
    apply andb_true_iff in Hout. destruct Hout as [_ Hout].
    cbn [xorb] in Hout. rewrite outside_app in Hout.
    apply andb_true_iff in Hout. destruct Hout as [Hout _].
    now apply inside_lt_free. }
  inversion Hem0 as [|a1 x1 l1 emt1 Hx1 Hem1]; subst.
  inversion Hem1 as [|a2 x2 l2 emt2 Hx2 Hem2]; subst.
  split; [|split].
  - exists x1, x2, (emt2 ++ w1 ++ n ++ w2 ++ k ++ v ++ [dq] ++ w3 ++ sl ++
                    [gt_sign]).
    split; [reflexivity|]. intros ->.
    apply (matches_symbol_iff true e1 slash slash) in Hx1; [|reflexivity].
    apply He1. now apply Hx1.
  - cbn [app tl].
    assert (Hlt_space : is_space lt_sign = false) by reflexivity.
    intros H.
    change (In lt_sign ((x1 :: x2 :: emt2) ++ w1 ++ n ++ w2 ++ k ++ v ++
                        [dq] ++ w3 ++ sl ++ [gt_sign])) in H.
    rewrite !in_app_iff in H.
    destruct H as [H|[H|[H|[H|[H|[H|[H|[H|[H|H]]]]]]]]].
    + apply (same_letters_In true _ _ lt_sign ltac:(reflexivity) Hem0) in H.
      contradiction.
    + now apply (spaces_not_symbol w1 lt_sign Hlt_space Hw1).
    + apply (same_letters_In true _ _ lt_sign ltac:(reflexivity) Hn) in H.
      contradiction.
    + now apply (spaces_not_symbol w2 lt_sign Hlt_space Hw2).
    + apply (same_letters_In true _ _ lt_sign ltac:(reflexivity) Hk) in H.
      contradiction.
    + contradiction.
    + destruct H as [H|[]]. discriminate.
    + now apply (spaces_not_symbol w3 lt_sign Hlt_space Hw3).
    + destruct Hsl as [-> | ->]; [destruct H|].
      destruct H as [H|[]]. discriminate.
    + destruct H as [H|[]]. discriminate.
  - replace ((lt_sign :: x1 :: x2 :: emt2) ++ w1 ++ n ++ w2 ++ k ++ v ++ [dq] ++
             w3 ++ sl ++ [gt_sign])
      with (((lt_sign :: x1 :: x2 :: emt2) ++ w1 ++ n ++ w2 ++ k) ++ v ++
            [dq] ++ w3 ++ sl ++ [gt_sign])
      by now rewrite <- !app_assoc.
    rewrite odd_quotes_app, Hhead. rewrite !odd_quotes_app.
    rewrite (odd_quotes_dq_free v Hv), (spaces_quotes w3 Hw3).
    destruct Hsl as [-> | ->]; reflexivity.
Qed.

Lemma lt_split (A B u w : jsstring) x :
  ~ In x A -> ~ In x B -> u ++ x :: w = A ++ x :: B -> u = A /\ w = B.
Proof.
  revert A; induction u as [|y u IH]; intros [|z A] HA HB E.
  - injection E as ->. now split.
  - injection E as <- _. exfalso. apply HA. now left.
  - injection E as -> E. exfalso. apply HB. rewrite <- E. apply in_elt.
  - injection E as -> E.
    destruct (IH A) as [-> ->]; auto.
    intros H. apply HA. now right.
Qed.

Lemma title_piece m q :
  title_shape m -> outside q m = true ->
  q = false /\ opens m /\ inner_ok m /\ odd_quotes m = false.
Proof.
  intros (c & -> & Hc) Hout.
  assert (Hq : q = false).
  { cbn in Hout. apply andb_true_iff in Hout. destruct Hout as [Hout _].
    now destruct q. }
  subst q. split; [reflexivity|]. split; [|split].
  - eexists _, _, _. split; [reflexivity | discriminate].
  - intros u w E. change (tl (js "<title>" ++ c ++ js "</title>"))
      with ((js "title>" ++ c) ++ lt_sign :: js "/title>") in E.
    symmetry in E. apply lt_split in E.
    + destruct E as [_ ->]. now eexists.
    + apply not_in_app; [vm_compute; intuition discriminate | assumption].
    + vm_compute; intuition discriminate.
  - rewrite !outside_app in Hout. rewrite !odd_quotes_app.
    apply andb_true_iff in Hout. destruct Hout as [_ Hout].
    apply andb_true_iff in Hout. destruct Hout as [_ Hout].
    change (odd_quotes (js "<title>")) with false in *.
    change (odd_quotes (js "</title>")) with false.
    cbn [xorb] in *. destruct (odd_quotes c); [|reflexivity].
    discriminate.
Qed.

(** A piece of one of the nine shapes, at a place of a well-quoted
    document. *)
Lemma piece_token k m q :
  shape k m -> outside q m = true ->
  q = false /\ opens m /\ inner_ok m /\ odd_quotes m = false.
Proof.
  intros Hm Hout. destruct (tag_parts k) as [[[e a] c]|] eqn:E.
  - destruct (tag_parts_wf k e a c E) as [Hs Hwf]. rewrite Hs in Hm.
    destruct (tag_piece e a c m q Hwf Hm Hout) as (Hq & Ho & Hlt & Hodd).
    repeat split; auto.
    intros u w Hu. exfalso. apply Hlt. rewrite Hu. apply in_elt.
  - destruct k; try discriminate. now apply title_piece.
Qed.

Lemma piece_opens k m : shape k m -> opens m.
Proof.
  intros Hm. destruct (tag_parts k) as [[[e a] c]|] eqn:E.
  - destruct (tag_parts_wf k e a c E) as [Hs Hwf]. rewrite Hs in Hm.
    destruct Hwf as (_ & (e1 & e2 & et & -> & He1 & _) & _).
    destruct Hm as (em & w1 & n & w2 & k0 & v & w3 & sl & -> & Hem & _).
    inversion Hem as [|a0 x0 l0 emt0 Hx0 Hem0]; subst.
    inversion Hem0 as [|a1 x1 l1 emt1 Hx1 Hem1]; subst.
    inversion Hem1 as [|a2 x2 l2 emt2 Hx2 Hem2]; subst.
    apply (matches_symbol_iff true lt_sign x0 lt_sign) in Hx0; [|reflexivity].
    assert (x0 = lt_sign) by now apply Hx0. subst x0.
    eexists x1, x2, _. split; [reflexivity|]. intros ->.
    apply (matches_symbol_iff true e1 slash slash) in Hx1; [|reflexivity].
    apply He1. now apply Hx1.
  - destruct k; try discriminate. destruct Hm as (c & -> & _).
    eexists _, _, _. split; [reflexivity | discriminate].
Qed.

Lemma piece_nonempty k m : shape k m -> m <> [].
Proof.
  intros H. destruct (piece_opens k m H) as (? & ? & ? & -> & _).
  discriminate.
Qed.

Lemma piece_last k m : shape k m -> exists m', m = m' ++ [gt_sign].
Proof.
  intros Hm. destruct (tag_parts k) as [[[e a] c]|] eqn:E.
  - destruct (tag_parts_wf k e a c E) as [Hs _]. rewrite Hs in Hm.
    destruct Hm as (em & w1 & n & w2 & k0 & v & w3 & sl & -> & _).
    exists (em ++ w1 ++ n ++ w2 ++ k0 ++ v ++ [dq] ++ w3 ++ sl).
    now rewrite <- !app_assoc.
  - destruct k; try discriminate. destruct Hm as (c & -> & _).
    exists (js "<title>" ++ c ++ js "</title"). now rewrite <- !app_assoc.
Qed.

Lemma kinds_compatible k k' p m b c :
  shape k p -> shape k' m -> p ++ b = m ++ c -> compatible k k' = true.
Proof.
  intros Hp Hm E. unfold compatible.
  destruct (tag_parts k) as [[[e a] x]|] eqn:Ek,
           (tag_parts k') as [[[e' a'] x']|] eqn:Ek'.
  - destruct (tag_parts_wf k e a x Ek)
      as (Hs & Hl & _ & _ & _ & _ & c1 & r1 & Ha & Hc).
    destruct (tag_parts_wf k' e' a' x' Ek')
      as (Hs' & Hl' & _ & _ & _ & _ & c1' & r1' & Ha' & Hc').
    rewrite Hs in Hp. rewrite Hs' in Hm.
    destruct (tag_shapes_agree e a x e' a' x' c1 r1 c1' r1' p m b c
                ltac:(congruence) Ha Ha' Hc Hc' Hp Hm E) as [-> ->].
    reflexivity.
  - destruct k'; try discriminate.
    destruct (tag_parts_wf k e a x Ek) as (Hs & _). rewrite Hs in Hp.
    destruct Hp as (em & w1 & n & w2 & k0 & v & w3 & sl & -> & Hem & _).
    destruct Hm as (t & -> & _). rewrite <- !app_assoc in E.
    exact (same_letters_agree _ _ _ _ _ _ Hem
             (same_letters_refl (js "<title>")) E).
  - destruct k; try discriminate.
    destruct (tag_parts_wf k' e' a' x' Ek') as (Hs & _). rewrite Hs in Hm.
    destruct Hm as (em & w1 & n & w2 & k0 & v & w3 & sl & -> & Hem & _).
    destruct Hp as (t & -> & _). rewrite <- !app_assoc in E.
    exact (same_letters_agree _ _ _ _ _ _
             (same_letters_refl (js "<title>")) Hem E).
  - reflexivity.
Qed.

(** Pieces of two shapes that begin at the same place are of one kind. *)
Lemma kinds_clash k k' p m b c :
  shape k p -> shape k' m -> p ++ b = m ++ c -> k = k'.
Proof.
  intros Hp Hm E. pose proof (kinds_compatible k k' p m b c Hp Hm E) as H.
  destruct k, k'; try reflexivity; vm_compute in H; discriminate.
Qed.

Lemma occurrence_outside a p b :
  well_quoted (a ++ p ++ b) -> outside (odd_quotes a) p = true.
Proof.
  unfold well_quoted. rewrite !outside_app. cbn [xorb].
  intros H. apply andb_true_iff in H. destruct H as [_ H].
  apply andb_true_iff in H. destruct H as [H _].
  now destruct (odd_quotes a).
Qed.

Lemma last_of_app (A : Type) (a p l pre : list A) x :
  a ++ p ++ [x] = pre ++ l -> l <> [] -> In x l.
Proof.
  intros E Hl. destruct (exists_last Hl) as (l' & y & ->).
  rewrite !app_assoc in E. apply app_inj_tail in E. destruct E as [_ ->].
  apply in_elt.
Qed.

(** Two such pieces do not overlap either when the second one stands
    between two runs of text without [<] and, before it, without [>], the
    first piece ending with [>]. *)
Lemma overlap_padded p m S T a b pre post :
  head_ok p -> inner_ok p -> (exists p', p = p' ++ [gt_sign]) ->
  head_ok m -> inner_ok m ->
  ~ In lt_sign S -> ~ In gt_sign S -> ~ In lt_sign T ->
  a ++ p ++ b = pre ++ (S ++ m ++ T) ++ post ->
  (exists b0, pre = a ++ p ++ b0 /\ b = b0 ++ (S ++ m ++ T) ++ post) \/
  (exists a0, post = a0 ++ p ++ b /\ a = pre ++ (S ++ m ++ T) ++ a0) \/
  a = pre ++ S.
Proof.
  intros Hph Hpi [p' Hlast] Hmh Hmi HS HS' HT E.
  assert (E' : a ++ p ++ b = (pre ++ S) ++ m ++ (T ++ post))
    by (rewrite E; now rewrite <- !app_assoc).
  destruct (overlap p m a b (pre ++ S) (T ++ post) Hph Hpi Hmh Hmi E')
    as [(b0 & E1 & E2) | [(a0 & E1 & E2) | E1]].
  - left. rewrite app_assoc in E1. apply app_eq_app in E1.
    destruct E1 as [l [[E1 E3] | [E1 E3]]].
    + exists l. split; [now rewrite E1, <- app_assoc|].
      rewrite E2, E3. now rewrite <- !app_assoc.
    + destruct l as [|y l].
      * exists []. rewrite app_nil_r in E1.
        split; [now rewrite <- E1, app_nil_r|].
        simpl in E3. rewrite E2, <- E3. now rewrite <- !app_assoc.
      * exfalso. apply HS'. rewrite E3. apply in_or_app. left.
        rewrite Hlast in E1.
        apply (last_of_app _ a p' (y :: l) pre gt_sign E1). discriminate.
  - right; left. apply app_eq_app in E1.
    destruct E1 as [l [[E1 E3] | [E1 E3]]].
    + destruct l as [|y l].
      * exists []. simpl in E3. rewrite app_nil_r in E1.
        split; [symmetry; exact E3|].
        rewrite E2, <- E1. now rewrite <- !app_assoc, app_nil_r.
      * exfalso. apply HT. rewrite E1. apply in_or_app. right.
        destruct Hph as (c1 & c2 & t & -> & _). cbn [app] in E3.
        injection E3 as -> _. now left.
    + exists l. split; [assumption|]. rewrite E2, E1.
      now rewrite <- !app_assoc.
  - right; right. assumption.
Qed.

Lemma avoids_padded (P : jsstring -> Prop) pre S m T post :
  (forall a p b, P p -> a ++ p ++ b = pre ++ (S ++ m ++ T) ++ post ->
     head_ok p /\ inner_ok p /\ exists p', p = p' ++ [gt_sign]) ->
  head_ok m -> inner_ok m ->
  ~ In lt_sign S -> ~ In gt_sign S -> ~ In lt_sign T ->
  (forall p b, P p -> p ++ b <> m ++ T ++ post) ->
  avoids P pre (S ++ m ++ T) post.
Proof.
  intros HP Hmh Hmi HS HS' HT Hclash a p b Hp E.
  destruct (HP a p b Hp E) as (Hph & Hpi & Hlast).
  destruct (overlap_padded p m S T a b pre post Hph Hpi Hlast Hmh Hmi
              HS HS' HT E) as [H|[H|H]]; [now left | now right |].
  exfalso. subst a. rewrite <- !app_assoc in E.
  apply app_inv_head in E. apply app_inv_head in E.
  now apply (Hclash p b).
Qed.

Lemma kind_token k a m b :
  well_quoted (a ++ m ++ b) -> shape k m ->
  odd_quotes a = false /\ head_ok m /\ inner_ok m /\ odd_quotes m = false /\
  exists m', m = m' ++ [gt_sign].
Proof.
  intros Hx Hm. pose proof (occurrence_outside a m b Hx) as Ho.
  destruct (piece_token k m _ Hm Ho) as (Hq & Hop & Hin & Hodd).
  split; [assumption|]. split; [now apply opens_head_ok|].
  split; [assumption|]. split; [assumption|]. now apply (piece_last k).
Qed.

(** In a well-quoted document, the tags of one kind do not overlap a tag of
    another kind. *)
Lemma kind_avoids_padded k k' pre S m T post :
  k' <> k -> well_quoted (pre ++ (S ++ m ++ T) ++ post) -> shape k m ->
  ~ In lt_sign S -> ~ In gt_sign S -> ~ In lt_sign T ->
  avoids (shape k') pre (S ++ m ++ T) post.
Proof.
  intros Hk Hx Hm HS HS' HT.
  assert (Hx' : well_quoted ((pre ++ S) ++ m ++ (T ++ post)))
    by (now rewrite <- !app_assoc in *).
  destruct (kind_token k _ m _ Hx' Hm) as (_ & Hmh & Hmi & _ & _).
  apply avoids_padded; auto.
  - intros a p b Hp E. rewrite <- E in Hx.
    destruct (kind_token k' a p b Hx Hp) as (_ & Hph & Hpi & _ & Hl). auto.
  - intros p b Hp E. apply Hk. exact (kinds_clash k' k p m b _ Hp Hm E).
Qed.

Lemma kind_avoids k k' pre m post :
  k' <> k -> well_quoted (pre ++ m ++ post) -> shape k m ->
  avoids (shape k') pre m post.
Proof.
  intros Hk Hx Hm.
  pose proof (kind_avoids_padded k k' pre [] m [] post Hk) as H.
  cbn [app] in H. rewrite app_nil_r in H. apply H; auto.
Qed.

Lemma closing_token : head_ok head_closing /\ inner_ok head_closing.
Proof.
  split.
  - eexists _, _, _. split; [reflexivity|]. right. discriminate.
  - intros u w E. exfalso.
    assert (H : In lt_sign (tl head_closing)) by (rewrite E; apply in_elt).
    revert H. vm_compute. intuition discriminate.
Qed.

Lemma opens_not_closing p b c : opens p -> p ++ b <> head_closing ++ c.
Proof.
  intros (c1 & c2 & t & -> & H) E. cbn in E. injection E as -> _.
  now apply H.
Qed.

(** No tag overlaps the text [</head>]. *)
Lemma kind_avoids_closing k pre post :
  well_quoted (pre ++ head_closing ++ post) ->
  avoids (shape k) pre [] (head_closing ++ post).
Proof.
  intros Hx a p b Hp E. cbn [app] in E.
  destruct (kind_token k a p b ltac:(now rewrite E) Hp)
    as (_ & Hph & Hpi & _ & _).
  destruct closing_token as [Hch Hci].
  destruct (overlap p head_closing a b pre post Hph Hpi Hch Hci E)
    as [(b0 & E1 & E2) | [(a0 & E1 & E2) | E1]].
  - left. exists b0. now split.
  - right. exists (head_closing ++ a0). split.
    + rewrite E1. now rewrite <- !app_assoc.
    + rewrite E2. reflexivity.
  - exfalso. subst a. apply app_inv_head in E.
    exact (opens_not_closing p b post (piece_opens k p Hp) E).
Qed.

(** The text [</head>] does not overlap a tag. *)
Lemma closing_avoids_kind k pre m post :
  well_quoted (pre ++ m ++ post) -> shape k m ->
  avoids (eq head_closing) pre m post.
Proof.
  intros Hx Hm a p b <- E.
  destruct (kind_token k pre m post Hx Hm) as (_ & Hmh & Hmi & _ & _).
  destruct closing_token as [Hch Hci].
  destruct (overlap head_closing m a b pre post Hch Hci Hmh Hmi E)
    as [H | [H | H]]; [now left | now right |].
  exfalso. subst a. apply app_inv_head in E. symmetry in E.
  exact (opens_not_closing m post b (piece_opens k m Hm) E).
Qed.

Lemma pipeline_kinds sd : pipeline sd = map (step_of sd) kinds.
Proof. reflexivity. Qed.

Lemma kind_matches_shape k : matches_shape (re_of k) (shape k).
Proof.
  destruct k; cbn [re_of shape].
  - apply title_matches_shape.
  - apply description_matches_shape.
  - apply og_title_matches_shape.
  - apply og_description_matches_shape.
  - apply keywords_matches_shape.
  - apply twitter_title_matches_shape.
  - apply twitter_description_matches_shape.
  - apply og_image_matches_shape.
  - apply canonical_matches_shape.
Qed.

Lemma piece_deterministic k m m' r r' :
  shape k m -> shape k m' -> m ++ r = m' ++ r' -> m = m'.
Proof.
  intros Hm Hm' E.
  assert (H : match_at (re_of k) 0 (m ++ r) = Some (m, [])).
  { apply (kind_matches_shape k). repeat split; auto. now exists r. }
  assert (H' : match_at (re_of k) 0 (m' ++ r') = Some (m', [])).
  { apply (kind_matches_shape k). repeat split; auto. now exists r'. }
  rewrite E in H. congruence.
Qed.

Lemma shape_cases k x :
  absent (shape k) x \/
  exists pre m post, first_occurrence (shape k) x pre m post.
Proof.
  destruct (match_cases (re_of k) x) as [H | (pre & m & post & H)].
  - left. now apply (no_match_absent (re_of k) (shape k) x
                       (kind_matches_shape k)).
  - right. exists pre, m, post.
    now apply (first_match_occurrence (re_of k) (shape k) x pre m post
                 (kind_matches_shape k)).
Qed.

Lemma absent_no_first (P : jsstring -> Prop) x pre m post :
  absent P x -> first_occurrence P x pre m post -> False.
Proof. intros Ha (Hs & Hm & _). exact (Ha pre m post Hs Hm). Qed.

Lemma written_no_dollar k v : ~ In dollar v -> ~ In dollar (written k v).
Proof.
  intros Hv. unfold written. apply not_in_app.
  - destruct k; vm_compute; intuition discriminate.
  - apply not_in_app; [now apply escape_no_dollar|].
    destruct k; vm_compute; intuition discriminate.
Qed.

Lemma written_shape k v : ~ In lt_sign v -> shape k (written k v).
Proof.
  intros Hv. destruct k; cbn [shape]; unfold written; cbn [tag_start tag_end].
  - apply written_title_shape. now apply escape_no_lt.
  - exact (written_tag_shape (js "<meta") (jsq "name='description'")
             (jsq "content='") (escape v) (escape_quote_free v)).
  - exact (written_tag_shape (js "<meta") (jsq "property='og:title'")
             (jsq "content='") (escape v) (escape_quote_free v)).
  - exact (written_tag_shape (js "<meta") (jsq "property='og:description'")
             (jsq "content='") (escape v) (escape_quote_free v)).
  - exact (written_tag_shape (js "<meta") (jsq "name='keywords'")
             (jsq "content='") (escape v) (escape_quote_free v)).
  - exact (written_tag_shape (js "<meta") (jsq "name='twitter:title'")
             (jsq "content='") (escape v) (escape_quote_free v)).
  - exact (written_tag_shape (js "<meta") (jsq "name='twitter:description'")
             (jsq "content='") (escape v) (escape_quote_free v)).
  - exact (written_tag_shape (js "<meta") (jsq "property='og:image'")
             (jsq "content='") (escape v) (escape_quote_free v)).
  - exact (written_tag_shape (js "<link") (jsq "rel='canonical'")
             (jsq "href='") (escape v) (escape_quote_free v)).
Qed.

Lemma written_quotes k v :
  ~ In lt_sign v ->
  outside false (written k v) = true /\ odd_quotes (written k v) = false.
Proof.
  intros Hv. unfold written.
  rewrite !outside_app, !odd_quotes_app.
  rewrite (outside_lt_free _ (escape v) (escape_no_lt v Hv)).
  rewrite (odd_quotes_dq_free (escape v) (escape_quote_free v)).
  destruct k; split; reflexivity.
Qed.

Lemma written_includes k a v :
  attr_text k = Some a -> includes (written k v) a = true.
Proof.
  intros Ha. apply includes_true. unfold written.
  destruct k; cbn [attr_text] in Ha; try discriminate;
    injection Ha as <-; cbn [tag_start].
  - exists (js "<meta "), (jsq " content='" ++ escape v ++ tag_end OgTitle).
    reflexivity.
  - exists (js "<meta "),
      (jsq " content='" ++ escape v ++ tag_end OgDescription).
    reflexivity.
  - exists (js "<meta "), (jsq " content='" ++ escape v ++ tag_end Keywords).
    reflexivity.
  - exists (js "<meta "),
      (jsq " content='" ++ escape v ++ tag_end TwitterTitle).
    reflexivity.
  - exists (js "<meta "),
      (jsq " content='" ++ escape v ++ tag_end TwitterDescription).
    reflexivity.
  - exists (js "<meta "), (jsq " content='" ++ escape v ++ tag_end OgImage).
    reflexivity.
  - exists (js "<link "), (jsq " href='" ++ escape v ++ tag_end Canonical).
    reflexivity.
Qed.

Lemma includes_piece x pre m post a :
  x = pre ++ m ++ post -> includes m a = true -> includes x a = true.
Proof.
  intros -> H. apply includes_true in H. destruct H as (u & w & ->).
  apply includes_true. exists (pre ++ u), (w ++ post).
  now rewrite <- !app_assoc.
Qed.

(** What [replace] does with the pattern of a kind and the tag written for
    that kind. *)
Lemma replace_outcome k v x :
  ~ In dollar v ->
  (absent (shape k) x /\ replace (re_of k) (written k v) x = x) \/
  (exists pre m post,
     first_occurrence (shape k) x pre m post /\
     replace (re_of k) (written k v) x = pre ++ written k v ++ post).
Proof.
  intros Hv. destruct (shape_cases k x) as [Ha | (pre & m & post & Hf)].
  - left. split; [assumption|].
    now apply (replace_absent (re_of k) (shape k) _ _ (kind_matches_shape k)).
  - right. exists pre, m, post. split; [assumption|].
    rewrite (replace_first_occurrence (re_of k) (shape k) _ _ pre m post
               (kind_matches_shape k) Hf).
    now rewrite getSubstitution_plain by now apply written_no_dollar.
Qed.

(** The steps, in terms of the kinds. *)
Lemma step_unconditional sd k v x :
  attr_text k = None -> field k sd = Some v ->
  step_of sd k x = Ok (replace (re_of k) (written k v) x).
Proof.
  destruct k; cbn [attr_text]; try discriminate; intros _ Hf;
    cbn [field] in Hf; cbn [step_of re_of].
  - now apply step_title_eq.
  - now apply step_description_eq.
Qed.

Lemma step_conditional sd k a v x :
  k <> Keywords -> attr_text k = Some a -> field k sd = Some v ->
  step_of sd k x =
  if includes x a then Ok (replace (re_of k) (written k v) x) else Ok x.
Proof.
  destruct k; cbn [attr_text]; try discriminate; try congruence;
    intros _ [= <-] Hf; cbn [field] in Hf; cbn [step_of re_of].
  - now apply step_og_title_eq.
  - now apply step_og_description_eq.
  - now apply step_twitter_title_eq.
  - now apply step_twitter_description_eq.
  - now apply step_og_image_eq.
  - now apply step_canonical_eq.
Qed.

Lemma step_keywords_form sd v x :
  keywords sd = Some v -> v <> [] ->
  step_keywords sd x =
  if includes x (jsq "name='keywords'") then
    Ok (replace keywords_re (written Keywords v) x)
  else
    match indexOf head_closing x with
    | Some i =>
        Ok (firstn i x ++ (js "    " ++ written Keywords v ++ [newline]) ++
            skipn i x)
    | None => Ok x
    end.
Proof.
  intros Hk Hv. rewrite (step_keywords_eq sd v x Hk Hv).
  destruct (includes x (jsq "name='keywords'")); [reflexivity|].
  unfold head_closing. destruct (indexOf (js "</head>") x); [|reflexivity].
  f_equal. f_equal. unfold written. cbn [tag_start tag_end].
  change (jsq "    <meta name='keywords' content='")
    with (js "    " ++ jsq "<meta name='keywords' content='").
  now rewrite <- !app_assoc.
Qed.

Lemma rewritten_well_quoted k pre m W post :
  well_quoted (pre ++ m ++ post) -> shape k m ->
  outside false W = true -> odd_quotes W = false ->
  well_quoted (pre ++ W ++ post).
Proof.
  intros Hx Hm HW HW'.
  destruct (kind_token k pre m post Hx Hm) as (Hpre & _ & _ & Hodd & _).
  unfold well_quoted in *. rewrite !outside_app in *.
  rewrite Hpre, Hodd in Hx. rewrite Hpre, HW'. cbn [xorb] in *.
  apply andb_true_iff in Hx. destruct Hx as [H1 H2].
  apply andb_true_iff in H2. destruct H2 as [_ H2].
  now rewrite H1, HW, H2.
Qed.

Lemma rewritten_first k pre m W post :
  first_occurrence (shape k) (pre ++ m ++ post) pre m post -> shape k W ->
  well_quoted (pre ++ W ++ post) ->
  first_is k W (pre ++ W ++ post).
Proof.
  intros (_ & Hm & Hmin) HW Hx pre1 m1 post1 (E & Hm1 & Hmin1).
  symmetry in E.
  destruct (kind_token k pre1 m1 post1 ltac:(now rewrite E) Hm1)
    as (_ & Hh1 & Hi1 & _ & _).
  destruct (kind_token k pre W post Hx HW) as (_ & Hh & Hi & _ & _).
  pose proof (piece_nonempty k m1 Hm1) as Hne1.
  pose proof (piece_nonempty k W HW) as HneW.
  destruct (overlap m1 W pre1 post1 pre post Hh1 Hi1 Hh Hi E)
    as [(b0 & E1 & E2) | [(a0 & E1 & E2) | E1]].
  - exfalso.
    assert (Hle : length pre <= length pre1).
    { apply (Hmin pre1 m1 (b0 ++ m ++ post)); [|assumption].
      rewrite E1. now rewrite <- !app_assoc. }
    rewrite E1 in Hle. rewrite !length_app in Hle.
    destruct m1; [congruence|]. simpl in Hle. lia.
  - exfalso.
    assert (Hle : length pre1 <= length pre).
    { apply (Hmin1 pre W post); auto. }
    rewrite E2 in Hle. rewrite !length_app in Hle.
    destruct W; [congruence|]. simpl in Hle. lia.
  - subst pre1. apply app_inv_head in E.
    exact (piece_deterministic k m1 W post1 post Hm1 HW E).
Qed.

Lemma spaces_text : ~ In lt_sign (js "    ") /\ ~ In gt_sign (js "    ") /\
                    ~ In lt_sign [newline].
Proof. vm_compute. intuition discriminate. Qed.

Lemma inserted_first pre W post :
  absent (shape Keywords) (pre ++ head_closing ++ post) ->
  shape Keywords W ->
  well_quoted (pre ++ (js "    " ++ W ++ [newline]) ++ head_closing ++ post) ->
  first_is Keywords W
    (pre ++ (js "    " ++ W ++ [newline]) ++ head_closing ++ post).
Proof.
  intros Ha HW Hx pre1 m1 post1 (E & Hm1 & _). symmetry in E.
  destruct (kind_token Keywords pre1 m1 post1 ltac:(now rewrite E) Hm1)
    as (_ & Hh1 & Hi1 & _ & Hl1).
  assert (Hx' : well_quoted ((pre ++ js "    ") ++ W ++
                             ([newline] ++ head_closing ++ post)))
    by (now rewrite <- !app_assoc in *).
  destruct (kind_token Keywords _ W _ Hx' HW) as (_ & Hh & Hi & _ & _).
  destruct spaces_text as (S1 & S2 & S3).
  destruct (overlap_padded m1 W (js "    ") [newline] pre1 post1 pre
              (head_closing ++ post) Hh1 Hi1 Hl1 Hh Hi S1 S2 S3 E)
    as [(b0 & E1 & E2) | [(a0 & E1 & E2) | E1]].
  - exfalso. apply (Ha pre1 m1 (b0 ++ head_closing ++ post)); [|assumption].
    rewrite E1. now rewrite <- !app_assoc.
  - exfalso. apply (Ha (pre ++ a0) m1 post1); [|assumption].
    rewrite E1. now rewrite <- !app_assoc.
  - subst pre1. rewrite <- !app_assoc in E.
    apply app_inv_head in E. apply app_inv_head in E.
    exact (piece_deterministic Keywords m1 W post1 _ Hm1 HW E).
Qed.

(** A text without [<] does not overlap a tag whose pattern it blocks. *)
Lemma text_avoids_tag elem a1 a2 c1 c2 r1 r2 ok its o pre m post :
  a1 = c1 :: r1 -> a2 = c2 :: r2 ->
  is_space (canonicalize true c1) = false ->
  is_space (canonicalize true c2) = false ->
  tag_items elem a1 a2 = IOne ok :: its -> blocks its o = true ->
  ~ In lt_sign o -> o <> [] -> opens m ->
  tag_shape elem a1 a2 m ->
  avoids (eq o) pre m post.
Proof.
  intros Ha1 Ha2 Hc1 Hc2 Hi Hb Ho Hne (x1 & x2 & t & Hm & _) Hs a p b <- E.
  assert (Hrun : run (IOne ok :: its) (m ++ post) = Some (length m)).
  { rewrite <- Hi. apply (run_tag elem a1 a2 c1 c2 r1 r2 Ha1 Ha2 Hc1 Hc2).
    now exists m, post. }
  apply app_eq_app in E. destruct E as [l [[-> E] | [-> E]]].
  - destruct l as [|y l].
    + exfalso. cbn [app] in E. rewrite Hm in E.
      destruct o as [|d o']; [congruence|]. cbn [app] in E.
      injection E as <- _. apply Ho. now left.
    + apply app_eq_app in E. destruct E as [l2 [[E1 E2] | [E1 E2]]].
      * destruct l2 as [|z l2].
        -- right. exists []. rewrite app_nil_r in E1. cbn [app] in E2.
           split; [symmetry; exact E2|]. now rewrite E1, app_nil_r.
        -- exfalso.
           assert (Hle : length m <= length (y :: l)).
           { apply (run_blocked ok its (y :: l) o b (length m) Hb
                      ltac:(discriminate)).
             rewrite <- Hrun. f_equal. rewrite E1, <- app_assoc.
             f_equal. exact E2. }
           rewrite E1, length_app in Hle. simpl in Hle. lia.
      * right. exists l2. split; [assumption|]. now rewrite E1.
  - destruct l as [|y l].
    + exfalso. cbn [app] in E. rewrite Hm in E.
      destruct o as [|d o']; [congruence|]. cbn [app] in E.
      injection E as -> _. apply Ho. now left.
    + apply app_eq_app in E. destruct E as [l2 [[E1 E2] | [E1 E2]]].
      * destruct l2 as [|z l2].
        -- left. exists []. rewrite app_nil_r in E1. cbn [app] in E2.
           split; [now rewrite E1, app_nil_r | now rewrite E2].
        -- exfalso. rewrite Hm in E2. cbn [app] in E2. injection E2 as <- _.
           apply Ho. rewrite E1. apply in_elt.
      * left. exists l2. split; [now rewrite E1 | assumption].
Qed.

(** The attribute text that one step tests for does not overlap a tag of
    another kind. *)
Lemma attr_avoids k k' a pre m post :
  k <> Title -> k' <> k -> attr_text k' = Some a -> shape k m ->
  avoids (eq a) pre m post.
Proof.
  intros Ht Hk Ha Hm. pose proof (piece_opens k m Hm) as Ho.
  destruct k; try congruence; cbn [shape] in Hm;
    unfold description_shape, og_title_shape, og_description_shape,
      keywords_shape, twitter_title_shape, twitter_description_shape,
      og_image_shape, canonical_shape in Hm;
    destruct k'; try congruence; cbn [attr_text] in Ha; try discriminate;
    injection Ha as <-;
    (refine (text_avoids_tag _ _ _ _ _ _ _ _ _ _ pre m post
               _ _ _ _ _ _ _ _ Ho Hm);
     [ reflexivity | reflexivity | reflexivity | reflexivity | reflexivity
     | vm_compute; reflexivity | vm_compute; intuition discriminate
     | discriminate ]).
Qed.

Lemma includes_false x a :
  includes x a = false <-> forall pre post, x <> pre ++ a ++ post.
Proof.
  rewrite <- not_true_iff_false, includes_true. split.
  - intros H pre post E. apply H. now exists pre, post.
  - intros H (pre & post & E). now apply (H pre post).
Qed.

(** A tag is replaced by another one of its kind: the attribute text of
    another kind does not appear. *)
Lemma unseen_rewritten k k' a pre m W post :
  k <> Title -> k' <> k -> attr_text k' = Some a -> shape k W ->
  includes (pre ++ m ++ post) a = false ->
  includes (pre ++ W ++ post) a = false.
Proof.
  intros Ht Hk Ha HW. rewrite !includes_false. intros H a1 b1 E.
  destruct (attr_avoids k k' a pre W post Ht Hk Ha HW a1 a b1 eq_refl
              (eq_sym E)) as [(b0 & E1 & E2) | (a0 & E1 & E2)].
  - apply (H a1 (b0 ++ m ++ post)). rewrite E1. now rewrite <- !app_assoc.
  - apply (H (pre ++ m ++ a0) b1). rewrite E1. now rewrite <- !app_assoc.
Qed.

Lemma attr_text_plain k a :
  attr_text k = Some a ->
  a <> [] /\ ~ In 32%N a /\ hd 0%N a <> newline.
Proof.
  destruct k; cbn [attr_text]; try discriminate; intros [= <-];
    (split; [discriminate|]); (split; [|discriminate]);
    vm_compute; intuition discriminate.
Qed.

Lemma within_left (pre S a o b0 : jsstring) :
  pre ++ S = a ++ o ++ b0 -> o <> [] -> (forall c, In c S -> ~ In c o) ->
  exists b', pre = a ++ o ++ b'.
Proof.
  intros E Ho HS. rewrite app_assoc in E. apply app_eq_app in E.
  destruct E as [l [[E1 E2] | [E1 E2]]].
  - exists l. now rewrite E1, <- app_assoc.
  - destruct l as [|y l].
    + exists []. rewrite app_nil_r in *. now symmetry.
    + exfalso. destruct (exists_last Ho) as (o' & z & ->).
      apply (HS z).
      * rewrite E2. apply in_or_app. left.
        apply (last_of_app _ a o' (y :: l) pre z E1). discriminate.
      * apply in_elt.
Qed.

(** The keywords tag is inserted: the attribute text of another kind does
    not appear. *)
Lemma unseen_inserted k' a pre W post :
  k' <> Keywords -> attr_text k' = Some a -> shape Keywords W ->
  includes (pre ++ head_closing ++ post) a = false ->
  includes (pre ++ (js "    " ++ W ++ [newline]) ++ head_closing ++ post) a
  = false.
Proof.
  intros Hk Ha HW. rewrite !includes_false. intros H a1 b1 E.
  destruct (attr_text_plain k' a Ha) as (Hne & Hsp & Hnl).
  assert (E' : a1 ++ a ++ b1 =
               (pre ++ js "    ") ++ W ++ ([newline] ++ head_closing ++ post))
    by (rewrite <- E; now rewrite <- !app_assoc).
  destruct (attr_avoids Keywords k' a (pre ++ js "    ") W
              ([newline] ++ head_closing ++ post) ltac:(discriminate) Hk Ha HW
              a1 a b1 eq_refl E') as [(b0 & E1 & E2) | (a0 & E1 & E2)].
  - destruct (within_left pre (js "    ") a1 a b0 E1 Hne) as [b' Eb].
    + intros c Hc Hin. assert (c = 32%N).
      { revert Hc. vm_compute. intuition congruence. }
      subst c. contradiction.
    + apply (H a1 (b' ++ head_closing ++ post)). rewrite Eb.
      now rewrite <- !app_assoc.
  - destruct a0 as [|c a0].
    + destruct a as [|d a']; [congruence|]. cbn in E1. injection E1 as E1 _.
      apply Hnl. cbn. congruence.
    + change ([newline] ++ head_closing ++ post)
        with (newline :: (head_closing ++ post)) in E1.
      change ((c :: a0) ++ a ++ b1) with (c :: (a0 ++ a ++ b1)) in E1.
      injection E1 as _ E1.
      apply (H (pre ++ a0) b1). rewrite <- app_assoc. f_equal. exact E1.
Qed.

(** A tag of a kind other than keywords is replaced by another one: what
    the keywords step would do stays the same. *)
Lemma settled_rewritten k pre m W post :
  k <> Title -> k <> Keywords ->
  well_quoted (pre ++ m ++ post) -> well_quoted (pre ++ W ++ post) ->
  shape k m -> shape k W ->
  settled (pre ++ m ++ post) -> settled (pre ++ W ++ post).
Proof.
  intros Ht Hk Hx Hx' Hm HW Hs Habs.
  assert (Habs0 : absent (shape Keywords) (pre ++ m ++ post)).
  { apply (transfer_absent (shape Keywords) pre W m post); [|assumption].
    apply (kind_avoids k Keywords); auto. }
  destruct (Hs Habs0) as [Hin | Hno].
  - left. apply includes_true in Hin. destruct Hin as (a & b & E).
    apply includes_true.
    destruct (attr_avoids k Keywords _ pre m post Ht
                ltac:(congruence) eq_refl Hm a _ b eq_refl
                (eq_sym E)) as [(b0 & E1 & E2) | (a0 & E1 & E2)].
    + exists a, (b0 ++ W ++ post). rewrite E1. now rewrite <- !app_assoc.
    + exists (pre ++ W ++ a0), b. rewrite E1. now rewrite <- !app_assoc.
  - right. apply indexOf_None. intros a b E.
    rewrite indexOf_None in Hno.
    destruct (closing_avoids_kind k pre W post Hx' HW a _ b eq_refl
                (eq_sym E)) as [(b0 & E1 & E2) | (a0 & E1 & E2)].
    + apply (Hno a (b0 ++ m ++ post)). rewrite E1. now rewrite <- !app_assoc.
    + apply (Hno (pre ++ m ++ a0) b). rewrite E1. now rewrite <- !app_assoc.
Qed.

Lemma kind_eq_dec (k k' : kind) : {k = k'} + {k <> k'}.
Proof. decide equality. Qed.

Lemma effect_same k W x :
  well_quoted x -> first_is k W x \/ unseen k x ->
  (k = Keywords -> settled x) ->
  effect k W x x.
Proof.
  intros Hx Hno Hs. split; [assumption|]. split; [assumption|].
  split; [|split; [|split]]; auto.
  intros k' _ pre p post H. now exists pre, post.
Qed.

Lemma absent_first_is k W x : absent (shape k) x -> first_is k W x.
Proof.
  intros Ha pre m post H. destruct (absent_no_first _ _ _ _ _ Ha H).
Qed.

Lemma effect_replaced k v x pre m post :
  ~ In lt_sign v -> well_quoted x ->
  first_occurrence (shape k) x pre m post ->
  effect k (written k v) x (pre ++ written k v ++ post).
Proof.
  intros Hv Hx Hf. pose proof Hf as (Hs & Hm & _). subst x.
  pose proof (written_shape k v Hv) as HW.
  destruct (written_quotes k v Hv) as [Hout Hodd].
  assert (Hx' : well_quoted (pre ++ written k v ++ post))
    by (eapply rewritten_well_quoted; eauto).
  split; [assumption|].
  split; [left; now apply (rewritten_first k pre m)|].
  split; [|split; [|split]].
  - intros k' Hk' pre1 p post1 H.
    apply (transfer_first (shape k') pre m (written k v) post pre1 p post1);
      [ apply (piece_nonempty k') | now apply (kind_avoids k k')
      | now apply (kind_avoids k k') | exact H ].
  - intros -> Habs. exfalso. exact (Habs pre _ post eq_refl HW).
  - intros Ht Hk. now apply (settled_rewritten k pre m).
  - intros Ht k' Hk' (Hkw & a & Ha & Hinc). split; [assumption|].
    exists a. split; [assumption|].
    now apply (unseen_rewritten k k' a pre m).
Qed.

Lemma closing_outside pre post :
  well_quoted (pre ++ head_closing ++ post) -> odd_quotes pre = false.
Proof.
  intros Hx. apply occurrence_outside in Hx.
  destruct (odd_quotes pre); [discriminate | reflexivity].
Qed.

Lemma effect_inserted v x i :
  ~ In lt_sign v -> well_quoted x -> absent (shape Keywords) x ->
  indexOf head_closing x = Some i ->
  effect Keywords (written Keywords v) x
    (firstn i x ++ (js "    " ++ written Keywords v ++ [newline]) ++
     skipn i x).
Proof.
  intros Hv Hx Ha Hi. apply indexOf_Some in Hi.
  destruct Hi as [(pre & post & -> & <-) _].
  rewrite firstn_length_app.
  replace (skipn (length pre) (pre ++ head_closing ++ post))
    with (head_closing ++ post) by (symmetry; apply skipn_length_app).
  pose proof (written_shape Keywords v Hv) as HW.
  destruct (written_quotes Keywords v Hv) as [Hout Hodd].
  set (W := written Keywords v) in *.
  assert (Hx' : well_quoted (pre ++ (js "    " ++ W ++ [newline]) ++
                             head_closing ++ post)).
  { pose proof (closing_outside pre post Hx) as Hpre.
    assert (Hins : outside false (js "    " ++ W ++ [newline]) = true /\
                   odd_quotes (js "    " ++ W ++ [newline]) = false).
    { rewrite !outside_app, !odd_quotes_app, Hodd.
      change (odd_quotes (js "    ")) with false. cbn [xorb].
      rewrite Hout. split; reflexivity. }
    destruct Hins as [Hins Hins'].
    unfold well_quoted in *.
    rewrite (outside_app false pre), Hpre in Hx. cbn [xorb] in Hx.
    apply andb_true_iff in Hx. destruct Hx as [H1 H2].
    rewrite (outside_app false pre), Hpre, H1. cbn [xorb andb].
    rewrite (outside_app false (js "    " ++ W ++ [newline])), Hins, Hins'.
    exact H2. }
  destruct spaces_text as (S1 & S2 & S3).
  split; [assumption|]. split; [left; now apply inserted_first|].
  split; [|split; [|split]].
  - intros k' Hk' pre1 p post1 H.
    apply (transfer_first (shape k') pre [] (js "    " ++ W ++ [newline])
             (head_closing ++ post) pre1 p post1);
      [ apply (piece_nonempty k') | now apply kind_avoids_closing
      | now apply (kind_avoids_padded Keywords k') | exact H ].
  - intros _ Habs. exfalso.
    apply (Habs (pre ++ js "    ") W ([newline] ++ head_closing ++ post));
      [|assumption].
    now rewrite <- !app_assoc.
  - congruence.
  - intros _ k' Hk' (Hkw & a & Hat & Hinc). split; [assumption|].
    exists a. split; [assumption|]. now apply (unseen_inserted k').
Qed.

Lemma spelled_present x k a pre m post :
  spelled x k -> attr_text k = Some a ->
  first_occurrence (shape k) x pre m post -> includes x a = true.
Proof.
  intros Hs Ha Hf. pose proof Hf as (E & _).
  apply (includes_piece x pre m post a E). now apply (Hs a pre m post).
Qed.

(** One step of the injector, on a well-quoted document in which the first
    keywords tag is spelled as the keywords step expects. *)
Lemma step_effect sd k v x :
  field k sd = Some v -> (k = Keywords -> v <> []) ->
  ~ In dollar v -> ~ In lt_sign v ->
  well_quoted x -> (k = Keywords -> spelled x k) ->
  exists x', step_of sd k x = Ok x' /\ effect k (written k v) x x'.
Proof.
  intros Hf Hne Hd Hv Hx Hsp.
  destruct (attr_text k) as [a|] eqn:Ha.
  - destruct (kind_eq_dec k Keywords) as [-> | Hk].
    + cbn [attr_text] in Ha. injection Ha as <-.
      cbn [step_of]. cbn [field] in Hf. specialize (Hsp eq_refl).
      rewrite (step_keywords_form sd v x Hf (Hne eq_refl)).
      destruct (includes x (jsq "name='keywords'")) eqn:Einc.
      * destruct (replace_outcome Keywords v x Hd)
          as [[Habs E] | (pre & m & post & Hfo & E)];
          cbn [re_of] in E; rewrite E; eexists; (split; [reflexivity|]).
        -- apply effect_same; auto.
           ++ left. now apply absent_first_is.
           ++ intros _ _. now left.
        -- now apply (effect_replaced _ _ _ pre m post).
      * assert (Habs : absent (shape Keywords) x).
        { destruct (shape_cases Keywords x) as [H | (pre & m & post & H)];
            [assumption|].
          rewrite (spelled_present x Keywords _ pre m post Hsp eq_refl H)
            in Einc. discriminate. }
        destruct (indexOf head_closing x) as [i|] eqn:Ei;
          eexists; (split; [reflexivity|]).
        -- now apply effect_inserted.
        -- apply effect_same; auto.
           ++ left. now apply absent_first_is.
           ++ intros _ _. now right.
    + rewrite (step_conditional sd k a v x Hk Ha Hf).
      destruct (includes x a) eqn:Einc.
      * destruct (replace_outcome k v x Hd)
          as [[Habs E] | (pre & m & post & Hfo & E)];
          rewrite E; eexists; (split; [reflexivity|]).
        -- apply effect_same; auto; [|congruence].
           left. now apply absent_first_is.
        -- now apply (effect_replaced _ _ _ pre m post).
      * eexists; split; [reflexivity|].
        apply effect_same; auto; [|congruence].
        right. split; [assumption|]. now exists a.
  - rewrite (step_unconditional sd k v x Ha Hf).
    destruct (replace_outcome k v x Hd)
      as [[Habs E] | (pre & m & post & Hfo & E)];
      rewrite E; eexists; (split; [reflexivity|]).
    + apply effect_same; auto.
      * left. now apply absent_first_is.
      * intros ->. discriminate.
    + now apply (effect_replaced _ _ _ pre m post).
Qed.

Lemma complete_field sd k :
  complete sd -> k <> Keywords -> exists v, field k sd = Some v.
Proof.
  intros (H1 & H2 & H3 & H4 & H5 & H6) Hk.
  destruct k; cbn [field]; try congruence.
  - destruct (title sd); [eauto | congruence].
  - destruct (description sd); [eauto | congruence].
  - destruct (ogTitle sd); [eauto | congruence].
  - destruct (ogDescription sd); [eauto | congruence].
  - destruct (ogTitle sd); [eauto | congruence].
  - destruct (ogDescription sd); [eauto | congruence].
  - destruct (ogImage sd); [eauto | congruence].
  - destruct (canonicalUrl sd); [eauto | congruence].
Qed.

(** The field of a step is there and usable, or the step is the keywords
    step and has nothing to write. *)
Lemma field_cases sd k :
  complete sd ->
  (exists v, field k sd = Some v /\ (k = Keywords -> v <> [])) \/
  (k = Keywords /\ ~ active sd).
Proof.
  intros Hc. destruct (kind_eq_dec k Keywords) as [-> | Hk].
  - cbn [field]. destruct (keywords sd) as [[|c v]|] eqn:E.
    + right. split; [reflexivity|]. intros (v & Hv & Hne). congruence.
    + left. exists (c :: v). split; [reflexivity|]. discriminate.
    + right. split; [reflexivity|]. intros (v & Hv & Hne). congruence.
  - left. destruct (complete_field sd k Hc Hk) as [v Hv].
    exists v. split; [assumption | congruence].
Qed.

Lemma inactive_step sd x : ~ active sd -> step_keywords sd x = Ok x.
Proof.
  intros H. apply step_keywords_falsy.
  destruct (keywords sd) as [[|c v]|] eqn:E; auto.
  exfalso. apply H. exists (c :: v). split; [assumption | discriminate].
Qed.

Lemma invariant_step sd done k x :
  complete sd -> plain_values sd ->
  invariant sd done x -> ~ In k done -> (done <> [] -> k <> Title) ->
  exists x', step_of sd k x = Ok x' /\ invariant sd (done ++ [k]) x'.
Proof.
  intros Hc Hp (Hx & Hsp & Hfix & Hset) Hk Hord.
  destruct (field_cases sd k Hc) as [(v & Hf & Hne) | [-> Hin]].
  - destruct (Hp k v Hf) as [Hd Hv].
    destruct (step_effect sd k v x Hf Hne Hd Hv Hx)
      as (x' & Hstep & Hx' & Hfirst & Hcar & Hkw & Hother & Hun).
    { intros ->. now apply Hsp. }
    exists x'. split; [assumption|]. split; [assumption|]. split; [|split].
    + intros Hk' a pre m post Ha Hfo.
      assert (Hne' : Keywords <> k).
      { intros <-. apply Hk'. apply in_or_app. right. now left. }
      destruct (Hcar Keywords Hne' pre m post Hfo) as (pre0 & post0 & Hfo0).
      apply (Hsp ltac:(intros H; apply Hk'; apply in_or_app; now left)
               a pre0 m post0 Ha Hfo0).
    + intros k' v' Hk' Hf' Hne'.
      apply in_app_or in Hk'. destruct Hk' as [Hk' | [<- | []]].
      * assert (Hkk : k' <> k) by (intros ->; contradiction).
        assert (Hdone : done <> []) by (intros ->; destruct Hk').
        destruct (Hfix k' v' Hk' Hf' Hne') as [Hold | Hold].
        -- left. intros pre m post Hfo.
           destruct (Hcar k' Hkk pre m post Hfo) as (pre0 & post0 & Hfo0).
           exact (Hold pre0 m post0 Hfo0).
        -- right. apply (Hun (Hord Hdone) k' Hkk Hold).
      * assert (v' = v) by congruence. subst v'. exact Hfirst.
    + intros Hkin Hact. apply in_app_or in Hkin.
      destruct Hkin as [Hkin | [Hkin | []]]; [|now apply Hkw].
      apply Hother; auto.
      * apply Hord. intros ->. destruct Hkin.
      * intros ->. contradiction.
  - exists x. split; [now apply inactive_step|].
    split; [assumption|]. split; [|split].
    + intros Hk'. apply Hsp. intros H. apply Hk'. apply in_or_app. now left.
    + intros k' v' Hk' Hf' Hne'.
      apply in_app_or in Hk'. destruct Hk' as [Hk' | [<- | []]].
      * exact (Hfix k' v' Hk' Hf' Hne').
      * exfalso. apply Hin. exists v'. split; [exact Hf' | now apply Hne'].
    + intros _ Hact. contradiction.
Qed.

Lemma kinds_order done k todo :
  done ++ k :: todo = kinds ->
  ~ In k done /\ (done <> [] -> k <> Title).
Proof.
  intros E.
  assert (Hnd : NoDup kinds).
  { unfold kinds. repeat constructor; cbn; intuition discriminate. }
  rewrite <- E in Hnd. split.
  - apply NoDup_remove_2 in Hnd. intros H. apply Hnd. apply in_or_app.
    now left.
  - intros Hne ->. destruct done as [|d done]; [congruence|].
    unfold kinds in E. cbn [app] in E. injection E as -> E.
    apply NoDup_remove_2 in Hnd. apply Hnd. now left.
Qed.

Lemma invariant_run sd :
  complete sd -> plain_values sd ->
  forall todo done x,
    done ++ todo = kinds -> invariant sd done x ->
    exists x', exec_steps (map (step_of sd) todo) x = (true, x') /\
               invariant sd kinds x'.
Proof.
  intros Hc Hp. induction todo as [|k todo IH]; intros done x E Hinv.
  - rewrite app_nil_r in E. subst done. now exists x.
  - destruct (kinds_order done k todo E) as [Hk Hord].
    destruct (invariant_step sd done k x Hc Hp Hinv Hk Hord)
      as (x1 & Hstep & Hinv1).
    destruct (IH (done ++ [k]) x1) as (x' & Hrun & Hinv').
    + now rewrite <- app_assoc.
    + assumption.
    + exists x'. split; [|assumption]. cbn [map exec_steps].
      now rewrite Hstep.
Qed.

(** Once all the steps have run, each of them leaves the document as it
    is. *)
Lemma invariant_fixed sd x k :
  complete sd -> plain_values sd -> invariant sd kinds x ->
  step_of sd k x = Ok x.
Proof.
  intros Hc Hp (Hx & _ & Hfix & Hset).
  assert (Hin : In k kinds) by (destruct k; cbn; tauto).
  destruct (field_cases sd k Hc) as [(v & Hf & Hne) | [-> Hina]];
    [|now apply inactive_step].
  destruct (Hp k v Hf) as [Hd Hv].
  destruct (Hfix k v Hin Hf Hne) as [Hfirst | (Hk & a & Ha & Hinc)].
  2:{ now rewrite (step_conditional sd k a v x Hk Ha Hf), Hinc. }
  assert (Hrep : replace (re_of k) (written k v) x = x).
  { destruct (replace_outcome k v x Hd)
      as [[_ E] | (pre & m & post & Hfo & E)]; [assumption|].
    rewrite E. pose proof Hfo as (Hs & _).
    now rewrite <- (Hfirst pre m post Hfo). }
  destruct (attr_text k) as [a|] eqn:Ha.
  - destruct (kind_eq_dec k Keywords) as [-> | Hk].
    + cbn [attr_text] in Ha. injection Ha as <-.
      cbn [step_of]. cbn [field] in Hf.
      rewrite (step_keywords_form sd v x Hf (Hne eq_refl)).
      cbn [re_of] in Hrep. rewrite Hrep.
      destruct (includes x (jsq "name='keywords'")) eqn:Einc; [reflexivity|].
      assert (Habs : absent (shape Keywords) x).
      { destruct (shape_cases Keywords x) as [H | (pre & m & post & H)];
          [assumption|].
        pose proof H as (Hs & _).
        rewrite (includes_piece x pre m post _ Hs) in Einc; [discriminate|].
        rewrite (Hfirst pre m post H). now apply written_includes. }
      destruct (Hset Hin) as [H | H].
      * exists v. split; [assumption | now apply Hne].
      * assumption.
      * congruence.
      * now rewrite H.
    + rewrite (step_conditional sd k a v x Hk Ha Hf), Hrep.
      now destruct (includes x a).
  - now rewrite (step_unconditional sd k v x Ha Hf), Hrep.
Qed.

Lemma exec_steps_fixed (steps : list (jsstring -> result jsstring)) x :
  (forall step, In step steps -> step x = Ok x) ->
  exec_steps steps x = (true, x).
Proof.
  induction steps as [|s steps IH]; intros H; [reflexivity|].
  cbn [exec_steps]. rewrite (H s) by now left.
  apply IH. intros step Hin. apply H. now right.
Qed.

(** The nine steps run to the end, and then each of them leaves the
    document as it is. *)
Lemma pipeline_idempotent sd html :
  complete sd -> plain_values sd ->
  well_quoted html -> spelled html Keywords ->
  exists html',
    exec_steps (pipeline sd) html = (true, html') /\
    forall step, In step (pipeline sd) -> step html' = Ok html'.
Proof.
  intros Hc Hp Hx Hsp.
  destruct (invariant_run sd Hc Hp kinds [] html eq_refl) as (x' & Hrun & Hinv).
  { split; [assumption|]. split; [intros _; apply Hsp|].
    split; [intros k v []| intros []]. }
  exists x'. rewrite pipeline_kinds. split; [assumption|].
  intros step Hin. apply in_map_iff in Hin.
  destruct Hin as (k & <- & _). now apply invariant_fixed.
Qed.

Lemma first_occurrence_unique k x pre m post pre' m' post' :
  first_occurrence (shape k) x pre m post ->
  first_occurrence (shape k) x pre' m' post' -> m = m'.
Proof.
  intros (E & Hm & Hmin) (E' & Hm' & Hmin').
  assert (Hl : length pre = length pre').
  { apply Nat.le_antisymm; [eapply Hmin | eapply Hmin']; eauto. }
  rewrite E in E'. apply app_same_length in E'; [|assumption].
  destruct E' as [_ E'].
  exact (piece_deterministic k m m' post post' Hm Hm' E').
Qed.

Lemma spelledb_spelled x k : spelledb x k = true -> spelled x k.
Proof.
  unfold spelledb. intros H a pre m post Ha Hf. rewrite Ha in H.
  destruct (exec (re_of k) x) as [r|] eqn:E.
  - pose proof (first_occurrence_of_exec (re_of k) (shape k) x r
                  (kind_matches_shape k) E) as Hf'.
    now rewrite (first_occurrence_unique k x _ _ _ _ _ _ Hf Hf').
  - exfalso. apply exec_no_match in E.
    apply (no_match_absent (re_of k) (shape k) x (kind_matches_shape k)) in E.
    exact (absent_no_first _ _ _ _ _ E Hf).
Qed.

Section Idempotence.

Variable Product : Type.
Variable findOne : jsstring -> result (option Product).
Variable findById : jsstring -> result (option Product).
Variable generateProductSeoTags : Product -> jsstring -> result SeoTagSet.
Variable createMetaTagsHtml : SeoTagSet -> result jsstring.

Let inject :=
  injectMetaTags findOne findById generateProductSeoTags createMetaTagsHtml.

(** C5, as amended.  Take a document in which no [<] stands between double
    quotes and whose first keywords tag, if there is one, contains the text
    [name='keywords'] in these very letters, and a generator whose tag-sets
    have their six mandatory fields and values without [$] and [<].  Then
    the injector, applied to its own result for the same request, returns
    that result again, with the same calls and no error logged.  When the
    product is found, each of the nine steps leaves the result of the first
    pass as it is: the title and the description are replaced by the same
    text, and the keywords tag that the first pass inserted is the one that
    the second pass replaces, by the same text. *)
Theorem injector_idempotent html pathname baseUrl :
  well_quoted html -> spelled html Keywords ->
  (forall product seoData,
     generateProductSeoTags product baseUrl = Ok seoData ->
     complete seoData /\ plain_values seoData) ->
  inject (fst (inject html pathname baseUrl)) pathname baseUrl =
  inject html pathname baseUrl /\
  (forall slug product seoData rendered,
     extractProductSlug pathname = Some slug ->
     lookup findOne findById slug = Ok (Some product) ->
     generateProductSeoTags product baseUrl = Ok seoData ->
     createMetaTagsHtml seoData = Ok rendered ->
     forall step, In step (pipeline seoData) ->
       step (fst (inject html pathname baseUrl)) =
       Ok (fst (inject html pathname baseUrl))).
Proof.
  intros Hx Hsp Hgen. unfold inject. split.
  - destruct (extractProductSlug pathname) as [slug|] eqn:Es.
    2:{ now rewrite !inject_no_slug. }
    rewrite (inject_cases _ _ _ _ _ html pathname baseUrl slug Es).
    destruct (lookup findOne findById slug) as [[product|]|] eqn:El;
      cbn [fst];
      try (rewrite (inject_cases _ _ _ _ _ _ pathname baseUrl slug Es), El;
           reflexivity).
    destruct (generateProductSeoTags product baseUrl) as [seoData|] eqn:Eg;
      cbn [fst].
    2:{ rewrite (inject_cases _ _ _ _ _ _ pathname baseUrl slug Es), El, Eg.
        reflexivity. }
    destruct (createMetaTagsHtml seoData) as [rendered|] eqn:Er; cbn [fst].
    2:{ rewrite (inject_cases _ _ _ _ _ _ pathname baseUrl slug Es),
          El, Eg, Er.
        reflexivity. }
    destruct (Hgen product seoData Eg) as [Hc Hp].
    destruct (pipeline_idempotent seoData html Hc Hp Hx Hsp)
      as (html' & E1 & E2).
    rewrite E1. cbn [fst].
    rewrite (inject_cases _ _ _ _ _ _ pathname baseUrl slug Es), El, Eg, Er.
    now rewrite (exec_steps_fixed _ _ E2).
  - intros slug product seoData rendered Es El Eg Er step Hin.
    rewrite (inject_cases _ _ _ _ _ html pathname baseUrl slug Es), El, Eg, Er.
    destruct (Hgen product seoData Eg) as [Hc Hp].
    destruct (pipeline_idempotent seoData html Hc Hp Hx Hsp)
      as (html' & E1 & E2).
    rewrite E1. cbn [fst]. now apply E2.
Qed.

End Idempotence.

(** ** Escaped values in the document *)





(** C10.  A slug that the extractor returns is not empty and contains
    neither [/] nor [?]; a path in which [/products/] is followed by
    nothing, by [/] or by [?] has no slug, and the injector returns the
    document unchanged on it, without any call. *)
Theorem extracted_slug_nonempty :
  (forall pathname slug,
     extractProductSlug pathname = Some slug ->
     slug <> [] /\ ~ In slash slug /\ ~ In question slug) /\
  (forall r,
     r = [] \/ (exists c r', r = c :: r' /\ (c = slash \/ c = question)) ->
     extractProductSlug (js "/products/" ++ r) = None /\
     forall (Product : Type) (findOne findById : _ -> result (option Product))
            generateProductSeoTags createMetaTagsHtml html baseUrl,
       injectMetaTags findOne findById generateProductSeoTags
         createMetaTagsHtml html (js "/products/" ++ r) baseUrl = (html, [])).
Proof.
  split.
  - intros pathname slug H. apply extractProductSlug_Some in H.
    destruct H as (r & _ & Hne & Hall & _). split; [assumption|].
    rewrite Forall_forall in Hall. split; intros Hin; apply Hall in Hin;
      discriminate Hin.
  - intros r Hr.
    assert (Hnone : extractProductSlug (js "/products/" ++ r) = None).
    { apply extractProductSlug_None. intros (c & r' & E & Hc).
      apply app_inv_head in E. subst r.
      destruct Hr as [Hr | (c' & r'' & [= -> ->] & [-> | ->])];
        discriminate. }
    split; [assumption|]. intros. now apply inject_no_slug.
Qed.

(** ** The template cache *)

(** X1.  A template that [getIndexHtml] has returned once is the one it
    returns from then on: a truthy value returned is the value of
    [cachedIndexHtml] afterwards, and every later call returns it without
    reading the file, whatever the file holds by then and whether or not it
    can still be read. *)
Theorem getIndexHtml_cache_sticks readFileSync cachedIndexHtml html cache evs :
  getIndexHtml readFileSync cachedIndexHtml = (html, cache, evs) ->
  truthy html = true ->
  cache = html /\
  forall readFileSync', getIndexHtml readFileSync' cache = (html, cache, []).
Proof.
  unfold getIndexHtml. intros H Ht.
  destruct (truthy cachedIndexHtml) eqn:Ec.
  - injection H as <- <- <-. split; [reflexivity|].
    intros rf. now rewrite Ec.
  - destruct readFileSync as [content|].
    + injection H as <- <- <-. split; [reflexivity|].
      intros rf. now rewrite Ht.
    + injection H as <- <- <-. discriminate.
Qed.

(** X2.  [getIndexHtml] returns a falsy value exactly when
    [cachedIndexHtml] is falsy and the file cannot be read or is empty.
    [cachedIndexHtml] is then still falsy, so that the next call reads the
    file again; an empty file is read at every call.  The file is read
    exactly when [cachedIndexHtml] is falsy, and an error is logged exactly
    when that read fails. *)
Theorem getIndexHtml_unavailable readFileSync cachedIndexHtml :
  let html := fst (fst (getIndexHtml readFileSync cachedIndexHtml)) in
  let cache := snd (fst (getIndexHtml readFileSync cachedIndexHtml)) in
  let evs := snd (getIndexHtml readFileSync cachedIndexHtml) in
  (truthy html = false <->
   truthy cachedIndexHtml = false /\
   (readFileSync = Throw \/ readFileSync = Ok [])) /\
  truthy cache = truthy html /\
  (In ReadFile evs <-> truthy cachedIndexHtml = false) /\
  (In LogError evs <-> truthy cachedIndexHtml = false /\ readFileSync = Throw).
Proof.
  unfold getIndexHtml. destruct (truthy cachedIndexHtml) eqn:Ec.
  - cbn [fst snd In]. rewrite Ec. intuition discriminate.
  - destruct readFileSync as [[|c s]|]; cbn [fst snd In truthy];
      rewrite ?Ec; intuition discriminate.
Qed.

(** ** The middleware *)

Lemma res_calls_events res cs :
  exists done, snd (res_calls res cs) = map Res done /\
    (fst (res_calls res cs) = Ok tt -> done = cs) /\
    (forall c, In c done -> In c cs).
Proof.
  induction cs as [|c cs (done & E & Hok & Hin)]; cbn [res_calls].
  - exists []. repeat split; auto.
  - destruct (res c) as [[]|] eqn:Ec.
    + destruct (res_calls res cs) as [r evs]. cbn [fst snd] in *.
      exists (c :: done). cbn [map]. rewrite E. repeat split.
      * intros Hr. now rewrite (Hok Hr).
      * intros c' [<-|H]; [now left | right; now apply Hin].
    + exists [c]. repeat split; [discriminate|]. intros c' [<-|[]]. now left.
Qed.

Lemma res_calls_sound res cs :
  sound res -> res_calls res cs = (Ok tt, map Res cs).
Proof.
  intros Hs. induction cs as [|c cs IH]; [reflexivity|].
  cbn [res_calls map]. now rewrite (Hs c), IH.
Qed.

Lemma res_calls_throw res cs :
  fst (res_calls res cs) = Throw -> exists c, In c cs /\ res c = Throw.
Proof.
  induction cs as [|c cs IH]; cbn [res_calls]; [discriminate|].
  destruct (res c) as [[]|] eqn:Ec.
  - destruct (res_calls res cs) as [r evs]. cbn [fst] in *.
    intros H. destruct (IH H) as (c' & Hin & Hc'). exists c'.
    split; [now right | assumption].
  - intros _. exists c. split; [now left | assumption].
Qed.

Lemma res_calls_thrown res cs :
  fst (res_calls res cs) = Throw ->
  exists before c after,
    cs = before ++ c :: after /\
    (forall b, In b before -> res b = Ok tt) /\
    res c = Throw /\
    snd (res_calls res cs) = map Res (before ++ [c]).
Proof.
  induction cs as [|c cs IH]; cbn [res_calls]; [discriminate|].
  destruct (res c) as [[]|] eqn:Ec.
  - destruct (res_calls res cs) as [r evs]. cbn [fst snd] in *.
    intros H. destruct (IH H) as (before & c' & after & -> & Hb & Hc' & ->).
    exists (c :: before), c', after. repeat split; auto.
    intros b [<-|Hin]; [assumption | now apply Hb].
  - intros _. exists [], c, cs. repeat split; auto. intros b [].
Qed.

Lemma res_calls_returned res cs :
  fst (res_calls res cs) = Ok tt -> forall c, In c cs -> res c = Ok tt.
Proof.
  induction cs as [|c1 cs IH]; cbn [res_calls]; [intros _ c []|].
  destruct (res c1) as [[]|] eqn:E1; [|discriminate].
  destruct (res_calls res cs) as [r evs]. cbn [fst] in *.
  intros Hr c [<-|Hc]; [assumption | now apply IH].
Qed.

Lemma product_path_served pathname slug :
  extractProductSlug pathname = Some slug ->
  startsWith (js "/api") pathname || startsWith (js "/uploads") pathname
  = false.
Proof.
  intros H. apply extractProductSlug_Some in H.
  destruct H as (r & -> & _). reflexivity.
Qed.

Ltac in_cases H :=
  repeat match type of H with
         | In _ (_ ++ _) => apply in_app_or in H; destruct H as [H|H]
         | In _ (_ :: _) => destruct H as [H|H]
         | In _ [] => destruct H
         end.

Section MiddlewareFacts.

Variable Product : Type.
Variable findOne : jsstring -> result (option Product).
Variable findById : jsstring -> result (option Product).
Variable generateProductSeoTags : Product -> jsstring -> result SeoTagSet.
Variable createMetaTagsHtml : SeoTagSet -> result jsstring.
Variable res : res_call -> result unit.
Variable next : result unit.

Let inject :=
  injectMetaTags findOne findById generateProductSeoTags createMetaTagsHtml.
Let middleware :=
  seoMetaInjectionMiddleware findOne findById generateProductSeoTags
    createMetaTagsHtml res next.

(** The middleware, by cases. *)
Lemma middleware_cases readFileSync req cachedIndexHtml :
  middleware readFileSync req cachedIndexHtml =
  if passed_on req then (next, cachedIndexHtml, [Next])
  else
    let '(html, cache, read) := getIndexHtml readFileSync cachedIndexHtml in
    match html with
    | Some (c :: t) =>
        let page := inject (c :: t) (path req) (base_url req) in
        let tried := read ++ map Injector (snd page) in
        match res_calls res
                [SetHeader (js "Content-Type")
                   (js "text/html; charset=UTF-8");
                 SetHeader (js "Cache-Control")
                   (js "public, max-age=0, must-revalidate");
                 Send (fst page)] with
        | (Ok _, sent) => (Ok tt, cache, tried ++ sent)
        | (Throw, sent) =>
            (fst (internal_server_error res), cache,
             tried ++ sent ++ [LogError] ++
             snd (internal_server_error res))
        end
    | _ =>
        (fst (internal_server_error res), cache,
         read ++ snd (internal_server_error res))
    end.
Proof.
  unfold middleware, seoMetaInjectionMiddleware, passed_on, inject, base_url.
  destruct (startsWith (js "/api") (path req)
            || startsWith (js "/uploads") (path req)); [reflexivity|].
  destruct (getIndexHtml readFileSync cachedIndexHtml) as [[html cache] read].
  destruct html as [[|c t]|]; cbn [truthy negb].
  - now destruct (internal_server_error res).
  - destruct (injectMetaTags _ _ _ _ (c :: t) (path req) _) as [page calls].
    cbn [fst snd].
    destruct (res_calls res _) as [[[]|] sent].
    + now rewrite <- app_assoc.
    + destruct (internal_server_error res). cbn [fst snd].
      now rewrite <- !app_assoc.
  - now destruct (internal_server_error res).
Qed.

(** X3.  The middleware hands a request to [next], and does nothing else
    with it, when its path begins with [/api] or with [/uploads]; it calls
    [next] for no other request.  In particular no product page is passed
    on. *)
Theorem middleware_passes_on readFileSync req cachedIndexHtml :
  (passed_on req = true ->
   middleware readFileSync req cachedIndexHtml =
   (next, cachedIndexHtml, [Next])) /\
  (In Next (snd (middleware readFileSync req cachedIndexHtml)) <->
   passed_on req = true) /\
  (forall slug, extractProductSlug (path req) = Some slug ->
   ~ In Next (snd (middleware readFileSync req cachedIndexHtml))).
Proof.
  assert (Hno : passed_on req = false ->
                ~ In Next (snd (middleware readFileSync req cachedIndexHtml))).
  { intros Hp. rewrite middleware_cases, Hp.
    assert (Hread :
      ~ In Next (snd (getIndexHtml readFileSync cachedIndexHtml))).
    { unfold getIndexHtml. destruct (truthy cachedIndexHtml); [intros []|].
      destruct readFileSync; cbn; intuition discriminate. }
    assert (Hres : forall cs, ~ In Next (snd (res_calls res cs))).
    { intros cs. destruct (res_calls_events res cs) as (done & -> & _).
      intros H. apply in_map_iff in H. destruct H as (c & H & _).
      discriminate. }
    assert (Hinj : forall l, ~ In Next (map Injector l)).
    { intros l H. apply in_map_iff in H. destruct H as (c & H & _).
      discriminate. }
    destruct (getIndexHtml readFileSync cachedIndexHtml)
      as [[html cache] read]. cbn [snd] in Hread.
    unfold internal_server_error.
    destruct html as [[|c t]|]; cbn [snd];
      try match goal with |- context [res_calls res (SetHeader ?a ?b :: ?cs)] =>
        pose proof (Hres (SetHeader a b :: cs)) as Hpage;
        destruct (res_calls res (SetHeader a b :: cs)) as [[[]|] sent] end;
      cbn [snd] in *; intros H; in_cases H;
      first [ discriminate | now apply Hread in H | now apply Hinj in H
            | now apply Hres in H | contradiction ]. }
  split; [|split].
  - intros Hp. now rewrite middleware_cases, Hp.
  - split.
    + intros H. destruct (passed_on req) eqn:Hp; [reflexivity|].
      now apply Hno in H.
    + intros Hp. rewrite middleware_cases, Hp. now left.
  - intros slug Hs. apply Hno. unfold passed_on.
    now apply (product_path_served _ slug).
Qed.

(** X4.  The middleware looks a product up only to serve a product page
    from a template that it has: every call of the injector that it makes
    belongs to a request that is not passed on, whose path has a slug, and
    for which [getIndexHtml] returned a non-empty template; and the call is
    one that the injector makes for that template, that path and the base
    URL of the request. *)
Theorem middleware_lookups_only_for_products
    readFileSync req cachedIndexHtml e :
  In (Injector e) (snd (middleware readFileSync req cachedIndexHtml)) ->
  passed_on req = false /\
  exists template slug,
    fst (fst (getIndexHtml readFileSync cachedIndexHtml)) = Some template /\
    template <> [] /\
    extractProductSlug (path req) = Some slug /\
    In e (snd (inject template (path req) (base_url req))).
Proof.
  rewrite middleware_cases.
  destruct (passed_on req); [intros [H|[]]; discriminate|].
  intros H. split; [reflexivity|].
  assert (Hread : ~ In (Injector e)
                      (snd (getIndexHtml readFileSync cachedIndexHtml))).
  { unfold getIndexHtml. destruct (truthy cachedIndexHtml); [intros []|].
    destruct readFileSync; cbn; intuition discriminate. }
  assert (Hres : forall cs, ~ In (Injector e) (snd (res_calls res cs))).
  { intros cs. destruct (res_calls_events res cs) as (done & -> & _).
    intros H'. apply in_map_iff in H'. destruct H' as (c & H' & _).
    discriminate. }
  destruct (getIndexHtml readFileSync cachedIndexHtml)
    as [[html cache] read]. cbn [fst snd] in *.
  assert (Hin : exists c t, html = Some (c :: t) /\
                  In e (snd (inject (c :: t) (path req) (base_url req)))).
  { unfold internal_server_error in H.
    destruct html as [[|c t]|]; cbn [snd] in H.
    - in_cases H; first [contradiction | now apply Hres in H].
    - exists c, t. split; [reflexivity|].
      match type of H with context [res_calls res ?cs] =>
        pose proof (Hres cs) as Hpage;
        destruct (res_calls res cs) as [[[]|] sent] end;
        cbn [snd] in *; in_cases H;
        try (apply in_map_iff in H; destruct H as (e' & E & H);
             now injection E as <-);
        first [ discriminate | contradiction | now apply Hres in H ].
    - in_cases H; first [contradiction | now apply Hres in H]. }
  destruct Hin as (c & t & -> & Hin).
  destruct (extractProductSlug (path req)) as [slug|] eqn:Es.
  - exists (c :: t), slug. repeat split; [discriminate | assumption].
  - unfold inject in Hin. rewrite inject_no_slug in Hin by assumption.
    destruct Hin.
Qed.

(** X5.  An error of [res.setHeader] or of [res.send(html)] is caught and
    answered with the status 500: when one of the three calls that send the
    page throws, the calls before it have returned, no call after it is
    made, and what follows is the logging of the error and
    [res.status(500)], then [res.send('Internal Server Error')] if the
    former returns; the promise is fulfilled if both return.  So the
    promise of the middleware is rejected only when [next] throws for a
    request that is passed on, or when the answer
    [res.status(500).send('Internal Server Error')] itself throws. *)
Theorem middleware_rejects_only_if readFileSync req cachedIndexHtml :
  (fst (fst (middleware readFileSync req cachedIndexHtml)) = Throw ->
   (passed_on req = true /\ next = Throw) \/
   res (Status 500) = Throw \/
   res (Send (js "Internal Server Error")) = Throw) /\
  (forall template cache read,
     passed_on req = false ->
     getIndexHtml readFileSync cachedIndexHtml = (Some template, cache, read) ->
     template <> [] ->
     let page := inject template (path req) (base_url req) in
     let calls :=
       [SetHeader (js "Content-Type") (js "text/html; charset=UTF-8");
        SetHeader (js "Cache-Control")
          (js "public, max-age=0, must-revalidate");
        Send (fst page)] in
     (exists c, In c calls /\ res c = Throw) ->
     exists before c after outcome rest,
       calls = before ++ c :: after /\
       (forall b, In b before -> res b = Ok tt) /\
       res c = Throw /\
       middleware readFileSync req cachedIndexHtml =
       (outcome, cache,
        read ++ map Injector (snd page) ++ map Res (before ++ [c]) ++
        LogError :: Res (Status 500) :: rest) /\
       (res (Status 500) = Throw -> rest = [] /\ outcome = Throw) /\
       (res (Status 500) = Ok tt ->
        rest = [Res (Send (js "Internal Server Error"))] /\
        outcome = res (Send (js "Internal Server Error")))).
Proof.
  split.
  - rewrite middleware_cases. destruct (passed_on req); [now left|].
    intros H. right.
    assert (Herr : fst (internal_server_error res) = Throw ->
                   res (Status 500) = Throw \/
                   res (Send (js "Internal Server Error")) = Throw).
    { intros E. apply res_calls_throw in E.
      destruct E as (c & [<-|[<-|[]]] & Hc); auto. }
    destruct (getIndexHtml readFileSync cachedIndexHtml)
      as [[html cache] read].
    destruct html as [[|c t]|]; cbn [fst] in H; auto.
    destruct (res_calls res _) as [[[]|] sent]; cbn [fst] in H;
      [discriminate | auto].
  - intros template cache read Hp Hget Hne page calls (c0 & Hin & Hc0).
    destruct template as [|c t]; [congruence|].
    rewrite middleware_cases, Hp, Hget. cbv zeta.
    match goal with |- context [res_calls res ?l] =>
      change (res_calls res l) with (res_calls res calls) end.
    change (inject (c :: t) (path req) (base_url req)) with page.
    assert (Hthrow : fst (res_calls res calls) = Throw).
    { destruct (res_calls res calls) as [[[]|] sent] eqn:Hcalls;
        [|reflexivity].
      rewrite (res_calls_returned res calls) in Hc0;
        [discriminate | now rewrite Hcalls | assumption]. }
    destruct (res_calls_thrown res calls Hthrow)
      as (before & c1 & after & Hsplit & Hbefore & Hc1 & Hev).
    destruct (res_calls res calls) as [r sent]. cbn [fst snd] in Hthrow, Hev.
    subst r sent. unfold internal_server_error. cbn [res_calls].
    exists before, c1, after.
    destruct (res (Status 500)) as [[]|] eqn:E500.
    + destruct (res (Send (js "Internal Server Error"))) as [[]|] eqn:Esend;
        cbn [fst snd];
        eexists; exists [Res (Send (js "Internal Server Error"))];
        (split; [assumption|]); (split; [assumption|]);
        (split; [assumption|]);
        (split; [now rewrite <- !app_assoc|]);
        (split; [discriminate|]); intros _; now split.
    + cbn [fst snd]. exists Throw, [].
      split; [assumption|]. split; [assumption|]. split; [assumption|].
      split; [now rewrite <- !app_assoc|].
      split; [intros _; now split | discriminate].
Qed.

(** X6.  When no method of [res] throws, a request that is not passed on
    is answered exactly once, by the last thing the middleware does, and
    the promise is fulfilled.  The answer has the status 500, and the body
    [Internal Server Error], exactly when [getIndexHtml] returned a falsy
    value; then nothing is looked up and no header is set. *)
Theorem middleware_answers_once readFileSync req cachedIndexHtml :
  sound res -> passed_on req = false ->
  let html := fst (fst (getIndexHtml readFileSync cachedIndexHtml)) in
  let read := snd (getIndexHtml readFileSync cachedIndexHtml) in
  fst (fst (middleware readFileSync req cachedIndexHtml)) = Ok tt /\
  exists evs body,
    snd (middleware readFileSync req cachedIndexHtml) =
    evs ++ [Res (Send body)] /\
    (forall b, ~ In (Res (Send b)) evs) /\
    (In (Res (Status 500)) evs <-> truthy html = false) /\
    (truthy html = false ->
     evs = read ++ [Res (Status 500)] /\ body = js "Internal Server Error").
Proof.
  intros Hs Hp. cbn zeta. rewrite middleware_cases, Hp.
  unfold internal_server_error. rewrite !res_calls_sound by assumption.
  assert (Hread : forall c,
            ~ In (Res c) (snd (getIndexHtml readFileSync cachedIndexHtml))).
  { intros c. unfold getIndexHtml.
    destruct (truthy cachedIndexHtml); [intros []|].
    destruct readFileSync; cbn; intuition discriminate. }
  destruct (getIndexHtml readFileSync cachedIndexHtml)
    as [[html cache] read]. cbn [fst snd map] in *.
  assert (Hinj : forall c l, ~ In (Res c) (map Injector l)).
  { intros c l H. apply in_map_iff in H. destruct H as (e & H & _).
    discriminate. }
  assert (Herr :
    exists evs body,
      read ++ [Res (Status 500); Res (Send (js "Internal Server Error"))] =
      evs ++ [Res (Send body)] /\
      (forall b, ~ In (Res (Send b)) evs) /\
      (In (Res (Status 500)) evs <-> false = false) /\
      (false = false ->
       evs = read ++ [Res (Status 500)] /\
       body = js "Internal Server Error")).
  { exists (read ++ [Res (Status 500)]), (js "Internal Server Error").
    repeat split; auto.
    - now rewrite <- app_assoc.
    - intros b H. apply in_app_or in H.
      destruct H as [H|[H|[]]]; [now apply Hread in H | discriminate].
    - intros _. apply in_or_app. right. now left. }
  destruct html as [[|c t]|]; rewrite ?res_calls_sound by assumption;
    cbn [fst snd truthy map]; (split; [reflexivity|]); try exact Herr.
  exists (read ++
          map Injector (snd (inject (c :: t) (path req) (base_url req))) ++
          [Res (SetHeader (js "Content-Type") (js "text/html; charset=UTF-8"));
           Res (SetHeader (js "Cache-Control")
                  (js "public, max-age=0, must-revalidate"))]),
         (fst (inject (c :: t) (path req) (base_url req))).
  repeat split.
  - now rewrite <- !app_assoc.
  - intros b H. rewrite !in_app_iff in H. cbn [In] in H.
    destruct H as [H|[H|[H|[H|[]]]]]; try discriminate;
      [now apply Hread in H | now apply Hinj in H].
  - intros H. rewrite !in_app_iff in H. cbn [In] in H.
    destruct H as [H|[H|[H|[H|[]]]]]; try discriminate;
      [now apply Hread in H | now apply Hinj in H].
  - discriminate.
  - discriminate.
  - discriminate.
Qed.

(** X7.  Once the template is in [cachedIndexHtml], every request is served
    from that very template: whatever requests came before and whatever
    has become of the file, a request that is not passed on is answered
    with the two headers and with the document that the injector makes of
    the template for the path and the base URL of the request, without
    reading the file; [cachedIndexHtml] keeps the template, never a page
    made for a request.  For a path without a slug the body is the template
    itself, and nothing is looked up. *)
Theorem served_from_template template arrivals :
  sound res -> template <> [] ->
  snd (serve middleware arrivals (Some template)) = Some template /\
  Forall2
    (fun arrival answer =>
       let req := snd arrival in
       let page := inject template (path req) (base_url req) in
       (passed_on req = true -> answer = (next, [Next])) /\
       (passed_on req = false ->
        answer = (Ok tt, map Injector (snd page) ++ page_sent (fst page))) /\
       (passed_on req = false -> extractProductSlug (path req) = None ->
        answer = (Ok tt, page_sent template)))
    arrivals (fst (serve middleware arrivals (Some template))).
Proof.
  intros Hs Hne. destruct template as [|c t]; [congruence|]. clear Hne.
  induction arrivals as [|[rf req] rest [IHc IHa]]; cbn [serve fst snd].
  - split; [reflexivity | constructor].
  - rewrite middleware_cases.
    destruct (passed_on req) eqn:Hp.
    + destruct (serve middleware rest (Some (c :: t))) as [answers final].
      cbn [fst snd] in *. split; [assumption|].
      constructor; [|assumption]. cbn [snd]. rewrite Hp.
      repeat split; auto; discriminate.
    + cbn [getIndexHtml truthy]. rewrite res_calls_sound by assumption.
      cbn [app].
      destruct (serve middleware rest (Some (c :: t))) as [answers final].
      cbn [fst snd] in *. split; [assumption|].
      constructor; [|assumption]. cbn [snd]. rewrite Hp.
      split; [discriminate|]. split; [reflexivity|].
      intros _ Es. unfold inject. rewrite inject_no_slug by assumption.
      reflexivity.
Qed.

End MiddlewareFacts.

(** ** The injector that inserts the rendered tags *)

Lemma slices_at (p pre post : jsstring) :
  slice_to (length pre) (pre ++ p ++ post) = pre /\
  slice_from (length pre) (pre ++ p ++ post) = p ++ post /\
  slice_from (length pre + length p) (pre ++ p ++ post) = post.
Proof.
  unfold slice_to, slice_from. split; [apply firstn_length_app|].
  split; [apply skipn_length_app|].
  rewrite app_assoc, <- length_app. apply skipn_length_app.
Qed.

Lemma indexOf_first (p s pre post : jsstring) :
  first_occurrence (eq p) s pre p post -> indexOf p s = Some (length pre).
Proof.
  intros (-> & _ & Hmin). apply indexOf_Some. split.
  - now exists pre, post.
  - intros j (a & b & E & <-). now apply (Hmin a p b).
Qed.

Lemma first_of_indexOf (p s : jsstring) i :
  indexOf p s = Some i ->
  exists pre post, first_occurrence (eq p) s pre p post /\ length pre = i.
Proof.
  intros H. apply indexOf_Some in H.
  destruct H as [(pre & post & -> & <-) Hmin].
  exists pre, post. split; [|reflexivity].
  split; [reflexivity|]. split; [reflexivity|].
  intros a q b E <-. apply Hmin. now exists a, b.
Qed.

Lemma first_at (p pre post : jsstring) :
  indexOf p (pre ++ p ++ post) = Some (length pre) ->
  first_occurrence (eq p) (pre ++ p ++ post) pre p post.
Proof.
  intros H. apply indexOf_Some in H. destruct H as [_ Hmin].
  split; [reflexivity|]. split; [reflexivity|].
  intros a q b E <-. apply Hmin. now exists a, b.
Qed.

Lemma absent_indexOf (p s : jsstring) :
  absent (eq p) s <-> indexOf p s = None.
Proof.
  rewrite indexOf_None. split.
  - intros H pre post E. now apply (H pre p post).
  - intros H a q b E <-. now apply (H a b).
Qed.

(** [s.replace(p, t + p)] puts [t] before the first occurrence of [p],
    when [t] and [p] contain no [$]. *)
Lemma replace_string_insert (p t s : jsstring) :
  ~ In dollar t -> ~ In dollar p ->
  replace_string p (t ++ p) s =
  match indexOf p s with
  | Some i => slice_to i s ++ t ++ slice_from i s
  | None => s
  end.
Proof.
  intros Ht Hp. unfold replace_string.
  destruct (indexOf p s) as [i|] eqn:E; [|reflexivity].
  destruct (first_of_indexOf p s i E) as (pre & post & (-> & _) & <-).
  destruct (slices_at p pre post) as (-> & -> & ->).
  rewrite getSubstitution_plain.
  - now rewrite <- !app_assoc.
  - intros H. apply in_app_or in H. tauto.
Qed.

Section BlockInjector.

Variable Product : Type.
Variable findOne : jsstring -> result (option Product).
Variable findById : jsstring -> result (option Product).
Variable generateProductSeoTags : Product -> jsstring -> result SeoTagSet.
Variable createMetaTagsHtml : SeoTagSet -> result jsstring.

Let inject :=
  injectMetaTags_block findOne findById generateProductSeoTags
    createMetaTagsHtml.

(** The injector of part_002, by cases on the outcome of the lookups, of
    the generator and of the renderer. *)
Lemma inject_block_cases html pathname baseUrl slug :
  extractProductSlug pathname = Some slug ->
  inject html pathname baseUrl =
  match lookup findOne findById slug with
  | Throw => (html, lookup_events findOne slug ++ [ConsoleError])
  | Ok None => (html, lookup_events findOne slug)
  | Ok (Some product) =>
      match generateProductSeoTags product baseUrl with
      | Throw => (html, lookup_events findOne slug ++ [ConsoleError])
      | Ok seoData =>
          match createMetaTagsHtml seoData with
          | Throw => (html, lookup_events findOne slug ++ [ConsoleError])
          | Ok metaTags =>
              (match indexOf head_closing html with
               | Some i => slice_to i html ++ metaTags ++ slice_from i html
               | None => html
               end, lookup_events findOne slug)
          end
      end
  end.
Proof.
  intros H. unfold inject, injectMetaTags_block.
  rewrite H, (extracted_truthy _ _ H). cbn [negb].
  unfold injectMetaTags_block_try, lookup, lookup_events, head_closing.
  unfold mbind, call, lift, ret, read_html. cbn [var_html trace app].
  destruct (findOne slug) as [[p|]|]; cbn [var_html trace app].
  - destruct (generateProductSeoTags p baseUrl) as [sd|]; [|reflexivity].
    destruct (createMetaTagsHtml sd) as [mt|]; [|reflexivity].
    cbn [var_html trace].
    now destruct (indexOf (js "</head>") html).
  - destruct (findById slug) as [[p|]|]; cbn [var_html trace app];
      try reflexivity.
    destruct (generateProductSeoTags p baseUrl) as [sd|]; [|reflexivity].
    destruct (createMetaTagsHtml sd) as [mt|]; [|reflexivity].
    cbn [var_html trace].
    now destruct (indexOf (js "</head>") html).
  - reflexivity.
Qed.

(** X8.  When the product is found and its tags are generated and
    rendered, the injector of part_002 puts the rendered tags just before
    the first [</head>] of the document, and leaves everything before and
    after as it is; a document without [</head>] is returned unchanged.
    Only the lookups happen, and no error is logged. *)
Theorem block_inserted_before_head
    html pathname baseUrl slug product seoData metaTags :
  extractProductSlug pathname = Some slug ->
  lookup findOne findById slug = Ok (Some product) ->
  generateProductSeoTags product baseUrl = Ok seoData ->
  createMetaTagsHtml seoData = Ok metaTags ->
  snd (inject html pathname baseUrl) = lookup_events findOne slug /\
  (forall pre post,
     first_occurrence (eq head_closing) html pre head_closing post ->
     fst (inject html pathname baseUrl) =
     pre ++ metaTags ++ head_closing ++ post) /\
  (absent (eq head_closing) html -> fst (inject html pathname baseUrl) = html).
Proof.
  intros Hs Hl Hg Hr. rewrite (inject_block_cases _ _ _ _ Hs), Hl, Hg, Hr.
  cbn [fst snd]. split; [reflexivity|]. split.
  - intros pre post Hf. rewrite (indexOf_first _ _ _ _ Hf).
    destruct Hf as (-> & _).
    now destruct (slices_at head_closing pre post) as (-> & -> & _).
  - intros Ha. apply absent_indexOf in Ha. now rewrite Ha.
Qed.

(** X9.  The injector of part_002 never alters the text of the document:
    what it returns is the document with a piece of text put in at one
    place, nothing removed.  It returns the very document whenever
    it logs an error, whatever raised it, and whenever the path has no slug
    or the product is not found. *)
Theorem block_keeps_document html pathname baseUrl :
  (exists pre inserted post,
     html = pre ++ post /\
     fst (inject html pathname baseUrl) = pre ++ inserted ++ post) /\
  (In ConsoleError (snd (inject html pathname baseUrl)) ->
   fst (inject html pathname baseUrl) = html) /\
  (extractProductSlug pathname = None ->
   inject html pathname baseUrl = (html, [])) /\
  (forall slug,
     extractProductSlug pathname = Some slug ->
     lookup findOne findById slug = Ok None ->
     inject html pathname baseUrl = (html, lookup_events findOne slug)).
Proof.
  assert (Hsame : forall evs : list event,
            exists pre inserted post,
              html = pre ++ post /\
              fst (html, evs) = pre ++ inserted ++ post).
  { intros evs. exists html, [], []. now rewrite !app_nil_r. }
  assert (Hnone : extractProductSlug pathname = None ->
                  inject html pathname baseUrl = (html, [])).
  { intros E. unfold inject, injectMetaTags_block. now rewrite E. }
  assert (Hlog : forall slug, ~ In ConsoleError (lookup_events findOne slug)).
  { intros slug. unfold lookup_events.
    destruct (findOne slug) as [[p|]|]; cbn; intuition discriminate. }
  split; [|split; [|split]].
  - destruct (extractProductSlug pathname) as [slug|] eqn:Es.
    2:{ rewrite Hnone by reflexivity. apply Hsame. }
    rewrite (inject_block_cases _ _ _ _ Es).
    destruct (lookup findOne findById slug) as [[p|]|]; try apply Hsame.
    destruct (generateProductSeoTags p baseUrl) as [sd|]; try apply Hsame.
    destruct (createMetaTagsHtml sd) as [mt|]; try apply Hsame.
    destruct (indexOf head_closing html) as [i|] eqn:Ei; try apply Hsame.
    exists (slice_to i html), mt, (slice_from i html). split; [|reflexivity].
    symmetry. apply firstn_skipn.
  - destruct (extractProductSlug pathname) as [slug|] eqn:Es.
    2:{ now rewrite Hnone. }
    rewrite (inject_block_cases _ _ _ _ Es).
    destruct (lookup findOne findById slug) as [[p|]|]; try reflexivity.
    destruct (generateProductSeoTags p baseUrl) as [sd|]; try reflexivity.
    destruct (createMetaTagsHtml sd) as [mt|]; try reflexivity.
    cbn [snd]. intros H. now apply Hlog in H.
  - exact Hnone.
  - intros slug Es El. now rewrite (inject_block_cases _ _ _ _ Es), El.
Qed.

(** X10.  The injector of part_002 is not idempotent: applied to its own
    result for the same request, it inserts the rendered tags once more.
    When the document contains [</head>] and the rendered tags are not
    empty, the second result is longer than the first by the length of the
    rendered tags, and is the first result with the rendered tags put in at
    one place. *)
Theorem block_inserted_twice
    html pathname baseUrl slug product seoData metaTags :
  extractProductSlug pathname = Some slug ->
  lookup findOne findById slug = Ok (Some product) ->
  generateProductSeoTags product baseUrl = Ok seoData ->
  createMetaTagsHtml seoData = Ok metaTags ->
  includes html head_closing = true -> metaTags <> [] ->
  let once := fst (inject html pathname baseUrl) in
  let twice := fst (inject once pathname baseUrl) in
  length once = length html + length metaTags /\
  length twice = length html + 2 * length metaTags /\
  twice <> once /\
  exists pre post, once = pre ++ post /\ twice = pre ++ metaTags ++ post.
Proof.
  intros Hs Hl Hg Hr Hinc Hne. cbn zeta.
  rewrite !(inject_block_cases _ _ _ _ Hs), Hl, Hg, Hr. cbn [fst].
  unfold includes in Hinc.
  destruct (indexOf head_closing html) as [i|] eqn:Ei; [|discriminate].
  destruct (first_of_indexOf _ _ _ Ei) as (pre & post & (-> & _) & <-).
  destruct (slices_at head_closing pre post) as (-> & -> & _).
  assert (Hinc2 : includes (pre ++ metaTags ++ head_closing ++ post)
                    head_closing = true).
  { apply includes_true. exists (pre ++ metaTags), post.
    now rewrite <- !app_assoc. }
  unfold includes in Hinc2.
  destruct (indexOf head_closing (pre ++ metaTags ++ head_closing ++ post))
    as [j|] eqn:Ej; [|discriminate].
  set (once := pre ++ metaTags ++ head_closing ++ post) in *.
  assert (Hlen : length (slice_to j once ++ metaTags ++ slice_from j once) =
                 length once + length metaTags).
  { rewrite !length_app. unfold slice_to, slice_from.
    rewrite <- (firstn_skipn j once) at 3. rewrite length_app. lia. }
  assert (Honce : length once =
                  length (pre ++ head_closing ++ post) + length metaTags).
  { unfold once. rewrite !length_app. lia. }
  split; [assumption|]. split; [lia|]. split.
  - intros E. rewrite E in Hlen. destruct metaTags; [congruence|].
    cbn [length] in Hlen. lia.
  - exists (slice_to j once), (slice_from j once). split; [|reflexivity].
    symmetry. apply firstn_skipn.
Qed.

End BlockInjector.

(** ** The plugins that insert the rendered tags *)

Lemma no_dollar_closing : ~ In dollar (js "</head>").
Proof. vm_compute. intuition discriminate. Qed.

(** Where [s.replace('</head>', t + '</head>')] puts a [t] without [$]. *)
Lemma replace_string_before_head t html :
  ~ In dollar t ->
  (forall pre post,
     first_occurrence (eq head_closing) html pre head_closing post ->
     replace_string (js "</head>") (t ++ js "</head>") html =
     pre ++ t ++ head_closing ++ post) /\
  (absent (eq head_closing) html ->
   replace_string (js "</head>") (t ++ js "</head>") html = html).
Proof.
  intros Hd. rewrite (replace_string_insert _ _ _ Hd no_dollar_closing).
  change (js "</head>") with head_closing. split.
  - intros pre post Hf. rewrite (indexOf_first _ _ _ _ Hf).
    destruct Hf as (-> & _).
    now destruct (slices_at head_closing pre post) as (-> & -> & _).
  - intros Ha. apply absent_indexOf in Ha. now rewrite Ha.
Qed.

Section AxiosPluginFacts.

Variable Product : Type.
Variable generateProductSeoTags : Product -> jsstring -> completion SeoTagSet.
Variable createMetaTagsHtml : SeoTagSet -> completion jsstring.
Variable axios_get : jsstring -> result (option Product).

Let by_axios :=
  transformIndexHtml_axios generateProductSeoTags createMetaTagsHtml axios_get.

(** X11.  The plugin of part_001 asks the backend once for a path with a
    slug, and not at all for any other path, for which it returns the
    document as it is.  When the request throws, the document is returned
    as it is, with a warning; when the answer carries nothing, it is
    returned as it is, without a warning.  When the answer carries a
    product and the generator or the renderer throws a value other than
    [null] and [undefined], the document is returned as it is, with a
    warning; when what they throw is [null] or [undefined], the promise is
    rejected, without a warning.
    When the tags are generated and rendered, the document returned is what
    [html.replace('</head>', metaTags + '</head>')] gives: for rendered tags
    without [$], the document with the rendered tags just before its first
    [</head>], and the document as it is if it has no [</head>]. *)
Theorem axios_plugin_inserts html pathname :
  (extractProductSlug pathname = None ->
   by_axios html pathname = (Ok html, [])) /\
  (forall slug,
     extractProductSlug pathname = Some slug ->
     let url := product_url slug in
     let baseUrl := js "http://localhost:8080" in
     (axios_get url = Throw ->
      by_axios html pathname = (Ok html, [Fetch url; ConsoleWarn])) /\
     (axios_get url = Ok None ->
      by_axios html pathname = (Ok html, [Fetch url])) /\
     (forall product err,
        axios_get url = Ok (Some product) ->
        generateProductSeoTags product baseUrl = Abrupt err \/
        (exists seoData,
           generateProductSeoTags product baseUrl = Normal seoData /\
           createMetaTagsHtml seoData = Abrupt err) ->
        (err = Value ->
         by_axios html pathname = (Ok html, [Fetch url; ConsoleWarn])) /\
        (err = Nullish ->
         by_axios html pathname = (Throw, [Fetch url]))) /\
     (forall product seoData metaTags,
        axios_get url = Ok (Some product) ->
        generateProductSeoTags product baseUrl = Normal seoData ->
        createMetaTagsHtml seoData = Normal metaTags ->
        by_axios html pathname =
        (Ok (replace_string (js "</head>") (metaTags ++ js "</head>") html),
         [Fetch url]) /\
        (~ In dollar metaTags ->
         (forall pre post,
            first_occurrence (eq head_closing) html pre head_closing post ->
            by_axios html pathname =
            (Ok (pre ++ metaTags ++ head_closing ++ post), [Fetch url])) /\
         (absent (eq head_closing) html ->
          by_axios html pathname = (Ok html, [Fetch url]))))).
Proof.
  split.
  - intros E. unfold by_axios, transformIndexHtml_axios. now rewrite E.
  - intros slug Es url baseUrl.
    assert (Hcases : by_axios html pathname =
      match axios_get url with
      | Throw => (Ok html, [Fetch url; ConsoleWarn])
      | Ok None => (Ok html, [Fetch url])
      | Ok (Some product) =>
          match generateProductSeoTags product baseUrl with
          | Abrupt err => axios_caught err html [Fetch url]
          | Normal seoData =>
              match createMetaTagsHtml seoData with
              | Abrupt err => axios_caught err html [Fetch url]
              | Normal metaTags =>
                  (Ok (replace_string (js "</head>")
                         (metaTags ++ js "</head>") html), [Fetch url])
              end
          end
      end).
    { unfold by_axios, transformIndexHtml_axios.
      rewrite Es, (extracted_truthy _ _ Es). cbn [negb].
      fold (product_url slug). fold url. fold baseUrl.
      now destruct (axios_get url) as [[p|]|]. }
    rewrite Hcases. split; [|split; [|split]].
    + now intros ->.
    + now intros ->.
    + intros product err -> [-> | (sd & -> & ->)];
        (split; intros ->; reflexivity).
    + intros product seoData metaTags -> -> ->.
      split; [reflexivity|]. intros Hd.
      destruct (replace_string_before_head metaTags html Hd) as [Hf Ha].
      split.
      * intros pre post H. now rewrite (Hf pre post H).
      * intros H. now rewrite (Ha H).
Qed.

End AxiosPluginFacts.

Section BlockPlugins.

Variable Product : Type.
Variable generateProductSeoTags : Product -> jsstring -> result SeoTagSet.
Variable createMetaTagsHtml : SeoTagSet -> result jsstring.
Variable fetch : jsstring -> result (response Product).

Let by_fetch :=
  transformIndexHtml_block generateProductSeoTags createMetaTagsHtml fetch.

(** X12.  The second plugin of part_000 asks the backend once for a path
    with a slug, and not at all for any other path.  The body of the
    answer is read only when [response.ok] holds: otherwise the document
    is returned as it is, without a warning, and so it is when the body
    carries nothing.  When the body carries a product whose tags are
    generated and rendered without [$], the rendered tags are put just
    before the first [</head>] of the document.  When [fetch] throws, or
    the body is not JSON, the document is returned as it is, with a
    warning. *)
Theorem fetch_plugin_inserts html pathname :
  (extractProductSlug pathname = None -> by_fetch html pathname = (html, [])) /\
  (forall slug,
     extractProductSlug pathname = Some slug ->
     let url := product_url slug in
     (forall body, fetch url = Ok (Response false body) ->
        by_fetch html pathname = (html, [Fetch url])) /\
     (fetch url = Ok (Response true (Ok None)) ->
        by_fetch html pathname = (html, [Fetch url])) /\
     (fetch url = Throw \/ fetch url = Ok (Response true Throw) ->
        by_fetch html pathname = (html, [Fetch url; ConsoleWarn])) /\
     (forall product seoData metaTags,
        fetch url = Ok (Response true (Ok (Some product))) ->
        generateProductSeoTags product (js "http://localhost:8080")
        = Ok seoData ->
        createMetaTagsHtml seoData = Ok metaTags ->
        ~ In dollar metaTags ->
        snd (by_fetch html pathname) = [Fetch url] /\
        (forall pre post,
           first_occurrence (eq head_closing) html pre head_closing post ->
           fst (by_fetch html pathname) =
           pre ++ metaTags ++ head_closing ++ post) /\
        (absent (eq head_closing) html ->
         fst (by_fetch html pathname) = html))).
Proof.
  split.
  - intros E. unfold by_fetch, transformIndexHtml_block. now rewrite E.
  - intros slug Es url.
    assert (Hcases : by_fetch html pathname =
      match fetch url with
      | Throw => (html, [Fetch url; ConsoleWarn])
      | Ok (Response false _) => (html, [Fetch url])
      | Ok (Response true Throw) => (html, [Fetch url; ConsoleWarn])
      | Ok (Response true (Ok None)) => (html, [Fetch url])
      | Ok (Response true (Ok (Some product))) =>
          match generateProductSeoTags product (js "http://localhost:8080")
          with
          | Throw => (html, [Fetch url; ConsoleWarn])
          | Ok seoData =>
              match createMetaTagsHtml seoData with
              | Throw => (html, [Fetch url; ConsoleWarn])
              | Ok metaTags =>
                  (replace_string (js "</head>") (metaTags ++ js "</head>")
                     html, [Fetch url])
              end
          end
      end).
    { unfold by_fetch, transformIndexHtml_block.
      rewrite Es, (extracted_truthy _ _ Es). cbn [negb].
      unfold transformIndexHtml_block_try, mbind, call, lift, ret, read_html.
      cbn [var_html trace app]. fold (product_url slug). fold url.
      destruct (fetch url) as [[[|] [[p|]|]]|]; cbn [ok json_data];
        try reflexivity.
      destruct (generateProductSeoTags p _) as [sd|]; try reflexivity.
      destruct (createMetaTagsHtml sd) as [mt|]; reflexivity. }
    rewrite Hcases. split; [|split; [|split]].
    + now intros body ->.
    + now intros ->.
    + now intros [-> | ->].
    + intros product seoData metaTags -> -> -> Hd. cbn [fst snd].
      split; [reflexivity|].
      rewrite (replace_string_insert _ _ _ Hd no_dollar_closing).
      change (js "</head>") with head_closing. split.
      * intros pre post Hf. rewrite (indexOf_first _ _ _ _ Hf).
        destruct Hf as (-> & _).
        now destruct (slices_at head_closing pre post) as (-> & -> & _).
      * intros Ha. apply absent_indexOf in Ha. now rewrite Ha.
Qed.

End BlockPlugins.

(** ** The five statements of the plugin and of the earlier injector *)

Lemma exec_steps_ext (steps steps' : list (jsstring -> result jsstring)) x :
  Forall2 (fun s s' => forall h, s h = s' h) steps steps' ->
  exec_steps steps x = exec_steps steps' x.
Proof.
  intros H. revert x. induction H as [|s s' l l' Hs _ IH]; intros x;
    [reflexivity|].
  cbn [exec_steps]. rewrite Hs. destruct (s' x); [apply IH | reflexivity].
Qed.

Lemma five_steps sd x :
  exec_steps (five sd) x = exec_steps (map (step_of sd) five_kinds) x.
Proof.
  apply exec_steps_ext. unfold five, five_kinds. cbn [map step_of].
  repeat constructor. apply step_keywords_plugin_eq.
Qed.

Lemma exec_steps_app (a b : list (jsstring -> result jsstring)) x :
  exec_steps (a ++ b) x =
  let (ok, h) := exec_steps a x in
  if ok then exec_steps b h else (false, h).
Proof.
  revert x. induction a as [|s a IH]; intros x; [reflexivity|].
  cbn [app exec_steps]. destruct (s x) as [h|]; [apply IH | reflexivity].
Qed.

(** The steps of some kinds, run from a state in which the steps of the
    kinds before them have run. *)
Lemma invariant_prefix sd :
  complete sd -> plain_values sd ->
  forall todo done rest x,
    done ++ todo ++ rest = kinds -> invariant sd done x ->
    exists x', exec_steps (map (step_of sd) todo) x = (true, x') /\
               invariant sd (done ++ todo) x'.
Proof.
  intros Hc Hp. induction todo as [|k todo IH]; intros done rest x E Hinv.
  - rewrite app_nil_r. now exists x.
  - destruct (kinds_order done k (todo ++ rest) E) as [Hk Hord].
    destruct (invariant_step sd done k x Hc Hp Hinv Hk Hord)
      as (x1 & Hstep & Hinv1).
    destruct (IH (done ++ [k]) rest x1) as (x' & Hrun & Hinv').
    + now rewrite <- app_assoc.
    + assumption.
    + exists x'. rewrite <- app_assoc in Hinv'. split; [|assumption].
      cbn [map exec_steps]. now rewrite Hstep.
Qed.

(** Once the steps of some kinds have run, each of them leaves the
    document as it is. *)
Lemma invariant_fixed_on sd done x k :
  complete sd -> plain_values sd -> invariant sd done x -> In k done ->
  step_of sd k x = Ok x.
Proof.
  intros Hc Hp (Hx & _ & Hfix & Hset) Hin.
  destruct (field_cases sd k Hc) as [(v & Hf & Hne) | [-> Hina]];
    [|now apply inactive_step].
  destruct (Hp k v Hf) as [Hd Hv].
  destruct (Hfix k v Hin Hf Hne) as [Hfirst | (Hk & a & Ha & Hinc)].
  2:{ now rewrite (step_conditional sd k a v x Hk Ha Hf), Hinc. }
  assert (Hrep : replace (re_of k) (written k v) x = x).
  { destruct (replace_outcome k v x Hd)
      as [[_ E] | (pre & m & post & Hfo & E)]; [assumption|].
    rewrite E. pose proof Hfo as (Hs & _).
    now rewrite <- (Hfirst pre m post Hfo). }
  destruct (attr_text k) as [a|] eqn:Ha.
  - destruct (kind_eq_dec k Keywords) as [-> | Hk].
    + cbn [attr_text] in Ha. injection Ha as <-.
      cbn [step_of]. cbn [field] in Hf.
      rewrite (step_keywords_form sd v x Hf (Hne eq_refl)).
      cbn [re_of] in Hrep. rewrite Hrep.
      destruct (includes x (jsq "name='keywords'")) eqn:Einc; [reflexivity|].
      assert (Habs : absent (shape Keywords) x).
      { destruct (shape_cases Keywords x) as [H | (pre & m & post & H)];
          [assumption|].
        pose proof H as (Hs & _).
        rewrite (includes_piece x pre m post _ Hs) in Einc; [discriminate|].
        rewrite (Hfirst pre m post H). now apply written_includes. }
      destruct (Hset Hin) as [H | H].
      * exists v. split; [assumption | now apply Hne].
      * assumption.
      * congruence.
      * now rewrite H.
    + rewrite (step_conditional sd k a v x Hk Ha Hf), Hrep.
      now destruct (includes x a).
  - now rewrite (step_unconditional sd k v x Ha Hf), Hrep.
Qed.

(** The five statements run to the end, and then each of them leaves the
    document as it is. *)
Lemma five_idempotent sd html :
  complete sd -> plain_values sd ->
  well_quoted html -> spelled html Keywords ->
  exists html',
    exec_steps (five sd) html = (true, html') /\
    exec_steps (five sd) html' = (true, html').
Proof.
  intros Hc Hp Hx Hsp.
  destruct (invariant_prefix sd Hc Hp five_kinds []
              [TwitterTitle; TwitterDescription; OgImage; Canonical]
              html eq_refl) as (x' & Hrun & Hinv).
  { split; [assumption|]. split; [intros _; apply Hsp|].
    split; [intros k v []| intros []]. }
  exists x'. rewrite !five_steps. split; [assumption|].
  apply exec_steps_fixed. intros step Hin. apply in_map_iff in Hin.
  destruct Hin as (k & <- & Hk).
  now apply (invariant_fixed_on sd ([] ++ five_kinds)).
Qed.

Section FiveStatements.

Variable Product : Type.
Variable findOne : jsstring -> result (option Product).
Variable findById : jsstring -> result (option Product).
Variable generateProductSeoTags : Product -> jsstring -> result SeoTagSet.
Variable createMetaTagsHtml : SeoTagSet -> result jsstring.
Variable fetch : jsstring -> result (response Product).

Let inject :=
  injectMetaTags findOne findById generateProductSeoTags createMetaTagsHtml.
Let inject_five :=
  injectMetaTags_five findOne findById generateProductSeoTags
    createMetaTagsHtml.
Let plugin := transformIndexHtml fetch generateProductSeoTags.

(** The earlier injector, by cases. *)
Lemma inject_five_cases html pathname baseUrl slug :
  extractProductSlug pathname = Some slug ->
  inject_five html pathname baseUrl =
  match lookup findOne findById slug with
  | Throw => (html, lookup_events findOne slug ++ [ConsoleError])
  | Ok None => (html, lookup_events findOne slug)
  | Ok (Some product) =>
      match generateProductSeoTags product baseUrl with
      | Throw => (html, lookup_events findOne slug ++ [ConsoleError])
      | Ok seoData =>
          match createMetaTagsHtml seoData with
          | Throw => (html, lookup_events findOne slug ++ [ConsoleError])
          | Ok _ =>
              let (ok, html') := exec_steps (five seoData) html in
              (html', lookup_events findOne slug ++
                      if ok then [] else [ConsoleError])
          end
      end
  end.
Proof.
  intros H. unfold inject_five, injectMetaTags_five.
  rewrite H, (extracted_truthy _ _ H). cbn [negb].
  assert (Hafter : forall product tr,
    (seoData <~ lift (generateProductSeoTags product baseUrl) ;;
     metaTags <~ lift (createMetaTagsHtml seoData) ;;
     fold_right (fun step rest => assign_html step ;;; rest) read_html
       (five seoData)) (Frame html tr) =
    match generateProductSeoTags product baseUrl with
    | Throw => (Throw, Frame html tr)
    | Ok seoData =>
        match createMetaTagsHtml seoData with
        | Throw => (Throw, Frame html tr)
        | Ok _ =>
            let (ok, h') := exec_steps (five seoData) html in
            ((if ok then Ok h' else Throw), Frame h' tr)
        end
    end).
  { intros product tr. unfold mbind at 1, lift at 1.
    destruct (generateProductSeoTags product baseUrl) as [sd|]; [|reflexivity].
    unfold mbind at 1, lift at 1.
    destruct (createMetaTagsHtml sd); [|reflexivity].
    apply assign_steps. reflexivity. }
  unfold injectMetaTags_five_try, lookup, lookup_events.
  unfold mbind at 1, call at 1. cbn [var_html trace app].
  destruct (findOne slug) as [[p|]|].
  - unfold mbind at 1, ret at 1.
    change (?f (Frame html [FindOne slug])) with
      ((seoData <~ lift (generateProductSeoTags p baseUrl) ;;
        metaTags <~ lift (createMetaTagsHtml seoData) ;;
        fold_right (fun step rest => assign_html step ;;; rest) read_html
          (five seoData)) (Frame html [FindOne slug])).
    rewrite Hafter.
    destruct (generateProductSeoTags p baseUrl) as [sd|]; [|reflexivity].
    destruct (createMetaTagsHtml sd); [|reflexivity].
    destruct (exec_steps (five sd) html) as [[|] h']; cbn [trace var_html].
    + cbn [app]; reflexivity.
    + reflexivity.
  - unfold mbind at 1, call at 1. cbn [var_html trace app].
    destruct (findById slug) as [[p|]|].
    + change (?f (Frame html [FindOne slug; FindById slug])) with
        ((seoData <~ lift (generateProductSeoTags p baseUrl) ;;
          metaTags <~ lift (createMetaTagsHtml seoData) ;;
          fold_right (fun step rest => assign_html step ;;; rest) read_html
            (five seoData)) (Frame html [FindOne slug; FindById slug])).
      rewrite Hafter.
      destruct (generateProductSeoTags p baseUrl) as [sd|]; [|reflexivity].
      destruct (createMetaTagsHtml sd); [|reflexivity].
      destruct (exec_steps (five sd) html) as [[|] h']; cbn [trace var_html].
      * cbn [app]; reflexivity.
      * reflexivity.
    + reflexivity.
    + reflexivity.
  - reflexivity.
Qed.

(** X14.  Take a document in which no [<] stands between double quotes and
    whose first keywords tag, if there is one, contains the text
    [name='keywords'] in these very letters, and a generator whose tag-sets
    have their mandatory fields and values without [$] and [<].  Then the
    plugin, applied to its own result for the same path, returns that
    result again, with the same request to the backend and no warning
    more. *)
Theorem plugin_idempotent html pathname :
  well_quoted html -> spelled html Keywords ->
  (forall product seoData,
     generateProductSeoTags product (js "http://localhost:8080") = Ok seoData ->
     complete seoData /\ plain_values seoData) ->
  plugin (fst (plugin html pathname)) pathname = plugin html pathname.
Proof.
  intros Hx Hsp Hgen. unfold plugin.
  destruct (extractProductSlug pathname) as [slug|] eqn:Es.
  2:{ unfold transformIndexHtml. now rewrite Es. }
  rewrite (plugin_cases _ _ _ html pathname slug Es). cbv zeta.
  destruct (fetch _) as [[[|] [[p|]|]]|] eqn:Ef; cbn [fst];
    try (rewrite (plugin_cases _ _ _ _ pathname slug Es); cbv zeta;
         rewrite Ef; reflexivity).
  destruct (generateProductSeoTags p _) as [sd|] eqn:Eg; cbn [fst].
  2:{ rewrite (plugin_cases _ _ _ _ pathname slug Es). cbv zeta.
      rewrite Ef, Eg. reflexivity. }
  destruct (Hgen p sd Eg) as [Hc Hp].
  destruct (five_idempotent sd html Hc Hp Hx Hsp) as (html' & E1 & E2).
  rewrite E1. cbn [fst].
  rewrite (plugin_cases _ _ _ _ pathname slug Es). cbv zeta.
  rewrite Ef, Eg. now rewrite E2.
Qed.

(** X15.  Under the same conditions on the document and on the generator,
    the earlier injector, applied to its own result for the same request,
    returns that result again, with the same lookups and no error
    logged more. *)
Theorem earlier_injector_idempotent html pathname baseUrl :
  well_quoted html -> spelled html Keywords ->
  (forall product seoData,
     generateProductSeoTags product baseUrl = Ok seoData ->
     complete seoData /\ plain_values seoData) ->
  inject_five (fst (inject_five html pathname baseUrl)) pathname baseUrl =
  inject_five html pathname baseUrl.
Proof.
  intros Hx Hsp Hgen.
  destruct (extractProductSlug pathname) as [slug|] eqn:Es.
  2:{ unfold inject_five, injectMetaTags_five. now rewrite Es. }
  rewrite (inject_five_cases html pathname baseUrl slug Es).
  destruct (lookup findOne findById slug) as [[product|]|] eqn:El;
    cbn [fst];
    try (rewrite (inject_five_cases _ pathname baseUrl slug Es), El;
         reflexivity).
  destruct (generateProductSeoTags product baseUrl) as [sd|] eqn:Eg;
    cbn [fst].
  2:{ rewrite (inject_five_cases _ pathname baseUrl slug Es), El, Eg.
      reflexivity. }
  destruct (createMetaTagsHtml sd) as [rendered|] eqn:Er; cbn [fst].
  2:{ rewrite (inject_five_cases _ pathname baseUrl slug Es), El, Eg, Er.
      reflexivity. }
  destruct (Hgen product sd Eg) as [Hc Hp].
  destruct (five_idempotent sd html Hc Hp Hx Hsp) as (html' & E1 & E2).
  rewrite E1. cbn [fst].
  rewrite (inject_five_cases _ pathname baseUrl slug Es), El, Eg, Er.
  now rewrite E2.
Qed.

End FiveStatements.

Section PluginAndInjector.

Variable Product : Type.
Variable findOne : jsstring -> result (option Product).
Variable findById : jsstring -> result (option Product).
Variable createMetaTagsHtml : SeoTagSet -> result jsstring.
Variable fetch : jsstring -> result (response Product).

(** The generator that the middleware imports from
    [../utils/seoGenerator], and the one that the plugin imports from
    [./utils/seoGenerator]. *)
Variable generateProductSeoTags : Product -> jsstring -> result SeoTagSet.
Variable generateProductSeoTags' : Product -> jsstring -> result SeoTagSet.

(** X13.  The plugin and the earlier injector make the same document of
    the same tag-set.  When the backend answers the plugin with the product
    that the lookups of the injector find, and the generator of the plugin
    and the generator of the injector both return the same tag-set for this
    product and the base URL of the plugin, both return the same document,
    and the plugin warns exactly when the injector logs an error, which is
    when a statement throws; this as long as the renderer, which only the
    injector calls, does not throw. *)
Theorem plugin_agrees_with_earlier_injector
    html pathname slug product seoData :
  extractProductSlug pathname = Some slug ->
  fetch (product_url slug) = Ok (Response true (Ok (Some product))) ->
  lookup findOne findById slug = Ok (Some product) ->
  generateProductSeoTags' product (js "http://localhost:8080")
  = Ok seoData ->
  generateProductSeoTags product (js "http://localhost:8080")
  = Ok seoData ->
  createMetaTagsHtml seoData <> Throw ->
  fst (transformIndexHtml fetch generateProductSeoTags' html pathname) =
  fst (injectMetaTags_five findOne findById generateProductSeoTags
         createMetaTagsHtml html pathname (js "http://localhost:8080")) /\
  fst (transformIndexHtml fetch generateProductSeoTags' html pathname) =
  snd (exec_steps (five seoData) html) /\
  (In ConsoleWarn
     (snd (transformIndexHtml fetch generateProductSeoTags' html pathname)) <->
   In ConsoleError
     (snd (injectMetaTags_five findOne findById generateProductSeoTags
             createMetaTagsHtml html pathname (js "http://localhost:8080")))) /\
  (In ConsoleWarn
     (snd (transformIndexHtml fetch generateProductSeoTags' html pathname)) <->
   fst (exec_steps (five seoData) html) = false).
Proof.
  intros Es Ef El Eg' Eg Hr.
  rewrite (plugin_cases _ _ _ html pathname slug Es). cbv zeta.
  rewrite Ef, Eg'.
  rewrite (inject_five_cases _ _ _ _ _ html pathname _ slug Es), El, Eg.
  assert (Hlog : ~ In ConsoleError (lookup_events findOne slug)).
  { unfold lookup_events.
    destruct (findOne slug) as [[p|]|]; cbn; intuition discriminate. }
  destruct (createMetaTagsHtml seoData) as [mt|]; [|congruence].
  destruct (exec_steps (five seoData) html) as [[|] h]; cbn [fst snd].
  - split; [reflexivity|]. split; [reflexivity|]. rewrite app_nil_r.
    split; split.
    + intros [H|[]]. discriminate.
    + intros H. now apply Hlog in H.
    + intros [H|[]]. discriminate.
    + discriminate.
  - split; [reflexivity|]. split; [reflexivity|]. split; split.
    + intros _. apply in_or_app. right. now left.
    + intros _. right. now left.
    + reflexivity.
    + intros _. right. now left.
Qed.

End PluginAndInjector.

Section Continuation.

Variable Product : Type.
Variable findOne : jsstring -> result (option Product).
Variable findById : jsstring -> result (option Product).
Variable generateProductSeoTags : Product -> jsstring -> result SeoTagSet.
Variable createMetaTagsHtml : SeoTagSet -> result jsstring.

Let inject :=
  injectMetaTags findOne findById generateProductSeoTags createMetaTagsHtml.
Let inject_five :=
  injectMetaTags_five findOne findById generateProductSeoTags
    createMetaTagsHtml.

(** The nine statements are the five followed by the four later ones. *)
Lemma pipeline_five sd x :
  exec_steps (pipeline sd) x =
  let (ok, h) := exec_steps (five sd) x in
  if ok then exec_steps (later sd) h else (false, h).
Proof.
  change (pipeline sd) with
    ([step_title sd; step_description sd; step_og_title sd;
      step_og_description sd; step_keywords sd] ++ later sd).
  rewrite exec_steps_app.
  rewrite (exec_steps_ext _ (five sd)); [reflexivity|].
  unfold five. repeat constructor. intros h. symmetry.
  apply step_keywords_plugin_eq.
Qed.

(** X16.  The injector continues the earlier injector.  Whenever the
    earlier injector logs an error, finds no product or has no slug, the
    injector returns the same document and does the same.  Otherwise it
    returns what the statements 6 to 9 make of the document of the earlier
    injector.  In particular, when that document contains none of the texts
    [name='twitter:title'], [name='twitter:description'],
    [property='og:image'] and [rel='canonical'], both return the same
    document and do the same. *)
Theorem injector_continues_earlier html pathname baseUrl :
  let earlier := inject_five html pathname baseUrl in
  (In ConsoleError (snd earlier) -> inject html pathname baseUrl = earlier) /\
  (extractProductSlug pathname = None ->
   inject html pathname baseUrl = earlier) /\
  (forall slug,
     extractProductSlug pathname = Some slug ->
     lookup findOne findById slug = Ok None ->
     inject html pathname baseUrl = earlier) /\
  (forall slug product seoData,
     extractProductSlug pathname = Some slug ->
     lookup findOne findById slug = Ok (Some product) ->
     generateProductSeoTags product baseUrl = Ok seoData ->
     ~ In ConsoleError (snd earlier) ->
     inject html pathname baseUrl =
     (snd (exec_steps (later seoData) (fst earlier)),
      snd earlier ++
      if fst (exec_steps (later seoData) (fst earlier)) then []
      else [ConsoleError]) /\
     (includes (fst earlier) (jsq "name='twitter:title'") = false ->
      includes (fst earlier) (jsq "name='twitter:description'") = false ->
      includes (fst earlier) (jsq "property='og:image'") = false ->
      includes (fst earlier) (jsq "rel='canonical'") = false ->
      inject html pathname baseUrl = earlier)).
Proof.
  cbn zeta.
  assert (Hlog : forall slug, ~ In ConsoleError (lookup_events findOne slug)).
  { intros slug. unfold lookup_events.
    destruct (findOne slug) as [[p|]|]; cbn; intuition discriminate. }
  assert (Hnone : extractProductSlug pathname = None ->
                  inject html pathname baseUrl =
                  inject_five html pathname baseUrl).
  { intros E. unfold inject. rewrite inject_no_slug by assumption.
    unfold inject_five, injectMetaTags_five. now rewrite E. }
  split; [|split; [exact Hnone | split]].
  - destruct (extractProductSlug pathname) as [slug|] eqn:Es;
      [|intros _; now apply Hnone].
    unfold inject.
    rewrite (inject_cases _ _ _ _ _ html pathname baseUrl slug Es).
    unfold inject_five.
    rewrite (inject_five_cases _ _ _ _ _ html pathname baseUrl slug Es).
    destruct (lookup findOne findById slug) as [[p|]|]; try reflexivity.
    destruct (generateProductSeoTags p baseUrl) as [sd|]; try reflexivity.
    destruct (createMetaTagsHtml sd) as [mt|]; try reflexivity.
    rewrite pipeline_five.
    destruct (exec_steps (five sd) html) as [[|] h]; [|reflexivity].
    cbn [snd]. rewrite app_nil_r. intros H. now apply Hlog in H.
  - intros slug Es El. unfold inject, inject_five.
    rewrite (inject_cases _ _ _ _ _ html pathname baseUrl slug Es).
    rewrite (inject_five_cases _ _ _ _ _ html pathname baseUrl slug Es).
    now rewrite El.
  - intros slug product sd Es El Eg.
    unfold inject, inject_five.
    rewrite (inject_cases _ _ _ _ _ html pathname baseUrl slug Es).
    rewrite (inject_five_cases _ _ _ _ _ html pathname baseUrl slug Es).
    rewrite El, Eg.
    destruct (createMetaTagsHtml sd) as [mt|].
    2:{ cbn [snd]. intros H. exfalso. apply H. apply in_or_app.
        right. now left. }
    rewrite pipeline_five.
    destruct (exec_steps (five sd) html) as [[|] h]; cbn [fst snd].
    2:{ intros H. exfalso. apply H. apply in_or_app. right. now left. }
    intros _. rewrite app_nil_r. split.
    + now destruct (exec_steps (later sd) h) as [[|] h'].
    + intros H1 H2 H3 H4. unfold later, exec_steps.
      unfold step_twitter_title. rewrite H1.
      unfold step_twitter_description. rewrite H2.
      unfold step_og_image. rewrite H3.
      unfold step_canonical. rewrite H4.
      now rewrite app_nil_r.
Qed.

End Continuation.

(** ** Quoted text stays quoted *)

Lemma inserted_well_quoted pre W post :
  well_quoted (pre ++ head_closing ++ post) ->
  outside false W = true -> odd_quotes W = false ->
  well_quoted (pre ++ (js "    " ++ W ++ [newline]) ++ head_closing ++ post).
Proof.
  intros Hx Hout Hodd.
  pose proof (closing_outside pre post Hx) as Hpre.
  assert (Hins : outside false (js "    " ++ W ++ [newline]) = true /\
                 odd_quotes (js "    " ++ W ++ [newline]) = false).
  { rewrite !outside_app, !odd_quotes_app, Hodd.
    change (odd_quotes (js "    ")) with false. cbn [xorb].
    rewrite Hout. split; reflexivity. }
  destruct Hins as [Hins Hins'].
  unfold well_quoted in *.
  rewrite (outside_app false pre), Hpre in Hx. cbn [xorb] in Hx.
  apply andb_true_iff in Hx. destruct Hx as [H1 H2].
  rewrite (outside_app false pre), Hpre, H1. cbn [xorb andb].
  rewrite (outside_app false (js "    " ++ W ++ [newline])), Hins, Hins'.
  exact H2.
Qed.

Lemma replaced_well_quoted k v x :
  ~ In dollar v -> ~ In lt_sign v -> well_quoted x ->
  well_quoted (replace (re_of k) (written k v) x).
Proof.
  intros Hd Hv Hx.
  destruct (replace_outcome k v x Hd)
    as [[_ ->] | (pre & m & post & (-> & Hm & _) & ->)]; [assumption|].
  destruct (written_quotes k v Hv) as [Hout Hodd].
  now apply (rewritten_well_quoted k pre m).
Qed.

(** A step that completes keeps the document well quoted, when the value
    that it writes contains neither [$] nor [<]. *)
Lemma step_well_quoted sd k x x' :
  (forall v, field k sd = Some v -> ~ In dollar v /\ ~ In lt_sign v) ->
  well_quoted x -> step_of sd k x = Ok x' -> well_quoted x'.
Proof.
  intros Hp Hx Hstep. destruct (field k sd) as [v|] eqn:Hf.
  - destruct (Hp v eq_refl) as [Hd Hv].
    pose proof (replaced_well_quoted k v x Hd Hv Hx) as Hrep.
    destruct (attr_text k) as [a|] eqn:Ha.
    + destruct (kind_eq_dec k Keywords) as [-> | Hk].
      * cbn [step_of field] in *. destruct v as [|c v].
        { rewrite step_keywords_falsy in Hstep by now right.
          now injection Hstep as <-. }
        rewrite (step_keywords_form sd (c :: v) x Hf) in Hstep
          by discriminate.
        destruct (includes x (jsq "name='keywords'")).
        { now injection Hstep as <-. }
        destruct (indexOf head_closing x) as [i|] eqn:Ei;
          [|now injection Hstep as <-].
        injection Hstep as <-.
        destruct (first_of_indexOf _ _ _ Ei) as (pre & post & (-> & _) & <-).
        rewrite firstn_length_app.
        replace (skipn (length pre) (pre ++ head_closing ++ post))
          with (head_closing ++ post) by (symmetry; apply skipn_length_app).
        destruct (written_quotes Keywords (c :: v) Hv) as [Hout Hodd].
        exact (inserted_well_quoted pre (written Keywords (c :: v)) post
                 Hx Hout Hodd).
      * rewrite (step_conditional sd k a v x Hk Ha Hf) in Hstep.
        destruct (includes x a); now injection Hstep as <-.
    + rewrite (step_unconditional sd k v x Ha Hf) in Hstep.
      now injection Hstep as <-.
  - destruct k; cbn [step_of field] in *;
      [ unfold step_title in Hstep
      | unfold step_description in Hstep
      | unfold step_og_title in Hstep
      | unfold step_og_description in Hstep
      | rewrite step_keywords_falsy in Hstep by now left
      | unfold step_twitter_title in Hstep
      | unfold step_twitter_description in Hstep
      | unfold step_og_image in Hstep
      | unfold step_canonical in Hstep ];
      rewrite ?Hf in Hstep; cbn [escapeQuotes bind] in Hstep;
      try discriminate;
      try (now injection Hstep as <-);
      match type of Hstep with
      | (if ?b then _ else _) = _ => destruct b
      end; try discriminate; now injection Hstep as <-.
Qed.

Lemma exec_steps_keeps (P : jsstring -> Prop)
    (steps : list (jsstring -> result jsstring)) x :
  (forall step h h', In step steps -> P h -> step h = Ok h' -> P h') ->
  P x -> P (snd (exec_steps steps x)).
Proof.
  revert x. induction steps as [|s steps IH]; intros x H Hx; [assumption|].
  cbn [exec_steps]. destruct (s x) as [h|] eqn:E; [|assumption].
  apply IH.
  - intros step h1 h2 Hin. apply H. now right.
  - apply (H s x h); [now left | assumption | assumption].
Qed.

Section WellQuoted.

Variable Product : Type.
Variable findOne : jsstring -> result (option Product).
Variable findById : jsstring -> result (option Product).
Variable generateProductSeoTags : Product -> jsstring -> result SeoTagSet.
Variable createMetaTagsHtml : SeoTagSet -> result jsstring.

Let inject :=
  injectMetaTags findOne findById generateProductSeoTags createMetaTagsHtml.

(** X17.  The injector keeps quoted text quoted.  If no [<] of the
    document stands between double quotes, and the values of the generated
    tag-sets contain neither [$] nor [<], then no [<] of the document
    returned stands between double quotes either: whatever the values
    contain otherwise, no tag that the injector writes is left open or
    opens inside an attribute.  This holds on every way out of the
    injector, also when a step throws and the document returned is the work
    of the steps before it. *)
Theorem injector_keeps_well_quoted html pathname baseUrl :
  well_quoted html ->
  (forall product seoData,
     generateProductSeoTags product baseUrl = Ok seoData ->
     plain_values seoData) ->
  well_quoted (fst (inject html pathname baseUrl)).
Proof.
  intros Hx Hgen. unfold inject.
  destruct (extractProductSlug pathname) as [slug|] eqn:Es.
  2:{ now rewrite inject_no_slug. }
  rewrite (inject_cases _ _ _ _ _ html pathname baseUrl slug Es).
  destruct (lookup findOne findById slug) as [[p|]|]; try assumption.
  destruct (generateProductSeoTags p baseUrl) as [sd|] eqn:Eg;
    try assumption.
  destruct (createMetaTagsHtml sd) as [mt|]; try assumption.
  pose proof (exec_steps_keeps well_quoted (pipeline sd) html) as Hk.
  destruct (exec_steps (pipeline sd) html) as [ok h]. cbn [fst snd] in *.
  apply Hk; [|assumption].
  intros step h1 h2 Hin Hh1 Hstep. rewrite pipeline_kinds in Hin.
  apply in_map_iff in Hin. destruct Hin as (k & <- & _).
  apply (step_well_quoted sd k h1 h2); [|assumption|assumption].
  intros v Hf. now apply (Hgen p sd Eg k v).
Qed.

End WellQuoted.

(** ** The renderer *)

Section Renderer.

Variable Product : Type.
Variable findOne : jsstring -> result (option Product).
Variable findById : jsstring -> result (option Product).
Variable generateProductSeoTags : Product -> jsstring -> result SeoTagSet.

(** X18.  The injector calls [createMetaTagsHtml], but the text that it
    renders goes nowhere: the document and the events are the same for any
    two renderers that throw for the same tag-sets.  All that the renderer
    can do to a response is to throw, upon which the document is returned
    as it came, with an error logged. *)
Theorem rendered_tags_unused
    (createMetaTagsHtml createMetaTagsHtml' : SeoTagSet -> result jsstring)
    html pathname baseUrl :
  (forall seoData,
     createMetaTagsHtml seoData = Throw <->
     createMetaTagsHtml' seoData = Throw) ->
  injectMetaTags findOne findById generateProductSeoTags createMetaTagsHtml
    html pathname baseUrl =
  injectMetaTags findOne findById generateProductSeoTags createMetaTagsHtml'
    html pathname baseUrl /\
  (forall slug product seoData,
     extractProductSlug pathname = Some slug ->
     lookup findOne findById slug = Ok (Some product) ->
     generateProductSeoTags product baseUrl = Ok seoData ->
     createMetaTagsHtml seoData = Throw ->
     injectMetaTags findOne findById generateProductSeoTags
       createMetaTagsHtml html pathname baseUrl =
     (html, lookup_events findOne slug ++ [ConsoleError])).
Proof.
  intros H. split.
  - destruct (extractProductSlug pathname) as [slug|] eqn:Es.
    2:{ now rewrite !inject_no_slug. }
    rewrite !(inject_cases _ _ _ _ _ html pathname baseUrl slug Es).
    destruct (lookup findOne findById slug) as [[p|]|]; try reflexivity.
    destruct (generateProductSeoTags p baseUrl) as [sd|]; try reflexivity.
    specialize (H sd).
    destruct (createMetaTagsHtml sd) as [mt|],
             (createMetaTagsHtml' sd) as [mt'|]; try reflexivity.
    + destruct H as [_ H]. specialize (H eq_refl). discriminate.
    + destruct H as [H _]. specialize (H eq_refl). discriminate.
  - intros slug product sd Es El Eg Er.
    now rewrite (inject_cases _ _ _ _ _ html pathname baseUrl slug Es),
      El, Eg, Er.
Qed.

End Renderer.

(** ** When a step throws *)

Lemma step_throws sd k x :
  k <> Keywords ->
  (step_of sd k x = Throw <->
   field k sd = None /\
   (forall a, attr_text k = Some a -> includes x a = true)).
Proof.
  intros Hk. destruct (field k sd) as [v|] eqn:Hf.
  - split; [|intros [H _]; discriminate]. intros H. exfalso.
    destruct (attr_text k) as [a|] eqn:Ha.
    + rewrite (step_conditional sd k a v x Hk Ha Hf) in H.
      destruct (includes x a); discriminate.
    + rewrite (step_unconditional sd k v x Ha Hf) in H. discriminate.
  - destruct k; try congruence; cbn [step_of field attr_text] in *;
      [ unfold step_title
      | unfold step_description
      | unfold step_og_title
      | unfold step_og_description
      | unfold step_twitter_title
      | unfold step_twitter_description
      | unfold step_og_image
      | unfold step_canonical ];
      rewrite ?Hf; cbn [escapeQuotes bind];
      try (split; [intros _; split; [reflexivity | discriminate]
                  | reflexivity]);
      match goal with
      | |- (if ?b then _ else _) = _ <-> _ => destruct b eqn:Einc
      end;
      (split;
       [ first [ discriminate
               | intros _; split; [reflexivity|];
                 intros a [= <-]; assumption ]
       | first [ reflexivity
               | intros (_ & H); specialize (H _ eq_refl);
                 congruence ] ]).
Qed.

Section StepErrors.

Variable Product : Type.
Variable findOne : jsstring -> result (option Product).
Variable findById : jsstring -> result (option Product).
Variable generateProductSeoTags : Product -> jsstring -> result SeoTagSet.
Variable createMetaTagsHtml : SeoTagSet -> result jsstring.

Let inject :=
  injectMetaTags findOne findById generateProductSeoTags createMetaTagsHtml.

(** X19.  For a tag-set whose fields are strings or undefined, a step
    other than the keywords step throws exactly when the field that it
    writes is undefined and it gets to write: always for the title and the
    description, and for a conditional tag when the document contains the
    text that the step looks for.  So a tag-set without title stops the
    injector at the first step: the document is returned as it came, with
    an error logged.  Nothing is said here of the keywords step. *)
Theorem step_throws_iff sd :
  (forall k x,
     k <> Keywords ->
     (step_of sd k x = Throw <->
      field k sd = None /\
      (forall a, attr_text k = Some a -> includes x a = true))) /\
  (forall html pathname baseUrl slug product rendered,
     extractProductSlug pathname = Some slug ->
     lookup findOne findById slug = Ok (Some product) ->
     generateProductSeoTags product baseUrl = Ok sd ->
     createMetaTagsHtml sd = Ok rendered ->
     title sd = None ->
     inject html pathname baseUrl =
     (html, lookup_events findOne slug ++ [ConsoleError])).
Proof.
  split; [intros k x; apply step_throws|].
  intros html pathname baseUrl slug product rendered Es El Eg Er Ht.
  unfold inject.
  rewrite (inject_cases _ _ _ _ _ html pathname baseUrl slug Es), El, Eg, Er.
  unfold pipeline, exec_steps, step_title. now rewrite Ht.
Qed.

End StepErrors.

(** ** Where the claims as stated fail *)

(** C4.  The code at the failing input: the product is found and its
    tag-set has a title, but no description.  The first statement puts the
    title of the product into the document, the second statement throws, the
    error is caught and logged, and the document returned is the one with
    the new title: it is not the input document.  The plugin does the
    same, with a warning.  Where the lookup, the renderer or [fetch] throws
    instead, the input document comes back. *)
Theorem catch_returns_modified_document :
  sample_inject title_only_tags (jsq "<head><title>uni10</title></head>") =
  (jsq "<head><title>Blue Mug | uni10</title></head>",
   [FindOne (js "blue-mug"); ConsoleError]) /\
  transformIndexHtml answers (generates title_only_tags)
    (jsq "<head><title>uni10</title></head>") (js "/products/blue-mug") =
  (jsq "<head><title>Blue Mug | uni10</title></head>",
   [Fetch (product_url (js "blue-mug")); ConsoleWarn]) /\
  injectMetaTags (Product := unit) (fun _ => Throw) not_found
    (generates title_only_tags) renders
    (jsq "<head><title>uni10</title></head>")
    (js "/products/blue-mug") (js "https://uni10.in") =
  (jsq "<head><title>uni10</title></head>",
   [FindOne (js "blue-mug"); ConsoleError]) /\
  injectMetaTags found not_found (generates title_only_tags)
    (fun _ => Throw)
    (jsq "<head><title>uni10</title></head>")
    (js "/products/blue-mug") (js "https://uni10.in") =
  (jsq "<head><title>uni10</title></head>",
   [FindOne (js "blue-mug"); ConsoleError]) /\
  transformIndexHtml (Product := unit) (fun _ => Throw)
    (generates title_only_tags)
    (jsq "<head><title>uni10</title></head>") (js "/products/blue-mug") =
  (jsq "<head><title>uni10</title></head>",
   [Fetch (product_url (js "blue-mug")); ConsoleWarn]).
Proof. vm_compute. repeat split; reflexivity. Qed.

(** C2, the claim as stated fails: the document contains the text
    [name='keywords'], in a keywords tag whose [content] attribute comes
    first.  The tag is not replaced, and no tag is inserted: the injector
    and the plugin return the document as it came. *)
Lemma keywords_content_first_kept :
  includes content_first_keywords_document (jsq "name='keywords'") = true /\
  sample_inject sample_tags content_first_keywords_document =
  (content_first_keywords_document, [FindOne (js "blue-mug")]) /\
  transformIndexHtml answers (generates sample_tags)
    content_first_keywords_document (js "/products/blue-mug") =
  (content_first_keywords_document,
   [Fetch (product_url (js "blue-mug"))]).
Proof. vm_compute. repeat split; reflexivity. Qed.

(** C5, the claim as stated fails.  On the first document the first run
    leaves the title of the page alone, and the second run replaces it.  On
    the second document the first run inserts a keywords tag, and the
    second run rewrites the older tag, so that the document has two.  With
    [$&] in the title, the second run nests the title once more. *)
Lemma second_run_differs :
  fst (sample_inject sample_tags nested_title_document) =
    jsq "<head><meta name='description' content='A blue mug' />" ++
    jsq "<title>uni10</title>" ++
    jsq "<meta name='keywords' content='mug, blue' /></head>" /\
  fst (sample_inject sample_tags
         (fst (sample_inject sample_tags nested_title_document))) =
    jsq "<head><meta name='description' content='A blue mug' />" ++
    jsq "<title>Blue Mug | uni10</title>" ++
    jsq "<meta name='keywords' content='mug, blue' /></head>" /\
  fst (sample_inject sample_tags
         (fst (sample_inject sample_tags nested_title_document))) <>
  fst (sample_inject sample_tags nested_title_document) /\
  fst (sample_inject sample_tags
         (fst (sample_inject sample_tags capital_keywords_document))) <>
  fst (sample_inject sample_tags capital_keywords_document) /\
  fst (sample_inject dollar_tags (fst (sample_inject dollar_tags shell))) <>
  fst (sample_inject dollar_tags shell).
Proof. vm_compute. repeat split; discriminate. Qed.

(** C3, the claim as stated fails: a description tag whose [content]
    attribute comes before its [name] attribute is not replaced, while the
    same tag with [name] first is; and a title whose text contains [<] is
    not replaced. *)
Lemma description_attribute_order_matters :
  step_description sample_tags
    (jsq "<head><meta content='old' name='description'></head>") =
  Ok (jsq "<head><meta content='old' name='description'></head>") /\
  step_description sample_tags
    (jsq "<head><meta name='description' content='old'></head>") =
  Ok (jsq "<head><meta name='description' content='A blue mug' /></head>") /\
  step_title sample_tags (js "<head><title>a<b</title></head>") =
  Ok (js "<head><title>a<b</title></head>").
Proof. vm_compute. repeat split; reflexivity. Qed.

(** ** The theorems at work *)


(** C2 at work: on the page of the blue mug the injector returns what its
    nine statements leave; a head without keywords tag gets one before
    [</head>]; a keywords tag that is there is replaced; without keywords
    nothing happens. *)
Lemma keywords_witness :
  fst (sample_inject sample_tags shell) =
  snd (exec_steps (pipeline sample_tags) shell) /\
  step_keywords sample_tags (js "<head></head>") =
  Ok (js "<head>" ++
      (js "    " ++
       (jsq "<meta name='keywords' content='" ++ escape (js "mug, blue") ++
        jsq "' />") ++ [newline]) ++ js "</head>" ++ []) /\
  step_keywords sample_tags
    (jsq "<head><meta name='keywords' content='k'></head>") =
  Ok (jsq "<head><meta name='keywords' content='mug, blue' /></head>") /\
  step_keywords title_only_tags shell = Ok shell.
Proof.
  destruct (keywords_replaced_or_inserted unit found not_found
              (generates sample_tags) renders answers sample_tags)
    as (Hinj & _ & _ & _ & _ & Hstep & _).
  destruct (keywords_replaced_or_inserted unit found not_found
              (generates title_only_tags) renders answers title_only_tags)
    as (_ & _ & _ & _ & _ & _ & Hnone).
  split; [|split; [|split]].
  - apply (Hinj shell (js "/products/blue-mug") (js "https://uni10.in")
             (js "blue-mug") tt []);
      [vm_compute; reflexivity | reflexivity | reflexivity | reflexivity].
  - pose proof (Hstep (js "<head></head>") (js "mug, blue") eq_refl
                  ltac:(discriminate)) as H.
    cbv zeta in H. destruct H as [_ H].
    destruct (H ltac:(vm_compute; reflexivity)) as [H' _].
    apply (H' (js "<head>") []); [vm_compute; reflexivity|].
    apply (index_is_first (js "</head>") (js "<head></head>") 6).
    vm_compute. reflexivity.
  - pose proof (Hstep (jsq "<head><meta name='keywords' content='k'></head>")
                  (js "mug, blue") eq_refl ltac:(discriminate)) as H.
    cbv zeta in H. destruct H as [H _].
    destruct (H ltac:(vm_compute; reflexivity)) as [_ H'].
    assert (E : exec keywords_re
                  (jsq "<head><meta name='keywords' content='k'></head>") =
                Some (MatchResult 6 (jsq "<meta name='keywords' content='k'>")
                        []))
      by (vm_compute; reflexivity).
    rewrite (H' _ _ _
               (first_occurrence_of_exec keywords_re keywords_shape _ _
                  keywords_matches_shape E)).
    vm_compute. reflexivity.
  - apply Hnone. now left.
Defined.

(** C3 at work: the title and the description of the shell are replaced. *)
Lemma always_replace_witness :
  step_title sample_tags shell =
  Ok (jsq "<head><title>Blue Mug | uni10</title>" ++
      jsq "<meta name='description' content='old'></head>") /\
  step_description sample_tags shell =
  Ok (jsq "<head><title>uni10</title>" ++
      jsq "<meta name='description' content='A blue mug' /></head>") /\
  step_title sample_tags (js "<head></head>") = Ok (js "<head></head>").
Proof.
  destruct (always_replace_first_occurrence sample_tags) as [Ht Hd].
  assert (Et : exec title_re shell =
               Some (MatchResult 6 (js "<title>uni10</title>") []))
    by (vm_compute; reflexivity).
  assert (Ed : exec description_re shell =
               Some (MatchResult 26
                       (jsq "<meta name='description' content='old'>") []))
    by (vm_compute; reflexivity).
  split; [|split].
  - rewrite (proj2 (Ht _ eq_refl shell) _ _ _
               (first_occurrence_of_exec title_re title_shape _ _
                  title_matches_shape Et)).
    vm_compute. reflexivity.
  - rewrite (proj2 (Hd _ eq_refl shell) _ _ _
               (first_occurrence_of_exec description_re description_shape _ _
                  description_matches_shape Ed)).
    vm_compute. reflexivity.
  - apply (proj1 (Ht _ eq_refl (js "<head></head>"))).
    apply (no_match_absent title_re title_shape _ title_matches_shape).
    apply exec_no_match. vm_compute. reflexivity.
Defined.

(** C5 at work: on the shell the first run rewrites the title and the
    description and inserts the keywords tag; the second run returns the
    same document, with the same calls, and its keywords step changes
    nothing. *)
Lemma injector_idempotent_witness :
  fst (sample_inject sample_tags shell) =
    jsq "<head><title>Blue Mug | uni10</title>" ++
    jsq "<meta name='description' content='A blue mug' />" ++
    jsq "    <meta name='keywords' content='mug, blue' />" ++
    [newline] ++ js "</head>" /\
  sample_inject sample_tags (fst (sample_inject sample_tags shell)) =
  sample_inject sample_tags shell /\
  step_keywords sample_tags (fst (sample_inject sample_tags shell)) =
  Ok (fst (sample_inject sample_tags shell)).
Proof.
  destruct (injector_idempotent unit found not_found (generates sample_tags)
              renders shell (js "/products/blue-mug") (js "https://uni10.in"))
    as [Htwice Hsteps].
  - reflexivity.
  - apply spelledb_spelled. vm_compute. reflexivity.
  - intros [] sd [= <-]. split.
    + unfold complete. cbn. repeat split; discriminate.
    + intros k v. destruct k; cbn [field sample_tags]; intros [= <-];
        vm_compute; intuition discriminate.
  - split; [vm_compute; reflexivity|]. split; [exact Htwice|].
    apply (Hsteps (js "blue-mug") tt sample_tags []);
      [vm_compute; reflexivity | reflexivity | reflexivity | reflexivity |].
    unfold pipeline. cbn [In]. tauto.
Defined.


(** C7 at work: [/about] is no product path. *)
Lemma identity_on_other_paths_witness :
  injectMetaTags found not_found (generates sample_tags) renders
    shell (js "/about") (js "https://uni10.in") = (shell, []).
Proof.
  apply inject_identity_on_other_paths.
  intros (c & r & E & _). vm_compute in E. discriminate E.
Defined.

(** C8 at work: an unknown slug is looked up by slug, then by id, and the
    document comes back as it was. *)
Lemma lookup_order_witness :
  injectMetaTags not_found not_found (generates sample_tags) renders
    shell (js "/products/unknown-slug") (js "https://uni10.in") =
  (shell, [FindOne (js "unknown-slug"); FindById (js "unknown-slug")]).
Proof.
  apply (proj2 (lookup_by_slug_then_by_id unit not_found not_found
                  (generates sample_tags) renders shell
                  (js "/products/unknown-slug") (js "https://uni10.in")
                  (js "unknown-slug") ltac:(vm_compute; reflexivity)));
    reflexivity.
Defined.

(** C9 at work: the slug of a path with a query. *)
Lemma extractProductSlug_witness :
  extractProductSlug (js "/products/Blue%20Mug?ref=1") =
  Some (js "Blue%20Mug").
Proof.
  apply (proj1 (extractProductSlug_spec (js "/products/Blue%20Mug?ref=1"))
           (js "Blue%20Mug")).
  exists (js "?ref=1"). split; [reflexivity|]. split; [discriminate|].
  split.
  - repeat constructor; discriminate.
  - right. exists question, (js "ref=1"). split; [reflexivity | now right].
Defined.

(** C10 at work: [/products/] and [/products//x] have no slug. *)
Lemma slug_nonempty_witness :
  extractProductSlug (js "/products/") = None /\
  extractProductSlug (js "/products//x") = None /\
  injectMetaTags found not_found (generates sample_tags) renders
    shell (js "/products//x") (js "https://uni10.in") = (shell, []).
Proof.
  destruct extracted_slug_nonempty as [_ H].
  destruct (H [] ltac:(now left)) as [H1 _].
  destruct (H (js "/x") ltac:(right; exists slash, (js "x"); split;
                              [reflexivity | now left])) as [H2 H3].
  split; [exact H1|]. split; [exact H2|].
  apply (H3 unit found not_found (generates sample_tags) renders shell
           (js "https://uni10.in")).
Defined.

(** X1 at work: the template read at the first call is returned at the
    second one, though the file can no longer be read. *)
Lemma getIndexHtml_cache_sticks_witness :
  getIndexHtml (Ok shell) None = (Some shell, Some shell, [ReadFile]) /\
  getIndexHtml Throw (Some shell) = (Some shell, Some shell, []).
Proof.
  destruct (getIndexHtml_cache_sticks (Ok shell) None (Some shell)
              (Some shell) [ReadFile] eq_refl eq_refl) as [_ H].
  split; [reflexivity | apply H].
Defined.

(** X4 at work: the lookup by slug that the middleware makes for the page
    of the blue mug. *)
Lemma middleware_lookups_witness :
  passed_on product_request = false /\
  exists template slug,
    fst (fst (getIndexHtml (Ok shell) None)) = Some template /\
    template <> [] /\
    extractProductSlug (path product_request) = Some slug /\
    In (FindOne (js "blue-mug"))
       (snd (injectMetaTags found not_found (generates sample_tags) renders
               template (path product_request) (base_url product_request))).
Proof.
  apply (middleware_lookups_only_for_products unit found not_found
           (generates sample_tags) renders all_sound (Ok tt)
           (Ok shell) product_request None (FindOne (js "blue-mug"))).
  vm_compute. right. left. reflexivity.
Defined.

(** X5 at work: a response object whose [send] throws for the page, but
    not for the answer of the error; and a request for the API whose [next]
    throws. *)
Lemma middleware_rejects_witness :
  seoMetaInjectionMiddleware found not_found (generates sample_tags) renders
    send_fails (Ok tt) (Ok shell) about_request None =
  (Ok tt, Some shell,
   [ReadFile] ++ map Injector [] ++
   map Res ([SetHeader (js "Content-Type") (js "text/html; charset=UTF-8");
             SetHeader (js "Cache-Control")
               (js "public, max-age=0, must-revalidate")] ++
            [Send shell]) ++
   LogError :: Res (Status 500) ::
   [Res (Send (js "Internal Server Error"))]) /\
  ((passed_on api_request = true /\ @Throw unit = Throw) \/
   all_sound (Status 500) = Throw \/
   all_sound (Send (js "Internal Server Error")) = Throw).
Proof.
  split.
  - destruct (middleware_rejects_only_if unit found not_found
                (generates sample_tags) renders send_fails (Ok tt)
                (Ok shell) about_request None) as [_ H].
    specialize (H shell (Some shell) [ReadFile] eq_refl eq_refl
                  ltac:(discriminate)).
    cbv zeta in H.
    destruct H
      as (before & c & after & outcome & rest & Hs & Hb & Hc & Hmw & _ & Hok).
    { exists (Send shell). split; [right; right; now left | reflexivity]. }
    destruct (Hok eq_refl) as [-> ->]. rewrite Hmw.
    destruct before as [|b1 before]; cbn [app] in Hs.
    { injection Hs as <- _. discriminate Hc. }
    injection Hs as <- Hs. destruct before as [|b2 before]; cbn [app] in Hs.
    { injection Hs as <- _. discriminate Hc. }
    injection Hs as <- Hs. destruct before as [|b3 before]; cbn [app] in Hs.
    { injection Hs as <- _. reflexivity. }
    injection Hs as _ Hs. destruct before; discriminate Hs.
  - apply (proj1 (middleware_rejects_only_if unit found not_found
                    (generates sample_tags) renders all_sound Throw
                    (Ok shell) api_request None)).
    reflexivity.
Defined.

(** X6 at work: the file cannot be read, and [/about] is answered with the
    status 500. *)
Lemma middleware_answers_once_witness :
  seoMetaInjectionMiddleware found not_found (generates sample_tags) renders
    all_sound (Ok tt) Throw about_request None =
  (Ok tt, None,
   ([ReadFile; LogError] ++ [Res (Status 500)]) ++
   [Res (Send (js "Internal Server Error"))]).
Proof.
  destruct (middleware_answers_once unit found not_found
              (generates sample_tags) renders all_sound (Ok tt)
              Throw about_request None)
    as (Hok & evs & body & E & _ & _ & Hfalsy).
  - intros c. reflexivity.
  - reflexivity.
  - destruct (Hfalsy eq_refl) as [-> ->].
    destruct (seoMetaInjectionMiddleware _ _ _ _ _ _ _ _ _) as [[r c] e]
      eqn:Em.
    cbn [fst snd] in Hok, E. rewrite Hok, E. f_equal. f_equal.
    vm_compute in Em. now injection Em as _ <- _.
Defined.

(** X7 at work: three requests served from the shell, while the file
    cannot be read or is empty. *)
Lemma served_from_template_witness :
  serve (seoMetaInjectionMiddleware found not_found (generates sample_tags)
           renders all_sound (Ok tt))
    [(Throw, product_request); (Ok [], api_request); (Throw, about_request)]
    (Some shell) =
  ([(Ok tt,
     [Injector (FindOne (js "blue-mug"))] ++
     page_sent (fst (sample_inject sample_tags shell)));
    (Ok tt, [Next]);
    (Ok tt, page_sent shell)],
   Some shell).
Proof.
  destruct (served_from_template unit found not_found (generates sample_tags)
              renders all_sound (Ok tt) shell
              [(Throw, product_request); (Ok [], api_request);
               (Throw, about_request)]) as [Hc Ha].
  - intros c. reflexivity.
  - discriminate.
  - destruct (serve _ _ _) as [answers final]. cbn [fst snd] in Hc, Ha.
    subst final. f_equal.
    inversion Ha as [|? a1 ? l1 (_ & H1 & _) Ha1]; subst.
    inversion Ha1 as [|? a2 ? l2 (H2 & _) Ha2]; subst.
    inversion Ha2 as [|? a3 ? l3 (_ & _ & H3) Ha3]; subst.
    inversion Ha3; subst.
    rewrite (H1 eq_refl), (H2 eq_refl), (H3 eq_refl) by reflexivity.
    reflexivity.
Defined.

(** X8 at work: the rendered tags go before [</head>] in the shell. *)
Lemma block_inserted_witness :
  injectMetaTags_block found not_found (generates sample_tags) renders_tags
    shell (js "/products/blue-mug") (js "https://uni10.in") =
  ((jsq "<head><title>uni10</title>" ++
    jsq "<meta name='description' content='old'>") ++
   rendered_tags ++ head_closing ++ [],
   [FindOne (js "blue-mug")]).
Proof.
  destruct (block_inserted_before_head unit found not_found
              (generates sample_tags) renders_tags
              shell (js "/products/blue-mug") (js "https://uni10.in")
              (js "blue-mug") tt sample_tags rendered_tags
              ltac:(vm_compute; reflexivity) eq_refl eq_refl eq_refl)
    as (He & Hf & _).
  rewrite (surjective_pairing (injectMetaTags_block _ _ _ _ _ _ _)).
  rewrite He.
  rewrite (Hf (jsq "<head><title>uni10</title>" ++
               jsq "<meta name='description' content='old'>") []
              (first_at head_closing
                 (jsq "<head><title>uni10</title>" ++
                  jsq "<meta name='description' content='old'>") []
                 ltac:(vm_compute; reflexivity))).
  reflexivity.
Defined.

(** X10 at work: the second pass over the shell adds the rendered tags
    once more. *)
Lemma block_inserted_twice_witness :
  length (fst (injectMetaTags_block found not_found (generates sample_tags)
                 renders_tags
                 (fst (injectMetaTags_block found not_found
                         (generates sample_tags) renders_tags
                         shell (js "/products/blue-mug")
                         (js "https://uni10.in")))
                 (js "/products/blue-mug") (js "https://uni10.in"))) =
  length shell + 2 * length rendered_tags /\
  fst (injectMetaTags_block found not_found (generates sample_tags)
         renders_tags
         (fst (injectMetaTags_block found not_found
                 (generates sample_tags) renders_tags
                 shell (js "/products/blue-mug") (js "https://uni10.in")))
         (js "/products/blue-mug") (js "https://uni10.in")) <>
  fst (injectMetaTags_block found not_found (generates sample_tags)
         renders_tags shell (js "/products/blue-mug")
         (js "https://uni10.in")).
Proof.
  destruct (block_inserted_twice unit found not_found
              (generates sample_tags) renders_tags
              shell (js "/products/blue-mug") (js "https://uni10.in")
              (js "blue-mug") tt sample_tags rendered_tags
              ltac:(vm_compute; reflexivity) eq_refl eq_refl eq_refl
              ltac:(vm_compute; reflexivity) ltac:(discriminate))
    as (_ & H2 & H3 & _).
  split; [exact H2 | exact H3].
Defined.

(** X13 at work: the plugin and the earlier injector on the page of the
    blue mug. *)
Lemma plugin_agrees_witness :
  fst (transformIndexHtml answers (generates sample_tags)
         shell (js "/products/blue-mug")) =
  fst (injectMetaTags_five found not_found (generates sample_tags) renders
         shell (js "/products/blue-mug") (js "http://localhost:8080")).
Proof.
  destruct (plugin_agrees_with_earlier_injector unit found not_found
              renders answers (generates sample_tags) (generates sample_tags)
              shell (js "/products/blue-mug") (js "blue-mug") tt sample_tags
              ltac:(vm_compute; reflexivity) eq_refl eq_refl eq_refl eq_refl
              ltac:(discriminate)) as [H _].
  exact H.
Defined.

(** X14 at work: the plugin applied twice to the shell. *)
Lemma plugin_idempotent_witness :
  transformIndexHtml answers (generates sample_tags)
    (fst (transformIndexHtml answers (generates sample_tags)
            shell (js "/products/blue-mug")))
    (js "/products/blue-mug") =
  transformIndexHtml answers (generates sample_tags)
    shell (js "/products/blue-mug").
Proof.
  apply (plugin_idempotent unit (generates sample_tags) answers
           shell (js "/products/blue-mug")).
  - reflexivity.
  - apply spelledb_spelled. vm_compute. reflexivity.
  - intros [] sd [= <-]. split.
    + unfold complete. cbn. repeat split; discriminate.
    + intros k v. destruct k; cbn [field sample_tags]; intros [= <-];
        vm_compute; intuition discriminate.
Defined.

(** X15 at work: the earlier injector applied twice to the shell. *)
Lemma earlier_injector_idempotent_witness :
  injectMetaTags_five found not_found (generates sample_tags) renders
    (fst (injectMetaTags_five found not_found (generates sample_tags) renders
            shell (js "/products/blue-mug") (js "https://uni10.in")))
    (js "/products/blue-mug") (js "https://uni10.in") =
  injectMetaTags_five found not_found (generates sample_tags) renders
    shell (js "/products/blue-mug") (js "https://uni10.in").
Proof.
  apply (earlier_injector_idempotent unit found not_found
           (generates sample_tags) renders
           shell (js "/products/blue-mug") (js "https://uni10.in")).
  - reflexivity.
  - apply spelledb_spelled. vm_compute. reflexivity.
  - intros [] sd [= <-]. split.
    + unfold complete. cbn. repeat split; discriminate.
    + intros k v. destruct k; cbn [field sample_tags]; intros [= <-];
        vm_compute; intuition discriminate.
Defined.

(** X17 at work: the page of the blue mug made of the shell. *)
Lemma injector_keeps_well_quoted_witness :
  well_quoted (fst (sample_inject sample_tags shell)).
Proof.
  apply (injector_keeps_well_quoted unit found not_found
           (generates sample_tags) renders
           shell (js "/products/blue-mug") (js "https://uni10.in")).
  - reflexivity.
  - intros [] sd [= <-] k v. destruct k; cbn [field sample_tags];
      intros [= <-]; vm_compute; intuition discriminate.
Defined.

(** X18 at work: the page of the blue mug is the same with a renderer of
    nothing and with a renderer of a tag. *)
Lemma rendered_tags_unused_witness :
  injectMetaTags found not_found (generates sample_tags) renders
    shell (js "/products/blue-mug") (js "https://uni10.in") =
  injectMetaTags found not_found (generates sample_tags) renders_tags
    shell (js "/products/blue-mug") (js "https://uni10.in").
Proof.
  destruct (rendered_tags_unused unit found not_found (generates sample_tags)
              renders renders_tags
              shell (js "/products/blue-mug") (js "https://uni10.in"))
    as [H _].
  - intros sd. split; discriminate.
  - exact H.
Defined.

(** X2 at work: an empty file is read, and nothing usable comes of it. *)
Lemma getIndexHtml_unavailable_witness :
  truthy (fst (fst (getIndexHtml (Ok []) None))) = false /\
  truthy (snd (fst (getIndexHtml (Ok []) None))) = false /\
  In ReadFile (snd (getIndexHtml (Ok []) None)).
Proof.
  pose proof (getIndexHtml_unavailable (Ok []) None) as H. cbv zeta in H.
  destruct H as (H1 & H2 & H3 & _).
  assert (Hf : truthy (fst (fst (getIndexHtml (Ok []) None))) = false).
  { apply H1. split; [reflexivity | now right]. }
  split; [exact Hf|]. split; [now rewrite H2 | apply H3; reflexivity].
Defined.

(** X3 at work: the page of the blue mug is not passed on. *)
Lemma middleware_passes_on_witness :
  ~ In Next
      (snd (seoMetaInjectionMiddleware found not_found
              (generates sample_tags) renders all_sound (Ok tt)
              (Ok shell) product_request None)).
Proof.
  destruct (middleware_passes_on unit found not_found (generates sample_tags)
              renders all_sound (Ok tt) (Ok shell) product_request None)
    as (_ & _ & H).
  apply (H (js "blue-mug")). vm_compute. reflexivity.
Defined.

(** X9 at work: a lookup that throws leaves the shell as it is. *)
Lemma block_keeps_document_witness :
  fst (injectMetaTags_block (Product := unit) (fun _ => Throw) not_found
         (generates sample_tags) renders_tags
         shell (js "/products/blue-mug") (js "https://uni10.in")) = shell.
Proof.
  destruct (block_keeps_document unit (fun _ => Throw) not_found
              (generates sample_tags) renders_tags
              shell (js "/products/blue-mug") (js "https://uni10.in"))
    as (_ & H & _).
  apply H. vm_compute. right. left. reflexivity.
Defined.

(** X11 at work: the plugin of part_001 on the shell; then a generator
    that throws an error, and one that throws [null]. *)
Lemma axios_plugin_witness :
  transformIndexHtml_axios (Product := unit)
    (fun _ _ => Normal sample_tags) (fun _ => Normal rendered_tags)
    (fun _ => Ok (Some tt)) shell (js "/products/blue-mug") =
  (Ok ((jsq "<head><title>uni10</title>" ++
        jsq "<meta name='description' content='old'>") ++
       rendered_tags ++ head_closing ++ []),
   [Fetch (product_url (js "blue-mug"))]) /\
  transformIndexHtml_axios (Product := unit)
    (fun _ _ => Abrupt Value) (fun _ => Normal rendered_tags)
    (fun _ => Ok (Some tt)) shell (js "/products/blue-mug") =
  (Ok shell, [Fetch (product_url (js "blue-mug")); ConsoleWarn]) /\
  transformIndexHtml_axios (Product := unit)
    (fun _ _ => Abrupt Nullish) (fun _ => Normal rendered_tags)
    (fun _ => Ok (Some tt)) shell (js "/products/blue-mug") =
  (Throw, [Fetch (product_url (js "blue-mug"))]).
Proof.
  assert (Hd : ~ In dollar rendered_tags)
    by (vm_compute; intuition discriminate).
  split; [|split].
  - destruct (axios_plugin_inserts unit (fun _ _ => Normal sample_tags)
                (fun _ => Normal rendered_tags) (fun _ => Ok (Some tt))
                shell (js "/products/blue-mug")) as [_ H].
    specialize (H (js "blue-mug") ltac:(vm_compute; reflexivity)).
    cbv zeta in H. destruct H as (_ & _ & _ & H).
    destruct (H tt sample_tags rendered_tags eq_refl eq_refl eq_refl)
      as (_ & Hins).
    destruct (Hins Hd) as (Hf & _).
    apply Hf.
    apply (first_at head_closing
             (jsq "<head><title>uni10</title>" ++
              jsq "<meta name='description' content='old'>") []).
    vm_compute. reflexivity.
  - destruct (axios_plugin_inserts unit (fun _ _ => Abrupt Value)
                (fun _ => Normal rendered_tags) (fun _ => Ok (Some tt))
                shell (js "/products/blue-mug")) as [_ H].
    specialize (H (js "blue-mug") ltac:(vm_compute; reflexivity)).
    cbv zeta in H. destruct H as (_ & _ & H & _).
    destruct (H tt Value eq_refl ltac:(now left)) as [Hw _].
    exact (Hw eq_refl).
  - destruct (axios_plugin_inserts unit (fun _ _ => Abrupt Nullish)
                (fun _ => Normal rendered_tags) (fun _ => Ok (Some tt))
                shell (js "/products/blue-mug")) as [_ H].
    specialize (H (js "blue-mug") ltac:(vm_compute; reflexivity)).
    cbv zeta in H. destruct H as (_ & _ & H & _).
    destruct (H tt Nullish eq_refl ltac:(now left)) as [_ Hr].
    exact (Hr eq_refl).
Defined.

(** X12 at work: the second plugin of part_000 on the shell, and a backend
    that does not know the product. *)
Lemma fetch_plugin_witness :
  fst (transformIndexHtml_block (generates sample_tags) renders_tags answers
         shell (js "/products/blue-mug")) =
  (jsq "<head><title>uni10</title>" ++
   jsq "<meta name='description' content='old'>") ++
  rendered_tags ++ head_closing ++ [] /\
  transformIndexHtml_block (Product := unit) (generates sample_tags)
    renders_tags (fun _ => Ok (Response false Throw))
    shell (js "/products/blue-mug") =
  (shell, [Fetch (product_url (js "blue-mug"))]).
Proof.
  split.
  - destruct (fetch_plugin_inserts unit (generates sample_tags) renders_tags
                answers shell (js "/products/blue-mug")) as [_ H].
    specialize (H (js "blue-mug") ltac:(vm_compute; reflexivity)).
    cbv zeta in H. destruct H as (_ & _ & _ & H).
    destruct (H tt sample_tags rendered_tags eq_refl eq_refl eq_refl
                ltac:(vm_compute; intuition discriminate)) as (_ & Hf & _).
    apply Hf.
    apply (first_at head_closing
             (jsq "<head><title>uni10</title>" ++
              jsq "<meta name='description' content='old'>") []).
    vm_compute. reflexivity.
  - destruct (fetch_plugin_inserts unit (generates sample_tags) renders_tags
                (fun _ => Ok (Response false Throw))
                shell (js "/products/blue-mug")) as [_ H].
    specialize (H (js "blue-mug") ltac:(vm_compute; reflexivity)).
    cbv zeta in H. destruct H as (H & _).
    exact (H Throw eq_refl).
Defined.

(** X16 at work: the shell has none of the later tags, and both injectors
    make the same page of it. *)
Lemma injector_continues_witness :
  injectMetaTags found not_found (generates sample_tags) renders
    shell (js "/products/blue-mug") (js "https://uni10.in") =
  injectMetaTags_five found not_found (generates sample_tags) renders
    shell (js "/products/blue-mug") (js "https://uni10.in").
Proof.
  pose proof (injector_continues_earlier unit found not_found
                (generates sample_tags) renders
                shell (js "/products/blue-mug") (js "https://uni10.in"))
    as H.
  cbv zeta in H. destruct H as (_ & _ & _ & H).
  destruct (H (js "blue-mug") tt sample_tags
              ltac:(vm_compute; reflexivity) eq_refl eq_refl
              ltac:(vm_compute; intuition discriminate)) as [_ Hsame].
  apply Hsame; vm_compute; reflexivity.
Defined.

(** X19 at work: without a description the second step throws, and
    without a title the shell comes back as it was. *)
Lemma step_throws_witness :
  step_description title_only_tags shell = Throw /\
  injectMetaTags found not_found
    (generates {| title := None; description := None; ogTitle := None;
                  ogDescription := None; ogImage := None; keywords := None;
                  canonicalUrl := None |}) renders
    shell (js "/products/blue-mug") (js "https://uni10.in") =
  (shell, [FindOne (js "blue-mug"); ConsoleError]).
Proof.
  split.
  - destruct (step_throws_iff unit found not_found (generates title_only_tags)
                renders title_only_tags) as [H _].
    apply (H Description shell); [discriminate|].
    split; [reflexivity | intros a; discriminate].
  - destruct (step_throws_iff unit found not_found
                (generates {| title := None; description := None;
                              ogTitle := None; ogDescription := None;
                              ogImage := None; keywords := None;
                              canonicalUrl := None |}) renders
                {| title := None; description := None; ogTitle := None;
                   ogDescription := None; ogImage := None; keywords := None;
                   canonicalUrl := None |}) as [_ H].
    exact (H shell (js "/products/blue-mug") (js "https://uni10.in")
             (js "blue-mug") tt [] ltac:(vm_compute; reflexivity)
             eq_refl eq_refl eq_refl eq_refl).
Defined.
